(** * Chainlink Plug-and-Play deploy scripts: a shallow embedding

    The development follows the layout of [deploy/]:
    - JavaScript strings and the fragment of the pattern language the
      scripts use ([JsString], [RegExp]);
    - the slice of the Node runtime the scripts touch: files, the process
      environment, child processes ([Node]);
    - [helpers/extractAddress.js], [helpers/executeCommand.js],
      [helpers/updateEnvFile.js];
    - [modules/functions.js], [modules/automation.js];
    - [deploy.js];
    - the vocabulary of the properties, sample machines, and the
      properties themselves, claim by claim (C1 to C10);
    - further properties of the same code (X1 to X26): the env store,
      the env readers, the registrars, the address extractor and the
      pipeline as a whole. *)

From Stdlib Require Import NArith Ascii String List Lia.
From stdpp Require Import base option list gmap.

Set Default Proof Using "Type".
Local Open Scope N_scope.

(* ===================================================================== *)
(** ** JavaScript strings *)
(* ===================================================================== *)

(** A JavaScript string is a sequence of UTF-16 code units. *)
Abbreviation jsstring := (list N).

Module JsString.

(** An ASCII literal of the source, as code units. *)
Fixpoint str (s : string) : jsstring :=
  match s with
  | EmptyString => []
  | String a rest => N_of_ascii a :: str rest
  end.
Arguments str : simpl never.

(** [ToBoolean] on a string: only the empty string is falsy. *)
Definition truthy (s : jsstring) : bool :=
  match s with [] => false | _ :: _ => true end.

(** [ToBoolean] on a value that is a string or [undefined]/[null]. *)
Definition truthyOpt (v : option jsstring) : bool :=
  match v with Some s => truthy s | None => false end.

(** Template-literal interpolation of a string-or-undefined value. *)
Definition interp (v : option jsstring) : jsstring :=
  match v with Some s => s | None => str "undefined" end.

Fixpoint eqb (a b : jsstring) : bool :=
  match a, b with
  | [], [] => true
  | x :: a', y :: b' => (x =? y) && eqb a' b'
  | _, _ => false
  end.

(** [s.startsWith(p)], returning what follows the prefix. *)
Fixpoint stripPrefix (p s : jsstring) : option jsstring :=
  match p with
  | [] => Some s
  | x :: p' =>
      match s with
      | y :: s' => if x =? y then stripPrefix p' s' else None
      | [] => None
      end
  end.

Definition startsWith (s p : jsstring) : bool :=
  match stripPrefix p s with Some _ => true | None => false end.

(** [s.includes(p)] *)
Fixpoint includes (s p : jsstring) : bool :=
  startsWith s p ||
  match s with
  | [] => false
  | _ :: s' => includes s' p
  end.

(** [s.endsWith(p)] *)
Definition endsWith (s p : jsstring) : bool :=
  startsWith (rev s) (rev p).

End JsString.
Import JsString.

(* ===================================================================== *)
(** ** The pattern language *)
(* ===================================================================== *)

(** The fragment of ECMAScript regular expressions that occurs in the
    scripts, with the backtracking semantics of the language definition:
    alternatives are tried in priority order, quantifiers are greedy, and a
    search tries every start index from the left.  No pattern of the
    scripts has the [u] flag, so matching proceeds by code unit. *)
Module RegExp.

(** LineTerminator: LF, CR, LS, PS. *)
Definition isLineTerminator (c : N) : bool :=
  (c =? 10) || (c =? 13) || (c =? 0x2028) || (c =? 0x2029).

(** [\s]: WhiteSpace and LineTerminator. *)
Definition isWhiteSpace (c : N) : bool :=
  (c =? 9) || (c =? 10) || (c =? 11) || (c =? 12) || (c =? 13) ||
  (c =? 32) || (c =? 0xA0) || (c =? 0x1680) ||
  ((0x2000 <=? c) && (c <=? 0x200A)) ||
  (c =? 0x2028) || (c =? 0x2029) || (c =? 0x202F) || (c =? 0x205F) ||
  (c =? 0x3000) || (c =? 0xFEFF).

(** [\d] *)
Definition isDigit (c : N) : bool := (48 <=? c) && (c <=? 57).

(** [\w] *)
Definition isWordChar (c : N) : bool :=
  ((97 <=? c) && (c <=? 122)) || ((65 <=? c) && (c <=? 90)) ||
  isDigit c || (c =? 95).

(** [.] without the [s] flag *)
Definition isDot (c : N) : bool := negb (isLineTerminator c).

(** Canonicalize of the [i] flag, on the code units that can equal the
    canonical form of an ASCII unit: a unit above 127 never canonicalizes
    to an ASCII one, so it is left alone. *)
Definition canonicalize (c : N) : N :=
  if (97 <=? c) && (c <=? 122) then c - 32 else c.

Inductive Node : Type :=
| Empty
| Char (c : N)                 (* a literal code unit *)
| CharSet (p : N -> bool)      (* a class or a class escape *)
| LineStart                    (* [^] under the [m] flag *)
| WordBoundary                 (* [\b] *)
| Seq (a b : Node)
| Star (p : N -> bool)         (* greedy [X*] of a one-unit atom [X] *)
| Capture (a : Node).          (* the capture group of the pattern *)

(** [X+] *)
Definition Plus (p : N -> bool) : Node := Seq (CharSet p) (Star p).

(** [X{n}] *)
Fixpoint Repeat (n : nat) (p : N -> bool) : Node :=
  match n with
  | O => Empty
  | S n' => Seq (CharSet p) (Repeat n' p)
  end.

(** A run of literal units. *)
Fixpoint lit (s : jsstring) : Node :=
  match s with
  | [] => Empty
  | c :: s' => Seq (Char c) (lit s')
  end.

(** A literal unit under the [i] flag. *)
Definition CharI (c : N) : Node :=
  CharSet (fun x => canonicalize x =? canonicalize c).

Fixpoint litI (s : jsstring) : Node :=
  match s with
  | [] => Empty
  | c :: s' => Seq (CharI c) (litI s')
  end.

(** A class of ASCII units under the [i] flag: a unit belongs to it when
    the class holds the unit itself, its upper-case or its lower-case
    form. *)
Definition classI (p : N -> bool) : N -> bool :=
  fun x => p x || p (canonicalize x) ||
           (if (65 <=? x) && (x <=? 90) then p (x + 32) else false).

(** The matcher state: the unit before the current index, the units
    consumed since the start of the match (latest first), the rest of
    the subject, and the capture. *)
Record MState : Type := mkM {
  prev : option N;
  seen : list N;
  input : list N;
  cap : option jsstring
}.

Definition atLineStart (s : MState) : bool :=
  match prev s with
  | None => true
  | Some c => isLineTerminator c
  end.

Definition wordBefore (s : MState) : bool :=
  match prev s with Some c => isWordChar c | None => false end.

Definition wordAfter (s : MState) : bool :=
  match input s with c :: _ => isWordChar c | [] => false end.

Definition atWordBoundary (s : MState) : bool :=
  xorb (wordBefore s) (wordAfter s).

Definition advance (c : N) (rest : list N) (s : MState) : MState :=
  mkM (Some c) (c :: seen s) rest (cap s).

(** Greedy iteration of a one-unit atom: take the unit when it fits and
    the continuation succeeds further on, else stop here. *)
Fixpoint starFrom (p : N -> bool) (k : MState -> option MState)
    (pv : option N) (sn : list N) (cp : option jsstring)
    (inp : list N) {struct inp} : option MState :=
  match inp with
  | c :: rest =>
      if p c then
        match starFrom p k (Some c) (c :: sn) cp rest with
        | Some r => Some r
        | None => k (mkM pv sn inp cp)
        end
      else k (mkM pv sn inp cp)
  | [] => k (mkM pv sn inp cp)
  end.

(** The matcher in continuation-passing style. *)
Fixpoint mexec (r : Node) (k : MState -> option MState) (s : MState)
    : option MState :=
  match r with
  | Empty => k s
  | Char c =>
      match input s with
      | x :: rest => if x =? c then k (advance x rest s) else None
      | [] => None
      end
  | CharSet p =>
      match input s with
      | x :: rest => if p x then k (advance x rest s) else None
      | [] => None
      end
  | LineStart => if atLineStart s then k s else None
  | WordBoundary => if atWordBoundary s then k s else None
  | Seq a b => mexec a (mexec b k) s
  | Star p => starFrom p k (prev s) (seen s) (cap s) (input s)
  | Capture a =>
      mexec a
        (fun s' => k (mkM (prev s') (seen s' ++ seen s) (input s')
                          (Some (rev (seen s')))))
        (mkM (prev s) [] (input s) (cap s))
  end.

(** The result of a successful search. *)
Record Match : Type := mkMatch {
  before : jsstring;          (* the subject up to [match.index] *)
  matched : jsstring;         (* [match[0]] *)
  after : jsstring;           (* the subject behind the match *)
  group1 : option jsstring    (* [match[1]] *)
}.

Definition shift (c : N) (m : Match) : Match :=
  mkMatch (c :: before m) (matched m) (after m) (group1 m).

Definition matchAt (r : Node) (pv : option N) (inp : list N)
    : option Match :=
  match mexec r Some (mkM pv [] inp None) with
  | Some s => Some (mkMatch [] (rev (seen s)) (input s) (cap s))
  | None => None
  end.

(** RegExpBuiltinExec without the [g] and [y] flags: the leftmost start
    index at which the pattern matches. *)
Fixpoint execFrom (r : Node) (pv : option N) (inp : list N)
    : option Match :=
  match matchAt r pv inp with
  | Some m => Some m
  | None =>
      match inp with
      | [] => None
      | c :: rest =>
          match execFrom r (Some c) rest with
          | Some m => Some (shift c m)
          | None => None
          end
      end
  end.

Definition exec (r : Node) (s : jsstring) : option Match :=
  execFrom r None s.

(** [regex.test(s)] *)
Definition test (r : Node) (s : jsstring) : bool :=
  match exec r s with Some _ => true | None => false end.

(** [s.match(regex)] under the [g] flag: every match from the left,
    each search resuming where the last match ended (one unit further
    on after an empty match).  [skip] counts the units still covered by
    the last match.  The empty list is [null]. *)
Fixpoint matchAllFrom (r : Node) (pv : option N) (skip : nat)
    (inp : list N) {struct inp} : list jsstring :=
  match skip with
  | S n =>
      match inp with
      | c :: rest => matchAllFrom r (Some c) n rest
      | [] => []
      end
  | O =>
      match matchAt r pv inp with
      | Some m =>
          matched m ::
          match inp with
          | c :: rest =>
              matchAllFrom r (Some c) (pred (length (matched m))) rest
          | [] => []
          end
      | None =>
          match inp with
          | c :: rest => matchAllFrom r (Some c) O rest
          | [] => []
          end
      end
  end.

Definition matchAll (r : Node) (s : jsstring) : list jsstring :=
  matchAllFrom r None O s.

End RegExp.
Import RegExp.

(* ===================================================================== *)
(** ** Numbers *)
(* ===================================================================== *)

Module JsNumber.

(** A Number, as far as [parseInt] yields one: [NaN], an integer with
    its sign (so that [-0] is a value of its own), or an infinity. *)
Inductive Number : Type :=
| NaN
| Num (negative : bool) (magnitude : N)
| Infinity (negative : bool).

(** [isNaN] on a Number *)
Definition isNaN (x : Number) : bool :=
  match x with NaN => true | _ => false end.

(** The Number value for a natural number: the nearest double, a tie
    going to the even mantissa; [None] stands for a value beyond the
    largest double, which is an infinity. *)
Definition roundToDouble (n : N) : option N :=
  if N.size n <=? 53 then Some n
  else
    let e := N.size n - 53 in
    let q := N.shiftr n e in
    let r := N.land n (N.ones e) in
    let half := N.shiftl 1 (e - 1) in
    let q' :=
      if (half <? r) || ((r =? half) && N.odd q) then q + 1 else q in
    let v := N.shiftl q' e in
    if 1024 <? N.size v then None else Some v.

(** TrimString at the start: leading white space and line terminators
    go. *)
Fixpoint trimStart (s : jsstring) : jsstring :=
  match s with
  | [] => []
  | c :: rest => if isWhiteSpace c then trimStart rest else s
  end.

(** The longest prefix of decimal digits. *)
Fixpoint digitPrefix (s : jsstring) : jsstring :=
  match s with
  | [] => []
  | c :: rest => if isDigit c then c :: digitPrefix rest else []
  end.

(** The integer that a run of decimal digits denotes. *)
Definition digitsValue (digits : jsstring) : N :=
  fold_left (fun acc c => 10 * acc + (c - 48)) digits 0.

(** [parseInt(string, 10)]: white space, an optional sign, and the
    digits up to the first unit that is not one; no prefix [0x] is read
    under an explicit radix of 10.  (The language lets an implementation
    read digits behind the twentieth as zeros; the nearest double is what
    Node's engine gives.) *)
Definition parseInt10 (string : jsstring) : Number :=
  let trimmed := trimStart string in
  let negative :=
    match trimmed with c :: _ => c =? 45 | [] => false end in
  let unsigned :=
    match trimmed with
    | c :: rest => if (c =? 43) || (c =? 45) then rest else trimmed
    | [] => []
    end in
  match digitPrefix unsigned with
  | [] => NaN
  | digits =>
      match roundToDouble (digitsValue digits) with
      | Some v => Num negative v
      | None => Infinity negative
      end
  end.

End JsNumber.
Import JsNumber.

(* ===================================================================== *)
(** ** helpers/extractAddress.js *)
(* ===================================================================== *)

(** [[0-9a-fA-Fx]] *)
Definition hexOrX (c : N) : bool :=
  isDigit c || ((97 <=? c) && (c <=? 102)) || ((65 <=? c) && (c <=? 70)) ||
  (c =? 120).

(** [[a-fA-F0-9]] *)
Definition hexDigit (c : N) : bool :=
  ((97 <=? c) && (c <=? 102)) || ((65 <=? c) && (c <=? 70)) || isDigit c.

(** [(0x[a-fA-F0-9]{40})] *)
Definition address40 : Node :=
  Capture (Seq (Char 48) (Seq (Char 120) (Repeat 40 hexDigit))).

Definition addressPatterns : list Node :=
  [ Seq (lit (str "Contract Address: ")) (Capture (Plus hexOrX));
    Seq (lit (str "Deployed to: ")) (Capture (Plus hexOrX));
    Seq (litI (str "deployed at: ")) (Capture (Plus (classI hexOrX)));
    Seq (litI (str "DStock deployed at: ")) (Capture (Plus (classI hexOrX)));
    Seq (litI (str "Test_USDC deployed at: "))
        (Capture (Plus (classI hexOrX)));
    Seq (lit (str "== Logs =="))
        (Seq (Star isWhiteSpace)
             (Seq (Char 10) (Seq (Star isWhiteSpace) address40)));
    Seq (lit (str "Start verifying contract `"))
        (Seq address40 (Char 96)) ].

(** The loop over the patterns: the first one with a match whose first
    group is truthy decides; [None] is [null]. *)
Fixpoint firstAddress (patterns : list Node) (output : jsstring)
    : option jsstring :=
  match patterns with
  | [] => None
  | pattern :: more =>
      match exec pattern output with
      | Some m =>
          if truthyOpt (group1 m) then group1 m
          else firstAddress more output
      | None => firstAddress more output
      end
  end.

Definition extractAddressFromForgeOutput (output : jsstring)
    : option jsstring :=
  firstAddress addressPatterns output.

(* ===================================================================== *)
(** ** The Node runtime, as far as the scripts use it *)
(* ===================================================================== *)

Module Node.

(** An [Error]: its message and, for a failed child process, the exit
    code ([error.code]). *)
Record JsError : Type := mkError {
  message : jsstring;
  code : option N
}.

(** [new Error(msg)] *)
Definition newError (msg : jsstring) : JsError := mkError msg None.

(** How a statement ends: with a value, or with a thrown error (for an
    awaited promise: resolved or rejected). *)
Inductive Completion (A : Type) : Type :=
| Return (a : A)
| Throw (e : JsError).
Arguments Return {A} a.
Arguments Throw {A} e.

(** How a child process ends. *)
Inductive ChildStatus : Type :=
| Exited (exitCode : N)
| Killed.                      (* by a signal, e.g. on buffer overflow *)

Record ChildResult : Type := mkChild {
  status : ChildStatus;
  stdout : jsstring;
  stderr : jsstring
}.

(** What the process did to the outside, oldest first. *)
Inductive Event : Type :=
| EvExec (command : jsstring)
| EvWriteFile (path content : jsstring)
| EvRename (oldPath newPath : jsstring).

(** The machine the scripts run on.  [files] maps a path to the text
    [readFileSync(path, "utf8")] yields; a write to a path in
    [readOnly] fails.  [env] is [process.env] once the [.env] file has
    been loaded.  [spawn] is the outside world's answer to a shell
    command: how the child ends, and the files it leaves behind.
    Console output is not part of the model. *)
Record World : Type := mkWorld {
  cwd : jsstring;
  files : gmap jsstring jsstring;
  readOnly : gset jsstring;
  env : gmap jsstring jsstring;
  spawn : jsstring -> gmap jsstring jsstring -> gmap jsstring jsstring ->
          ChildResult * gmap jsstring jsstring;
  history : list Event
}.

Definition setFiles (f : gmap jsstring jsstring) (w : World) : World :=
  mkWorld (cwd w) f (readOnly w) (env w) (spawn w) (history w).

Definition setEnv (e : gmap jsstring jsstring) (w : World) : World :=
  mkWorld (cwd w) (files w) (readOnly w) e (spawn w) (history w).

Definition record (ev : Event) (w : World) : World :=
  mkWorld (cwd w) (files w) (readOnly w) (env w) (spawn w)
          (history w ++ [ev]).

(** Statements: they read and change the world and end in a
    completion. *)
Definition Js (A : Type) : Type := World -> Completion A * World.

Definition ret {A} (a : A) : Js A := fun w => (Return a, w).

Definition throw {A} (e : JsError) : Js A := fun w => (Throw e, w).

Definition bind {A B} (m : Js A) (f : A -> Js B) : Js B :=
  fun w =>
    match m w with
    | (Return a, w') => f a w'
    | (Throw e, w') => (Throw e, w')
    end.

(** [try { m } catch (error) { h error }] *)
Definition tryCatch {A} (m : Js A) (h : JsError -> Js A) : Js A :=
  fun w =>
    match m w with
    | (Return a, w') => (Return a, w')
    | (Throw e, w') => h e w'
    end.

(** [fs.existsSync] *)
Definition existsSync (path : jsstring) (w : World) : bool :=
  bool_decide (is_Some (files w !! path)).

(** [fs.readFileSync(path, "utf8")] *)
Definition readFileSync (path : jsstring) : Js jsstring :=
  fun w =>
    match files w !! path with
    | Some text => (Return text, w)
    | None =>
        (Throw (newError (str "ENOENT: no such file or directory")), w)
    end.

(** [fs.writeFileSync(path, data)] *)
Definition writeFileSync (path data : jsstring) : Js unit :=
  fun w =>
    if bool_decide (path ∈ readOnly w)
    then (Throw (newError (str "EACCES: permission denied")), w)
    else (Return tt,
          record (EvWriteFile path data)
                 (setFiles (<[path := data]> (files w)) w)).

(** [fs.renameSync(oldPath, newPath)]: the new path gets the old path's
    content in one step, the old path disappears. *)
Definition renameSync (oldPath newPath : jsstring) : Js unit :=
  fun w =>
    match files w !! oldPath with
    | None =>
        (Throw (newError (str "ENOENT: no such file or directory")), w)
    | Some data =>
        if bool_decide (newPath ∈ readOnly w)
        then (Throw (newError (str "EACCES: permission denied")), w)
        else (Return tt,
              record (EvRename oldPath newPath)
                     (setFiles (<[newPath := data]>
                                  (delete oldPath (files w))) w))
    end.

(** [path.resolve("./.env")] *)
Definition resolveDotEnv (w : World) : jsstring :=
  if endsWith (cwd w) [47] then cwd w ++ str ".env"
  else cwd w ++ str "/.env".

(** [process.env[key] = value] *)
Definition setProcessEnv (key value : jsstring) : Js unit :=
  fun w => (Return tt, setEnv (<[key := value]> (env w)) w).

(** The arguments [(error, stdout, stderr)] that [child_process.exec]
    hands to its callback: [error] is [null] exactly on exit code 0;
    otherwise it carries the exit code and the message
    [Command failed: <command>\n<stderr>]. *)
Definition execCallbackArgs (command : jsstring) (r : ChildResult)
    : option JsError * jsstring * jsstring :=
  let failed c :=
    Some (mkError (str "Command failed: " ++ command ++ [10] ++ stderr r) c)
  in
  match status r with
  | Exited 0 => (None, stdout r, stderr r)
  | Exited c => (failed (Some c), stdout r, stderr r)
  | Killed => (failed None, stdout r, stderr r)
  end.

(** Run a shell command to its end. *)
Definition runChild (command : jsstring) (w : World)
    : ChildResult * World :=
  let '(r, f) := spawn w command (env w) (files w) in
  (r, record (EvExec command) (setFiles f w)).

End Node.
Import Node.

Declare Scope js_scope.
Delimit Scope js_scope with js.
Notation "'let*' x := m 'in' k" := (bind m (fun x => k))
  (at level 10, x name, m at level 100, k at level 200) : js_scope.
Notation "m >>> k" := (bind m (fun _ => k))
  (at level 90, right associativity) : js_scope.
Local Open Scope js_scope.

(* ===================================================================== *)
(** ** helpers/executeCommand.js *)
(* ===================================================================== *)

(** The promise of [executeCommand], awaited: the callback rejects with
    [error] when it is set and resolves with [stdout] otherwise; a
    non-empty [stderr] is only printed. *)
Definition executeCommand (command : jsstring) : Js jsstring :=
  fun w =>
    let '(r, w') := runChild command w in
    match execCallbackArgs command r with
    | (Some error, _, _) => (Throw error, w')
    | (None, out, _) => (Return out, w')
    end.

(* ===================================================================== *)
(** ** helpers/updateEnvFile.js *)
(* ===================================================================== *)

Record UpdateOptions : Type := mkUpdateOptions {
  optEnvPath : option jsstring;
  optCreateIfMissing : option bool
}.

(** [options = {}] *)
Definition noOptions : UpdateOptions := mkUpdateOptions None None.

(** The key, by its documentation an environment variable name, is
    spliced into the pattern source.  Such names are words over
    [[A-Za-z0-9_]]; for those the spliced source denotes the key itself,
    unit by unit, which is how the embedding reads it. *)
Definition exportRegex (key : jsstring) : Node :=
  Seq LineStart
    (Seq (lit (str "export"))
       (Seq (Plus isWhiteSpace)
          (Seq (lit key) (Seq (Char 61) (Star isDot))))).

Definition regularRegex (key : jsstring) : Node :=
  Seq LineStart (Seq (lit key) (Seq (Char 61) (Star isDot))).

Definition newLine (key value : jsstring) : jsstring :=
  str "export " ++ key ++ [61] ++ value.

(** GetSubstitution for a pattern without groups: [$$] is a dollar sign,
    [$&] the match, [$`] the text before it, [$'] the text behind it;
    every other dollar sign stands for itself. *)
Fixpoint getSubstitution (m : Match) (replacement : jsstring) : jsstring :=
  match replacement with
  | [] => []
  | c :: rest =>
      if c =? 36 then
        match rest with
        | d :: rest' =>
            if d =? 36 then 36 :: getSubstitution m rest'
            else if d =? 38 then matched m ++ getSubstitution m rest'
            else if d =? 96 then before m ++ getSubstitution m rest'
            else if d =? 39 then after m ++ getSubstitution m rest'
            else 36 :: getSubstitution m rest
        | [] => [36]
        end
      else c :: getSubstitution m rest
  end.

(** [s.replace(regex, replacement)] for a pattern without the [g] flag. *)
Definition replace (r : Node) (replacement s : jsstring) : jsstring :=
  match exec r s with
  | Some m => before m ++ getSubstitution m replacement ++ after m
  | None => s
  end.

(** Lines 39-55: the new text of the file. *)
Definition updatedContent (key value envContent : jsstring) : jsstring :=
  if test (exportRegex key) envContent then
    replace (exportRegex key) (newLine key value) envContent
  else if test (regularRegex key) envContent then
    replace (regularRegex key) (newLine key value) envContent
  else
    (if endsWith envContent [10] then envContent else envContent ++ [10])
    ++ newLine key value ++ [10].

Definition tempPath (envPath : jsstring) : jsstring := envPath ++ str ".tmp".

(** Lines 26-36: the text to start from. *)
Definition readEnvContent (envPath : jsstring) (createIfMissing : bool)
    : Js jsstring :=
  fun w =>
    if existsSync envPath w then readFileSync envPath w
    else if createIfMissing then
      ret (str "# Environment Variables" ++ [10]) w
    else
      throw (newError (str "Environment file not found: " ++ envPath)) w.

(** Lines 57-60: the two file operations of the write, in order. *)
Definition writeSteps (envPath envContent : jsstring) : list (Js unit) :=
  [ writeFileSync (tempPath envPath) envContent;
    renameSync (tempPath envPath) envPath ].

Fixpoint runSteps (steps : list (Js unit)) : Js unit :=
  match steps with
  | [] => ret tt
  | step :: more => step >>> runSteps more
  end.

(** [envPath = path.resolve("./.env")] and [createIfMissing = true]
    unless the options say otherwise. *)
Definition envPathOf (options : UpdateOptions) (w : World) : jsstring :=
  default (resolveDotEnv w) (optEnvPath options).

Definition createOf (options : UpdateOptions) : bool :=
  default true (optCreateIfMissing options).

Definition updateEnvFile (key value : jsstring) (options : UpdateOptions)
    : World -> bool * World :=
  fun w =>
    let envPath := envPathOf options w in
    let body : Js bool :=
      let* envContent := readEnvContent envPath (createOf options) in
      runSteps (writeSteps envPath (updatedContent key value envContent)) >>>
      setProcessEnv key value >>>
      ret true
    in
    match body w with
    | (Return b, w') => (b, w')
    | (Throw _, w') => (false, w')
    end.

(** [process.env[key] || defaultValue] *)
Definition getEnvVar (key : jsstring) (defaultValue : option jsstring)
    (w : World) : option jsstring :=
  match env w !! key with
  | Some v => if truthy v then Some v else defaultValue
  | None => defaultValue
  end.

(** A helper that reports by its result and never throws, as a
    statement. *)
Definition call {A} (f : World -> A * World) : Js A :=
  fun w => let '(a, w') := f w in (Return a, w').

(** [items.join(separator)] on an array of strings *)
Fixpoint join (separator : jsstring) (items : list jsstring) : jsstring :=
  match items with
  | [] => []
  | item :: more =>
      match more with
      | [] => item
      | _ :: _ => item ++ separator ++ join separator more
      end
  end.

(** [requiredVars.filter(key => !process.env[key])] *)
Definition missingEnvVars (requiredVars : list jsstring) (w : World)
    : list jsstring :=
  List.filter (fun key => negb (truthyOpt (env w !! key))) requiredVars.





(** [defaultValue = 0] *)
Definition getNumericEnvVar (key : jsstring) (defaultValue : option Number)
    (w : World) : Number :=
  let value := getEnvVar key None w in
  match value with
  | Some v =>
      if negb (truthy v) then default (Num false 0) defaultValue
      else
        let parsed := parseInt10 v in
        if isNaN parsed then default (Num false 0) defaultValue else parsed
  | None => default (Num false 0) defaultValue
  end.

(* ===================================================================== *)
(** ** modules/functions.js *)
(* ===================================================================== *)

Module ChainlinkFunctions.

Definition uploadSecretsCommand : jsstring :=
  str "node deploy/function/uploadSecrets.js".

Definition secretsVersionKey : jsstring := str "FUNCTIONS_SECRETS_VERSION".

(** [/\b\d+\b/g] *)
Definition numberRegex : Node :=
  Seq WordBoundary (Seq (Plus isDigit) WordBoundary).

(** [numbers && numbers.length > 0 ? numbers[numbers.length - 1] : "1"] *)
Definition versionOf (output : jsstring) : jsstring :=
  match last (matchAll numberRegex output) with
  | Some v => v
  | None => str "1"
  end.

Definition setupFunctions : Js jsstring :=
  tryCatch
    (let* output := executeCommand uploadSecretsCommand in
     let version := versionOf output in
     let* ok := call (updateEnvFile secretsVersionKey version noOptions) in
     if negb ok then
       throw (newError
         (str "Failed to update FUNCTIONS_SECRETS_VERSION in .env file"))
     else ret version)
    (fun error =>
       let* ok := call (updateEnvFile secretsVersionKey (str "1")
                          noOptions) in
       if negb ok then
         throw (newError
           (str "Failed to set default FUNCTIONS_SECRETS_VERSION"))
       else ret (str "1")).

Record ConsumerConfig : Type := mkConsumerConfig {
  routerAddress : option jsstring;
  subscriptionId : option jsstring;
  privateKey : option jsstring;
  rpcUrl : option jsstring
}.

Definition addConsumerCommand (contractAddress : jsstring)
    (config : ConsumerConfig) : jsstring :=
  str "cast send " ++ interp (routerAddress config) ++
  [32; 34] ++ str "addConsumer(uint64,address)" ++ [34; 32] ++
  interp (subscriptionId config) ++ [32] ++ contractAddress ++
  str " --private-key " ++ interp (privateKey config) ++
  str " --rpc-url " ++ interp (rpcUrl config).

(** ["status":"1"], with its quotation marks *)
Definition statusJson : jsstring :=
  [34] ++ str "status" ++ [34] ++ str ":" ++ [34] ++ str "1" ++ [34].

Definition statusText : jsstring := str "status               1 (success)".

Definition addFunctionsConsumer (contractAddress : jsstring)
    (config : ConsumerConfig) : Js unit :=
  if negb (truthy contractAddress)
     || negb (truthyOpt (routerAddress config))
     || negb (truthyOpt (subscriptionId config))
     || negb (truthyOpt (privateKey config))
     || negb (truthyOpt (rpcUrl config))
  then
    throw (newError
      (str "Missing required parameters for adding Functions consumer"))
  else
    tryCatch
      (let* deployOutput :=
         executeCommand (addConsumerCommand contractAddress config) in
       if negb (includes deployOutput statusJson)
          && negb (includes deployOutput statusText)
       then
         throw (newError
           (str "Transaction failed - check gas settings and network status"))
       else ret tt)
      (fun error =>
         throw (newError
           (str "Failed to add Functions consumer: " ++ message error))).

Definition verifyCommand (contractAddress : jsstring)
    (config : ConsumerConfig) : jsstring :=
  str "cast call " ++ interp (routerAddress config) ++
  [32; 34] ++ str "isAuthorizedSender(uint64,address)" ++ [34; 32] ++
  interp (subscriptionId config) ++ [32] ++ contractAddress ++
  str " --rpc-url " ++ interp (rpcUrl config).

(** The 32-byte word of value 1, as [cast call] prints it. *)
Definition authorizedWord : jsstring :=
  str "0x0000000000000000000000000000000000000000000000000000000000000001".

Definition verifyConsumer (contractAddress : jsstring)
    (config : ConsumerConfig) : Js bool :=
  tryCatch
    (let* result := executeCommand (verifyCommand contractAddress config) in
     ret (includes result authorizedWord))
    (fun error => ret false).

End ChainlinkFunctions.

(* ===================================================================== *)
(** ** modules/automation.js *)
(* ===================================================================== *)

Module ChainlinkAutomation.

Definition registerCommand : jsstring :=
  str "node deploy/automation/registerAutomation.js".

(** The output only selects the message that is printed. *)
Definition registerAutomation (contractAddress : jsstring) : Js unit :=
  tryCatch
    (let* output := executeCommand registerCommand in
     ret tt)
    (fun error =>
       throw (newError
         (str "Failed to register automation: " ++ message error))).

Definition forwarderKey : jsstring := str "AUTOMATION_FORWARDER_ADDRESS".

Definition setForwarderCommand (forwarderAddress : jsstring)
    (upkeepId : option jsstring) : jsstring :=
  str "node deploy/automation/setForwarderAddress.js " ++ forwarderAddress
  ++ [32] ++ interp upkeepId.

(** The result of [updateEnvFile] is dropped. *)
Definition setForwarderAddress (forwarderAddress : jsstring)
    (upkeepId : option jsstring) : Js unit :=
  if negb (truthyOpt upkeepId) then
    throw (newError (str "Missing upkeep ID"))
  else
    tryCatch
      (executeCommand (setForwarderCommand forwarderAddress upkeepId) >>>
       call (updateEnvFile forwarderKey forwarderAddress noOptions) >>>
       ret tt)
      (fun error =>
         throw (newError
           (str "Failed to set forwarder address: " ++ message error))).

End ChainlinkAutomation.

(* ===================================================================== *)
(** ** deploy.js *)
(* ===================================================================== *)

Module Deploy.

(** [CONFIG.envVarName] *)
Definition envVarName : jsstring := str "CONTRACT_ADDRESS".

(** The constants read from the environment when the module loads. *)
Record Globals : Type := mkGlobals {
  PRIVATE_KEY : option jsstring;
  RPC_URL : option jsstring;
  ETHERSCAN_API_KEY : option jsstring;
  FUNCTIONS_ROUTER_ADDRESS : option jsstring;
  FUNCTIONS_SUBSCRIPTION_ID : option jsstring
}.

Definition loadGlobals (w : World) : Globals :=
  mkGlobals (getEnvVar (str "PRIVATE_KEY") None w)
            (getEnvVar (str "RPC_URL") None w)
            (getEnvVar (str "ETHERSCAN_API_KEY") None w)
            (getEnvVar (str "FUNCTIONS_ROUTER_ADDRESS") None w)
            (getEnvVar (str "FUNCTIONS_SUBSCRIPTION_ID") None w).

Record DeployOptions : Type := mkDeployOptions {
  functions : bool;
  automation : bool
}.

Definition forgeCommand (g : Globals) (scriptPath : jsstring) : jsstring :=
  str "forge script " ++ scriptPath ++
  str " --private-key " ++ interp (PRIVATE_KEY g) ++
  str " --rpc-url " ++ interp (RPC_URL g) ++
  str " --etherscan-api-key " ++ interp (ETHERSCAN_API_KEY g) ++
  str " --broadcast --verify -vvv".

Definition deployContract (g : Globals) (scriptPath envVar : jsstring)
    : Js jsstring :=
  if negb (truthyOpt (PRIVATE_KEY g)) || negb (truthyOpt (RPC_URL g))
     || negb (truthyOpt (ETHERSCAN_API_KEY g))
  then
    throw (newError
      (str "Missing required environment variables for deployment"))
  else
    tryCatch
      (let* deployOutput := executeCommand (forgeCommand g scriptPath) in
       match extractAddressFromForgeOutput deployOutput with
       | Some contractAddress =>
           if negb (truthy contractAddress) then
             throw (newError (str
               "Failed to extract contract address from deployment output"))
           else
             let* ok := call (updateEnvFile envVar contractAddress
                                noOptions) in
             if negb ok then
               throw (newError
                 (str "Failed to update " ++ envVar ++ str " in .env file"))
             else ret contractAddress
       | None =>
           throw (newError (str
             "Failed to extract contract address from deployment output"))
       end)
      (fun error =>
         throw (newError
           (str "Contract deployment failed: " ++ message error))).

Section WithValidation.

(** [validateConfig] of [config/validation.js]: a check of the options
    against the environment that passes or throws. *)
Variable validateConfig : DeployOptions -> World -> option JsError.

Definition validate (options : DeployOptions) : Js unit :=
  fun w =>
    match validateConfig options w with
    | Some e => (Throw e, w)
    | None => (Return tt, w)
    end.

(** Step 1: deploy the contract. *)
Definition deployStep (g : Globals) (options : DeployOptions)
    : Js jsstring :=
  validate options >>>
  (fun w =>
     match getEnvVar (str "SCRIPT_PATH") None w with
     | Some scriptPath =>
         (let* deployedAddress := deployContract g scriptPath envVarName in
          if negb (truthy deployedAddress) then
            throw (newError (0x274C :: str
              " Deployment failed: No contract address returned"))
          else ret deployedAddress) w
     | None =>
         throw (newError (str
           "SCRIPT_PATH not set in .env file. Please specify your contract's deploy script path."))
           w
     end).

(** Step 2: set up Chainlink Functions if enabled. *)
Definition functionsStep (g : Globals) (options : DeployOptions)
    (deployedAddress : jsstring) : Js unit :=
  if functions options then
    ChainlinkFunctions.setupFunctions >>>
    ChainlinkFunctions.addFunctionsConsumer deployedAddress
      (ChainlinkFunctions.mkConsumerConfig
         (FUNCTIONS_ROUTER_ADDRESS g) (FUNCTIONS_SUBSCRIPTION_ID g)
         (PRIVATE_KEY g) (RPC_URL g))
  else ret tt.

(** Step 3: set up Chainlink Automation if enabled. *)
Definition automationStep (options : DeployOptions)
    (deployedAddress : jsstring) : Js unit :=
  if automation options then
    ChainlinkAutomation.registerAutomation deployedAddress
  else ret tt.

(** The [try] block of [deploy], up to [process.exit(0)]. *)
Definition pipeline (g : Globals) (options : DeployOptions) : Js unit :=
  let* deployedAddress := deployStep g options in
  functionsStep g options deployedAddress >>>
  automationStep options deployedAddress.

(** [deploy(options)]: the exit code of the process. *)
Definition deploy (g : Globals) (options : DeployOptions)
    : World -> N * World :=
  fun w =>
    match pipeline g options w with
    | (Return _, w') => (0, w')
    | (Throw _, w') => (1, w')
    end.

(** The command line: [--functions]/[-f] and [--automation]/[-a]. *)
Definition parseArgs (args : list jsstring) : DeployOptions :=
  mkDeployOptions
    (existsb (eqb (str "--functions")) args
     || existsb (eqb (str "-f")) args)
    (existsb (eqb (str "--automation")) args
     || existsb (eqb (str "-a")) args).

(** The script as a whole, from the loaded environment on. *)
Definition main (args : list jsstring) (w : World) : N * World :=
  deploy (loadGlobals w) (parseArgs args) w.

End WithValidation.

End Deploy.

(* ===================================================================== *)
(** ** config/validation.js *)
(* ===================================================================== *)

Module Validation.

(** [requiredEnvVars.common], [.automation] and [.functions] *)
Definition requiredCommon : list jsstring :=
  [ str "SCRIPT_PATH"; str "PRIVATE_KEY"; str "RPC_URL"; str "CHAIN_ID";
    str "ETHERSCAN_API_KEY"; str "ADMIN_ADDRESS" ].

Definition requiredAutomation : list jsstring :=
  [ str "AUTOMATION_REGISTRAR_ADDRESS"; str "LINK_TOKEN_ADDRESS";
    str "AUTOMATION_GAS_LIMIT"; str "AUTOMATION_LINK_AMOUNT";
    str "AUTOMATION_TRIGGER_TYPE" ].

Definition requiredFunctions : list jsstring :=
  [ str "FUNCTIONS_ROUTER_ADDRESS"; str "FUNCTIONS_SUBSCRIPTION_ID" ].

(** The three loops that fill [missingVars], in their order. *)
Definition missingVars (options : Deploy.DeployOptions) (w : World)
    : list jsstring :=
  missingEnvVars requiredCommon w
  ++ (if Deploy.automation options then missingEnvVars requiredAutomation w
      else [])
  ++ (if Deploy.functions options then missingEnvVars requiredFunctions w
      else []).

(** [validateConfig(options)]: [None] when it returns [true], else the
    error it throws. *)
Definition validateConfig (options : Deploy.DeployOptions) (w : World)
    : option JsError :=
  let missing := missingVars options w in
  if Nat.ltb 0 (length missing) then
    Some (newError
      (str "Missing required environment variables:" ++ [10]
       ++ join [10] missing ++ [10]
       ++ str "Please check your .env file and ensure all required variables are set."))
  else None.

End Validation.

(* ===================================================================== *)
(** ** Vocabulary of the properties *)
(* ===================================================================== *)

(** The text [updateEnvFile] starts from: the file, or the header of a
    fresh one; [None] when the file is missing and must not be created. *)
Definition startContent (envPath : jsstring) (createIfMissing : bool)
    (w : World) : option jsstring :=
  match files w !! envPath with
  | Some text => Some text
  | None =>
      if createIfMissing then Some (str "# Environment Variables" ++ [10])
      else None
  end.

(** Both paths of the write accept it. *)
Definition writable (envPath : jsstring) (w : World) : bool :=
  negb (bool_decide (tempPath envPath ∈ readOnly w))
  && negb (bool_decide (envPath ∈ readOnly w)).

(** The world [updateEnvFile] leaves when every step succeeds. *)
Definition updatedWorld (key value envPath text : jsstring) (w : World)
    : World :=
  mkWorld (cwd w)
    (<[envPath := text]>
       (delete (tempPath envPath) (<[tempPath envPath := text]> (files w))))
    (readOnly w) (<[key := value]> (env w)) (spawn w)
    (history w ++ [EvWriteFile (tempPath envPath) text;
                   EvRename (tempPath envPath) envPath]).

(** The world after the temporary file was written and nothing else. *)
Definition stagedWorld (envPath text : jsstring) (w : World) : World :=
  record (EvWriteFile (tempPath envPath) text)
         (setFiles (<[tempPath envPath := text]> (files w)) w).

(** *** The environment file, definition by definition *)

(** The longest initial run of units that satisfy [p], and what follows. *)
Fixpoint spanRun (p : N -> bool) (l : list N) : list N * list N :=
  match l with
  | [] => ([], [])
  | c :: rest =>
      if p c then (c :: fst (spanRun p rest), snd (spanRun p rest))
      else ([], l)
  end.

(** A line starts at the start of the text and behind a line terminator;
    [pv] is the unit before the index. *)
Definition lineStart (pv : option N) : bool :=
  match pv with
  | None => true
  | Some c => isLineTerminator c
  end.

(** The text [inp] starts with [key=]: the definition up to the end of
    its line, and what follows the line. *)
Definition regularHere (key inp : jsstring) : option (jsstring * jsstring) :=
  match stripPrefix (key ++ [61]) inp with
  | Some r =>
      Some (key ++ 61 :: fst (spanRun isDot r), snd (spanRun isDot r))
  | None => None
  end.

(** The text [inp] starts with [export], white space (of any kind, line
    ends included) and [key=]. *)
Definition exportHere (key inp : jsstring) : option (jsstring * jsstring) :=
  match stripPrefix (str "export") inp with
  | Some r0 =>
      match spanRun isWhiteSpace r0 with
      | ([], _) => None
      | (ws, r1) =>
          match stripPrefix (key ++ [61]) r1 with
          | Some r =>
              Some (str "export" ++ ws ++ key ++ 61 :: fst (spanRun isDot r),
                    snd (spanRun isDot r))
          | None => None
          end
      end
  | None => None
  end.

(** What follows the first [=] of a definition. *)
Fixpoint afterEquals (line : jsstring) : jsstring :=
  match line with
  | [] => []
  | c :: rest => if c =? 61 then rest else afterEquals rest
  end.

(** A definition of [key] starts at a line start, with [export],
    white space and [key=], or with [key=]; a comment line holds none.
    The result is the value the definition carries. *)
Definition definitionAt (key : jsstring) (pv : option N) (inp : jsstring)
    : option jsstring :=
  if lineStart pv then
    match exportHere key inp with
    | Some (line, _) => Some (afterEquals line)
    | None =>
        match regularHere key inp with
        | Some (line, _) => Some (afterEquals line)
        | None => None
        end
    end
  else None.

(** The definitions of [key] in the text [inp] that follows the unit
    [pv]. *)
Fixpoint definitionsFrom (key : jsstring) (pv : option N) (inp : jsstring)
    : list jsstring :=
  match definitionAt key pv inp with Some v => [v] | None => [] end ++
  match inp with
  | [] => []
  | c :: rest => definitionsFrom key (Some c) rest
  end.

(** The values of the active definitions of [key] in a file, in order. *)
Definition activeDefinitions (key content : jsstring) : list jsstring :=
  definitionsFrom key None content.

(** A key over [[A-Za-z0-9_]]. *)
Definition wordKey (key : jsstring) : Prop :=
  forallb isWordChar key = true.

(** A value on one line and free of [$], the escape of replacement
    texts. *)
Definition plainValue (value : jsstring) : Prop :=
  forallb (fun c => isDot c && negb (c =? 36)) value = true.

(** The address extractor as the specification words it: the first
    pattern of the list that matches decides, by its first group. *)
Definition firstMatchGroup (patterns : list Node) (output : jsstring)
    : option jsstring :=
  match find (fun pattern => test pattern output) patterns with
  | Some pattern =>
      match exec pattern output with
      | Some m => group1 m
      | None => None
      end
  | None => None
  end.

(** The commands of a history, oldest first. *)
Fixpoint commandsOf (h : list Event) : list jsstring :=
  match h with
  | [] => []
  | EvExec command :: more => command :: commandsOf more
  | _ :: more => commandsOf more
  end.

(** The events a run added to the history it started with. *)
Definition newEvents (before after : World) : list Event :=
  drop (length (history before)) (history after).


(* ===================================================================== *)
(** ** Sample runs *)
(* ===================================================================== *)

Module Scenario.

Definition LF : jsstring := [10].

(** An outside world in which [forge] prints an address, the secrets
    upload prints a version, the registration script succeeds, and
    [cast send] succeeds or fails as [castOk] says. *)
Definition answer (castOk : bool) (command : jsstring)
    (e f : gmap jsstring jsstring) : ChildResult * gmap jsstring jsstring :=
  if startsWith command (str "forge script ") then
    (mkChild (Exited 0) (str "Contract Address: 0xabc" ++ LF) [], f)
  else if startsWith command (str "node deploy/function/") then
    (mkChild (Exited 0) (str "42" ++ LF) [], f)
  else if startsWith command (str "cast send ") then
    (if castOk
     then mkChild (Exited 0) (str "status               1 (success)") []
     else mkChild (Exited 1) [] (str "execution reverted"), f)
  else (mkChild (Exited 0) [] [], f).

Definition loadedEnv : gmap jsstring jsstring :=
  list_to_map
    [ (str "PRIVATE_KEY", str "0x01");
      (str "RPC_URL", str "http://localhost:8545");
      (str "ETHERSCAN_API_KEY", str "key");
      (str "FUNCTIONS_ROUTER_ADDRESS", str "0x02");
      (str "FUNCTIONS_SUBSCRIPTION_ID", str "7");
      (str "SCRIPT_PATH", str "script/Deploy.s.sol") ].

Definition machine (castOk : bool) : World :=
  mkWorld (str "/app") ∅ ∅ loadedEnv (answer castOk) [].

Definition envFile : jsstring := str "/app/.env".

(** A machine whose [.env] holds the given text. *)
Definition withEnvFile (text : jsstring) : World :=
  setFiles {[ envFile := text ]} (machine true).

(** A [.env] that defines [FOO] twice. *)
Definition twice : jsstring :=
  str "FOO=1" ++ LF ++ str "FOO=2" ++ LF.

Definition noValidation : Deploy.DeployOptions -> World -> option JsError :=
  fun _ _ => None.

Definition both : Deploy.DeployOptions := Deploy.mkDeployOptions true true.

End Scenario.

(** ** Runs and their commands *)







(** The [catch] block of [setupFunctions]. *)
Definition fallbackVersion (w : World) : Completion jsstring * World :=
  match updateEnvFile ChainlinkFunctions.secretsVersionKey (str "1")
          noOptions w with
  | (true, w') => (Return (str "1"), w')
  | (false, w') =>
      (Throw (newError
         (str "Failed to set default FUNCTIONS_SECRETS_VERSION")), w')
  end.

(** ** The pattern language, declaratively *)

(** [starReaches p s s']: from [s], zero or more units that satisfy [p]
    lead to [s']. *)
Inductive starReaches (p : N -> bool) : MState -> MState -> Prop :=
| star_stop s : starReaches p s s
| star_step s x rest s' :
    input s = x :: rest -> p x = true ->
    starReaches p (advance x rest s) s' ->
    starReaches p s s'.

(** [reaches r s s']: some way of matching [r] leads from [s] to [s']. *)
Fixpoint reaches (r : Node) (s s' : MState) : Prop :=
  match r with
  | Empty => s' = s
  | Char c => exists rest, input s = c :: rest /\ s' = advance c rest s
  | CharSet p =>
      exists x rest, input s = x :: rest /\ p x = true /\ s' = advance x rest s
  | LineStart => atLineStart s = true /\ s' = s
  | WordBoundary => atWordBoundary s = true /\ s' = s
  | Seq a b => exists mid, reaches a s mid /\ reaches b mid s'
  | Star p => starReaches p s s'
  | Capture a =>
      exists inner,
        reaches a (mkM (prev s) [] (input s) (cap s)) inner /\
        s' = mkM (prev inner) (seen inner ++ seen s) (input inner)
                 (Some (rev (seen inner)))
  end.

(** The pattern has a group. *)
Fixpoint hasCapture (r : Node) : bool :=
  match r with
  | Seq a b => hasCapture a || hasCapture b
  | Capture _ => true
  | _ => false
  end.

(** Every match of the pattern takes at least one unit. *)
Fixpoint consuming (r : Node) : bool :=
  match r with
  | Char _ | CharSet _ => true
  | Seq a b => consuming a || consuming b
  | Capture a => consuming a
  | _ => false
  end.

(** Every match of the pattern leaves a non-empty group. *)
Fixpoint fillsGroup (r : Node) : bool :=
  match r with
  | Capture a => consuming a
  | Seq a b => (fillsGroup a && negb (hasCapture b)) || fillsGroup b
  | _ => false
  end.

(** ** Devices of the proofs about the environment file *)

(** The unit before the index reached after [run], started behind [pv]. *)
Fixpoint lastOr (pv : option N) (run : list N) : option N :=
  match run with
  | [] => pv
  | c :: run' => lastOr (Some c) run'
  end.

(** The state after the units [run] were consumed and [rest] is left. *)
Definition fed (run rest : list N) (s : MState) : MState :=
  mkM (lastOr (prev s) run) (rev_append run (seen s)) rest (cap s).

(** [inp] starts with a definition of [key]: with [key=], or with
    [export], white space and [key=]. *)
Definition hasDefPrefix (key inp : jsstring) : Prop :=
  (exists tail, inp = key ++ 61 :: tail) \/
  (exists ws tail,
     ws <> [] /\ Forall (fun c => isWhiteSpace c = true) ws /\
     inp = str "export" ++ ws ++ key ++ 61 :: tail).

(** A text that, put behind white space, neither extends that white space
    nor continues it with [key=]. *)
Definition closedStart (key x : jsstring) : Prop :=
  match x with [] => True | c :: _ => isWhiteSpace c = false end /\
  stripPrefix (key ++ [61]) x = None.

(** The definitions that start inside [p], in the text [p ++ x]. *)
Fixpoint definitionsIn (key : jsstring) (pv : option N) (p x : jsstring)
    : list jsstring :=
  match p with
  | [] => []
  | c :: p' =>
      match definitionAt key pv (p ++ x) with Some v => [v] | None => [] end
      ++ definitionsIn key (Some c) p' x
  end.

(** The line ends here: at the end of the text or before a line
    terminator. *)
Definition lineEnds (suffix : jsstring) : Prop :=
  match suffix with
  | [] => True
  | c :: _ => isLineTerminator c = true
  end.

(** The claim C1 as the specification words it: whatever the file held,
    after a successful update it holds at most one active definition of
    the key. *)
Definition singleDefinitionAlways : Prop :=
  forall key value options w w',
    updateEnvFile key value options w = (true, w') ->
    exists text,
      files w' !! envPathOf options w = Some text /\
      le (length (activeDefinitions key text)) 1.


(** ** Numbers in a text *)







(* ===================================================================== *)
(** ** Vocabulary of the further properties *)
(* ===================================================================== *)


(** [[0-9a-fA-FxX]] *)
Definition addressUnit (c : N) : bool := hexOrX c || (c =? 88).

(** Every unit a match of the pattern takes satisfies [P]. *)
Fixpoint unitsWithin (P : N -> bool) (r : RegExp.Node) : Prop :=
  match r with
  | Char c => P c = true
  | CharSet p | Star p => forall x, p x = true -> P x = true
  | Seq a b => unitsWithin P a /\ unitsWithin P b
  | Capture a => unitsWithin P a
  | _ => True
  end.

(** Every unit of the group of the pattern satisfies [P]. *)
Fixpoint groupWithin (P : N -> bool) (r : RegExp.Node) : Prop :=
  match r with
  | Capture a => unitsWithin P a
  | Seq a b => groupWithin P a /\ groupWithin P b
  | _ => True
  end.

(** The errors of the parameter checks of [deploy.js] and of
    [addFunctionsConsumer]. *)
Definition guardMessages : list jsstring :=
  [ str "Missing required environment variables for deployment";
    str "SCRIPT_PATH not set in .env file. Please specify your contract's deploy script path.";
    0x274C :: str " Deployment failed: No contract address returned";
    str "Missing required parameters for adding Functions consumer" ].

(** The three variables [deployContract] asks for are there. *)
Definition configured (g : Deploy.Globals) : bool :=
  truthyOpt (Deploy.PRIVATE_KEY g) && truthyOpt (Deploy.RPC_URL g)
  && truthyOpt (Deploy.ETHERSCAN_API_KEY g).

(** Further sample machines. *)
Module Cases.

(** A machine whose environment file must not be written. *)
Definition lockedMachine : World :=
  mkWorld (str "/app") ∅ {[ Scenario.envFile ]} ∅ (Scenario.answer true) [].

(** An environment with every variable that [validateConfig] can ask
    for. *)
Definition fullEnv : gmap jsstring jsstring :=
  list_to_map
    [ (str "SCRIPT_PATH", str "script/Deploy.s.sol");
      (str "PRIVATE_KEY", str "0x01");
      (str "RPC_URL", str "http://localhost:8545");
      (str "CHAIN_ID", str "421614");
      (str "ETHERSCAN_API_KEY", str "key");
      (str "ADMIN_ADDRESS", str "0x03");
      (str "AUTOMATION_REGISTRAR_ADDRESS", str "0x04");
      (str "LINK_TOKEN_ADDRESS", str "0x05");
      (str "AUTOMATION_GAS_LIMIT", str "500000");
      (str "AUTOMATION_LINK_AMOUNT", str "200000000000000000");
      (str "AUTOMATION_TRIGGER_TYPE", str "0");
      (str "FUNCTIONS_ROUTER_ADDRESS", str "0x02");
      (str "FUNCTIONS_SUBSCRIPTION_ID", str "7") ].

Definition readyMachine (castOk : bool) : World :=
  mkWorld (str "/app") ∅ ∅ fullEnv (Scenario.answer castOk) [].

End Cases.

(* ===================================================================== *)
(** * Properties *)
(* ===================================================================== *)

(** ** The environment store as a function of the world *)

Lemma tempPath_ne (envPath : jsstring) : tempPath envPath ≠ envPath.
Proof.
  unfold tempPath. intros H.
  apply (f_equal (@length N)) in H. rewrite length_app in H.
  simpl in H. lia.
Qed.

Lemma readEnvContent_run (envPath : jsstring) (create : bool) (w : World) :
  readEnvContent envPath create w =
  (match startContent envPath create w with
   | Some text => Return text
   | None =>
       Throw (newError (str "Environment file not found: " ++ envPath))
   end, w).
Proof.
  unfold readEnvContent, startContent, existsSync, readFileSync.
  destruct (files w !! envPath) as [text|] eqn:E.
  - rewrite bool_decide_eq_true_2 by eauto. reflexivity.
  - rewrite bool_decide_eq_false_2 by (intros [? ?]; discriminate).
    destruct create; reflexivity.
Qed.

Lemma updateEnvFile_run (key value : jsstring) (options : UpdateOptions)
    (w : World) :
  updateEnvFile key value options w =
  let envPath := envPathOf options w in
  match startContent envPath (createOf options) w with
  | None => (false, w)
  | Some text0 =>
      let text := updatedContent key value text0 in
      if bool_decide (tempPath envPath ∈ readOnly w) then (false, w)
      else if bool_decide (envPath ∈ readOnly w)
           then (false, stagedWorld envPath text w)
           else (true, updatedWorld key value envPath text w)
  end.
Proof.
  unfold updateEnvFile, bind. rewrite readEnvContent_run. cbv zeta.
  destruct (startContent _ _ w) as [text0|]; [|reflexivity].
  cbn [writeSteps runSteps]. unfold bind, writeFileSync.
  destruct (bool_decide (tempPath _ ∈ readOnly w)); [reflexivity|].
  unfold renameSync. cbn [files record setFiles readOnly].
  rewrite lookup_insert_eq.
  destruct (bool_decide (envPathOf options w ∈ readOnly w)); [reflexivity|].
  unfold ret, setProcessEnv, updatedWorld, record, setFiles, setEnv. cbn.
  rewrite <- app_assoc. reflexivity.
Qed.

Lemma updateEnvFile_ok (key value : jsstring) (options : UpdateOptions)
    (w w' : World) :
  updateEnvFile key value options w = (true, w') ->
  exists text0,
    startContent (envPathOf options w) (createOf options) w = Some text0 /\
    writable (envPathOf options w) w = true /\
    w' = updatedWorld key value (envPathOf options w)
           (updatedContent key value text0) w.
Proof.
  rewrite updateEnvFile_run. cbv zeta. unfold writable.
  destruct (startContent _ _ w) as [text0|]; [|discriminate].
  destruct (bool_decide (tempPath _ ∈ readOnly w)); [discriminate|].
  destruct (bool_decide (envPathOf options w ∈ readOnly w)); [discriminate|].
  intros [= <-]. exists text0. auto.
Qed.

Lemma updatedWorld_envFile (key value envPath text : jsstring) (w : World) :
  files (updatedWorld key value envPath text w) !! envPath = Some text.
Proof. unfold updatedWorld. cbn. apply lookup_insert_eq. Qed.

(** ** The write is all-or-nothing *)



(** ** Reading the environment *)







(** ** The command runner *)


(** ** The pipeline *)

Section Pipeline.

Import Deploy ChainlinkFunctions ChainlinkAutomation.

Lemma commandsOf_app (h1 h2 : list Event) :
  commandsOf (h1 ++ h2) = commandsOf h1 ++ commandsOf h2.
Proof.
  induction h1 as [|ev h1 IH]; [reflexivity|].
  destruct ev; cbn; rewrite IH; reflexivity.
Qed.

Lemma newEvents_app (w w' : World) (evs : list Event) :
  history w' = history w ++ evs -> newEvents w w' = evs.
Proof. unfold newEvents. intros ->. apply drop_app_length. Qed.








Lemma updateEnvFile_events (key value : jsstring) (options : UpdateOptions)
    (w : World) :
  exists evs,
    history (snd (updateEnvFile key value options w)) = history w ++ evs /\
    commandsOf evs = [].
Proof.
  rewrite updateEnvFile_run. cbv zeta.
  destruct (startContent _ _ w) as [text0|];
    [|exists []; rewrite app_nil_r; auto].
  destruct (bool_decide (tempPath _ ∈ readOnly w));
    [exists []; rewrite app_nil_r; auto|].
  destruct (bool_decide (envPathOf options w ∈ readOnly w));
    eexists; (split; [reflexivity|reflexivity]).
Qed.



Lemma setupFunctions_run (w : World) :
  setupFunctions w =
  match executeCommand uploadSecretsCommand w with
  | (Return output, w1) =>
      match updateEnvFile secretsVersionKey (versionOf output) noOptions w1
      with
      | (true, w2) => (Return (versionOf output), w2)
      | (false, w2) => fallbackVersion w2
      end
  | (Throw _, w1) => fallbackVersion w1
  end.
Proof.
  unfold setupFunctions, tryCatch, bind, call, fallbackVersion.
  destruct (executeCommand uploadSecretsCommand w) as [[out|e] w1].
  - destruct (updateEnvFile secretsVersionKey (versionOf out) noOptions w1)
      as [[|] w2]; cbn [negb]; [reflexivity|].
    unfold throw.
    destruct (updateEnvFile secretsVersionKey (str "1") noOptions w2)
      as [[|] w3]; reflexivity.
  - destruct (updateEnvFile secretsVersionKey (str "1") noOptions w1)
      as [[|] w3]; reflexivity.
Qed.






Lemma validate_run (validateConfig : DeployOptions -> World -> option JsError)
    (options : DeployOptions) (w : World) :
  snd (validate validateConfig options w) = w.
Proof. unfold validate. destruct (validateConfig options w); reflexivity. Qed.





(** What a successful first step did, event by event. *)
Lemma deployStep_ok validateConfig (g : Globals) (options : DeployOptions)
    (w w1 : World) (a : jsstring) :
  deployStep validateConfig g options w = (Return a, w1) ->
  exists scriptPath output w0 text0,
    getEnvVar (str "SCRIPT_PATH") None w = Some scriptPath /\
    executeCommand (forgeCommand g scriptPath) w = (Return output, w0) /\
    extractAddressFromForgeOutput output = Some a /\
    startContent (resolveDotEnv w0) true w0 = Some text0 /\
    w1 = updatedWorld envVarName a (resolveDotEnv w0)
           (updatedContent envVarName a text0) w0.
Proof.
  unfold deployStep, bind.
  pose proof (validate_run validateConfig options w) as Hw.
  destruct (validate validateConfig options w) as [[[]|e] w'];
    [|discriminate].
  cbn in Hw. subst w'.
  destruct (getEnvVar (str "SCRIPT_PATH") None w) as [sp|]; [|discriminate].
  unfold deployContract.
  destruct (_ || _); [discriminate|].
  unfold tryCatch, bind.
  destruct (executeCommand (forgeCommand g sp) w) as [[out|e] w0] eqn:Hx;
    [|discriminate].
  destruct (extractAddressFromForgeOutput out) as [a'|] eqn:He;
    [|discriminate].
  destruct (negb (truthy a')); [discriminate|].
  unfold call.
  destruct (updateEnvFile envVarName a' noOptions w0) as [[|] w2] eqn:Hu;
    cbn [negb]; [|discriminate].
  unfold ret. destruct (negb (truthy a')); [discriminate|].
  intros [= <- <-].
  apply updateEnvFile_ok in Hu as (text0 & Hs & _ & ->).
  exists sp, out, w0, text0. repeat split; assumption || reflexivity.
Qed.

Lemma executeCommand_keeps (command : jsstring) (w : World) :
  cwd (snd (executeCommand command w)) = cwd w /\
  env (snd (executeCommand command w)) = env w.
Proof.
  unfold executeCommand, runChild.
  destruct (spawn w command (env w) (files w)) as [r f].
  destruct (execCallbackArgs command r) as [[[error|] out] err]; auto.
Qed.







End Pipeline.

(** ** The matcher against the declarative reading *)

Section Matcher.

Lemma starFrom_reaches (p : N -> bool) (k : MState -> option MState)
    (inp : list N) :
  forall pv sn cp res,
    starFrom p k pv sn cp inp = Some res ->
    exists s', starReaches p (mkM pv sn inp cp) s' /\ k s' = Some res.
Proof.
  induction inp as [|c rest IH]; intros pv sn cp res H; cbn in H.
  - eexists. split; [apply star_stop | exact H].
  - destruct (p c) eqn:Hp.
    + destruct (starFrom p k (Some c) (c :: sn) cp rest) as [r|] eqn:Hs.
      * injection H as ->. apply IH in Hs as (s' & Hr & Hk).
        exists s'. split; [|exact Hk].
        eapply star_step; [reflexivity | exact Hp | exact Hr].
      * eexists. split; [apply star_stop | exact H].
    + eexists. split; [apply star_stop | exact H].
Qed.

(** Soundness of the backtracking matcher. *)
Lemma mexec_reaches (r : Node) :
  forall k s res,
    mexec r k s = Some res ->
    exists s', reaches r s s' /\ k s' = Some res.
Proof.
  induction r as [|c|p| | |a IHa b IHb|p|a IHa]; intros k s res H; cbn in H.
  - exists s. split; [reflexivity | exact H].
  - destruct (input s) as [|x rest] eqn:Hi; [discriminate|].
    destruct (N.eqb_spec x c) as [->|]; [|discriminate].
    eexists. split; [|exact H]. cbn. eauto.
  - destruct (input s) as [|x rest] eqn:Hi; [discriminate|].
    destruct (p x) eqn:Hp; [|discriminate].
    eexists. split; [|exact H]. cbn. eauto.
  - destruct (atLineStart s) eqn:Hl; [|discriminate].
    exists s. cbn. auto.
  - destruct (atWordBoundary s) eqn:Hl; [|discriminate].
    exists s. cbn. auto.
  - apply IHa in H as (mid & Ha & H). apply IHb in H as (s' & Hb & H).
    exists s'. cbn. eauto.
  - apply starFrom_reaches in H as (s' & Hr & Hk).
    exists s'. destruct s. cbn in *. auto.
  - apply IHa in H as (inner & Ha & H).
    eexists. split; [|exact H]. cbn. eauto.
Qed.

Lemma starReaches_seen (p : N -> bool) (s s' : MState) :
  starReaches p s s' ->
  cap s' = cap s /\ (length (seen s) <= length (seen s'))%nat.
Proof.
  induction 1 as [s|s x rest s' Hi Hp _ [IHc IHl]]; [auto|].
  cbn in IHc, IHl. split; [assumption | lia].
Qed.

Lemma reaches_seen (r : Node) :
  forall s s', reaches r s s' ->
    (length (seen s) + (if consuming r then 1 else 0)
     <= length (seen s'))%nat.
Proof.
  induction r as [|c|p| | |a IHa b IHb|p|a IHa]; intros s s' H; cbn in H |- *.
  - subst. lia.
  - destruct H as (rest & _ & ->). cbn. lia.
  - destruct H as (x & rest & _ & _ & ->). cbn. lia.
  - destruct H as [_ ->]. lia.
  - destruct H as [_ ->]. lia.
  - destruct H as (mid & Ha & Hb). apply IHa in Ha. apply IHb in Hb.
    destruct (consuming a), (consuming b); cbn; lia.
  - apply starReaches_seen in H. lia.
  - destruct H as (inner & Ha & ->). apply IHa in Ha. cbn in *.
    rewrite length_app. lia.
Qed.

Lemma reaches_keeps_cap (r : Node) :
  hasCapture r = false ->
  forall s s', reaches r s s' -> cap s' = cap s.
Proof.
  induction r as [|c|p| | |a IHa b IHb|p|a IHa]; intros Hc s s' H;
    cbn in H, Hc.
  - subst. reflexivity.
  - destruct H as (rest & _ & ->). reflexivity.
  - destruct H as (x & rest & _ & _ & ->). reflexivity.
  - destruct H as [_ ->]. reflexivity.
  - destruct H as [_ ->]. reflexivity.
  - apply orb_false_elim in Hc as [Hca Hcb].
    destruct H as (mid & Ha & Hb).
    rewrite (IHb Hcb _ _ Hb). apply (IHa Hca _ _ Ha).
  - apply starReaches_seen in H. tauto.
  - discriminate.
Qed.

Lemma reaches_fills_group (r : Node) :
  fillsGroup r = true ->
  forall s s', reaches r s s' -> exists g, cap s' = Some g /\ g <> [].
Proof.
  induction r as [|c|p| | |a IHa b IHb|p|a IHa]; intros Hf s s' H;
    cbn in H, Hf; try discriminate.
  - destruct H as (mid & Ha & Hb).
    apply orb_true_iff in Hf as [Hf|Hf].
    + apply andb_true_iff in Hf as [Hfa Hnb].
      apply negb_true_iff in Hnb.
      rewrite (reaches_keeps_cap b Hnb _ _ Hb). eauto.
    + eauto.
  - destruct H as (inner & Ha & ->). cbn.
    apply reaches_seen in Ha. rewrite Hf in Ha. cbn in Ha.
    eexists. split; [reflexivity|].
    intros Hr. apply (f_equal (@length N)) in Hr.
    rewrite length_rev in Hr. cbn in Hr. lia.
Qed.

Lemma execFrom_group (r : Node) (inp : list N) :
  forall pv m,
    execFrom r pv inp = Some m ->
    exists pv' inp' s,
      mexec r Some (mkM pv' [] inp' None) = Some s /\ group1 m = cap s.
Proof.
  induction inp as [|c rest IH]; intros pv m H; cbn in H; unfold matchAt in H.
  - destruct (mexec r Some (mkM pv [] [] None)) as [s|] eqn:Hm;
      [|discriminate].
    injection H as <-. eauto.
  - destruct (mexec r Some (mkM pv [] (c :: rest) None)) as [s|] eqn:Hm.
    + injection H as <-. eauto.
    + destruct (execFrom r (Some c) rest) as [m'|] eqn:He; [|discriminate].
      injection H as <-. apply IH in He as (pv' & inp' & s & Hs & Hg).
      exists pv', inp', s. auto.
Qed.

(** A match of a pattern that fills its group has a truthy first group. *)
Lemma exec_group_truthy (r : Node) (s : jsstring) (m : Match) :
  fillsGroup r = true -> exec r s = Some m -> truthyOpt (group1 m) = true.
Proof.
  intros Hf H. apply execFrom_group in H as (pv' & inp' & st & Hs & ->).
  apply mexec_reaches in Hs as (s' & Hr & [= <-]).
  apply (reaches_fills_group r Hf) in Hr as (g & -> & Hg).
  destruct g; [contradiction | reflexivity].
Qed.

Lemma addressPatterns_fill_group :
  forallb fillsGroup addressPatterns = true.
Proof. vm_compute. reflexivity. Qed.

Lemma firstAddress_firstMatchGroup (patterns : list Node)
    (output : jsstring) :
  forallb fillsGroup patterns = true ->
  firstAddress patterns output = firstMatchGroup patterns output.
Proof.
  unfold firstMatchGroup.
  induction patterns as [|r more IH]; intros Hf; [reflexivity|].
  cbn in Hf. apply andb_true_iff in Hf as [Hr Hmore].
  cbn. unfold test.
  destruct (exec r output) as [m|] eqn:He.
  - rewrite (exec_group_truthy r output m Hr He), He. reflexivity.
  - apply IH, Hmore.
Qed.

(** C4.  The extractor returns the first group of the first pattern of
    the list, in the order of the list, that matches the text, and that
    group is a non-empty string; it returns [null] exactly when no pattern
    of the list matches. *)
Theorem extractAddress_first_match (output : jsstring) :
  extractAddressFromForgeOutput output
    = firstMatchGroup addressPatterns output /\
  (extractAddressFromForgeOutput output = None <->
   Forall (fun pattern => exec pattern output = None) addressPatterns) /\
  (forall a, extractAddressFromForgeOutput output = Some a -> a <> []).
Proof.
  unfold extractAddressFromForgeOutput.
  pose proof addressPatterns_fill_group as Hf.
  split; [apply firstAddress_firstMatchGroup, Hf|].
  revert Hf. generalize addressPatterns as patterns.
  induction patterns as [|r more IH]; intros Hf.
  - cbn. split; [split; auto|]. discriminate.
  - cbn in Hf. apply andb_true_iff in Hf as [Hr Hmore].
    destruct (IH Hmore) as [IHn IHs]. cbn.
    destruct (exec r output) as [m|] eqn:He.
    + pose proof (exec_group_truthy r output m Hr He) as Ht. rewrite Ht.
      destruct (group1 m) as [g|]; [|discriminate]. split.
      * split; [discriminate|]. intros H. inversion H. congruence.
      * intros a [= <-]. destruct g; [discriminate | discriminate].
    + split; [|exact IHs]. rewrite IHn. split.
      * intros H. constructor; assumption.
      * intros H. inversion H. assumption.
Qed.

End Matcher.

(** ** The patterns of the environment store *)

Section EnvPatterns.

Local Arguments N.eqb : simpl never.
Local Arguments N.leb : simpl never.

Lemma mexec_lit (p : jsstring) :
  forall k s,
    mexec (lit p) k s =
    match stripPrefix p (input s) with
    | Some r => k (fed p r s)
    | None => None
    end.
Proof.
  induction p as [|c p IH]; intros k [pv sn inp cp]; cbn.
  - reflexivity.
  - destruct inp as [|x rest]; [reflexivity|].
    rewrite (N.eqb_sym c x). destruct (x =? c) eqn:E; [|reflexivity].
    apply N.eqb_eq in E. subst x. rewrite IH. reflexivity.
Qed.

Lemma starFrom_last (p : N -> bool) (inp : list N) :
  forall pv sn cp,
    starFrom p Some pv sn cp inp
    = Some (fed (fst (spanRun p inp)) (snd (spanRun p inp))
                (mkM pv sn inp cp)).
Proof.
  induction inp as [|c rest IH]; intros pv sn cp; cbn; [reflexivity|].
  destruct (p c); [|reflexivity].
  rewrite IH. reflexivity.
Qed.

(** A continuation that fails in front of a unit of the class makes the
    iteration take the whole run. *)
Lemma starFrom_greedy (p : N -> bool) (k : MState -> option MState)
    (inp : list N) :
  (forall pv sn c rest cp,
     p c = true -> k (mkM pv sn (c :: rest) cp) = None) ->
  forall pv sn cp,
    starFrom p k pv sn cp inp
    = k (fed (fst (spanRun p inp)) (snd (spanRun p inp))
             (mkM pv sn inp cp)).
Proof.
  intros Hk. induction inp as [|c rest IH]; intros pv sn cp; cbn;
    [reflexivity|].
  destruct (p c) eqn:Hp; [|reflexivity].
  rewrite IH. unfold fed. cbn.
  destruct (k _) eqn:E; [reflexivity|].
  apply Hk, Hp.
Qed.

Lemma stripPrefix_Some (p s r : jsstring) :
  stripPrefix p s = Some r <-> s = p ++ r.
Proof.
  revert s. induction p as [|c p IH]; intros s; cbn.
  - split; [intros [= ->]; reflexivity | intros ->; reflexivity].
  - destruct s as [|x s]; [split; discriminate|].
    destruct (N.eqb_spec c x) as [->|Hne].
    + rewrite IH. split; [intros ->; reflexivity | intros [= ->]; reflexivity].
    + split; [discriminate | intros [= <- _]; contradiction].
Qed.

Lemma stripPrefix_app (p r : jsstring) : stripPrefix p (p ++ r) = Some r.
Proof. apply stripPrefix_Some. reflexivity. Qed.

Lemma spanRun_app (p : N -> bool) (l : list N) :
  l = fst (spanRun p l) ++ snd (spanRun p l).
Proof.
  induction l as [|c l IH]; cbn; [reflexivity|].
  destruct (p c); cbn; [f_equal; exact IH | reflexivity].
Qed.

Lemma spanRun_run (p : N -> bool) (l : list N) :
  Forall (fun c => p c = true) (fst (spanRun p l)).
Proof.
  induction l as [|c l IH]; cbn; [constructor|].
  destruct (p c) eqn:E; cbn; [constructor; assumption | constructor].
Qed.

Lemma spanRun_stop (p : N -> bool) (l : list N) :
  match snd (spanRun p l) with
  | [] => True
  | c :: _ => p c = false
  end.
Proof.
  induction l as [|c l IH]; cbn; [exact I|].
  destruct (p c) eqn:E; cbn; assumption.
Qed.

(** The run is the longest one. *)
Lemma spanRun_unique (p : N -> bool) (run rest : list N) :
  Forall (fun c => p c = true) run ->
  match rest with [] => True | c :: _ => p c = false end ->
  spanRun p (run ++ rest) = (run, rest).
Proof.
  intros Hr Hs. induction Hr as [|c run Hc _ IH]; cbn.
  - destruct rest as [|c rest]; [reflexivity|]. cbn. rewrite Hs. reflexivity.
  - rewrite Hc, IH. reflexivity.
Qed.

Lemma rev_fed_seen (run rest : list N) (s : MState) :
  rev (seen (fed run rest s)) = rev (seen s) ++ run.
Proof.
  unfold fed. cbn. rewrite rev_append_rev, rev_app_distr, rev_involutive.
  reflexivity.
Qed.

Lemma word_not_space (c : N) : isWordChar c = true -> isWhiteSpace c = false.
Proof.
  unfold isWordChar, isWhiteSpace, isDigit. intros H.
  repeat match goal with
         | H : (_ || _) = true |- _ => apply orb_true_iff in H as [H|H]
         | H : (_ && _) = true |- _ => apply andb_true_iff in H as [? ?]
         | H : (_ <=? _) = true |- _ => apply N.leb_le in H
         | H : (_ =? _) = true |- _ => apply N.eqb_eq in H
         end;
    repeat match goal with
           | |- (_ || _) = false => apply orb_false_iff; split
           | |- (_ && _) = false => apply andb_false_iff
           | |- (_ =? _) = false => apply N.eqb_neq; lia
           end;
    left; apply N.leb_gt; lia.
Qed.

Lemma terminator_space (c : N) :
  isLineTerminator c = true -> isWhiteSpace c = true.
Proof.
  unfold isLineTerminator, isWhiteSpace. intros H.
  repeat match goal with
         | H : (_ || _) = true |- _ => apply orb_true_iff in H as [H|H]
         end;
    apply N.eqb_eq in H; subst c; reflexivity.
Qed.

Lemma lastOr_app (a b : list N) :
  forall pv, lastOr (lastOr pv a) b = lastOr pv (a ++ b).
Proof. induction a as [|c a IH]; intros pv; cbn; auto. Qed.

Lemma rev_append_app (a b : list N) :
  forall sn, rev_append b (rev_append a sn) = rev_append (a ++ b) sn.
Proof. induction a as [|c a IH]; intros sn; cbn; auto. Qed.

Lemma fed_app (a b r r' : list N) (s : MState) :
  fed b r (fed a r' s) = fed (a ++ b) r s.
Proof.
  unfold fed. cbn. rewrite lastOr_app, rev_append_app. reflexivity.
Qed.

Lemma stripPrefix_snoc (a : jsstring) (c : N) (s : jsstring) :
  stripPrefix (a ++ [c]) s =
  match stripPrefix a s with
  | Some (x :: rest) => if x =? c then Some rest else None
  | _ => None
  end.
Proof.
  revert s. induction a as [|y a IH]; intros s; cbn.
  - destruct s as [|x rest]; [reflexivity|]. rewrite (N.eqb_sym c x).
    reflexivity.
  - destruct s as [|x rest]; [reflexivity|].
    destruct (y =? x); [apply IH | reflexivity].
Qed.

(** The part [key=.*] that both patterns end with. *)
Lemma tail_mexec (key : jsstring) (s : MState) :
  mexec (Seq (lit key) (Seq (Char 61) (Star isDot))) Some s =
  match stripPrefix (key ++ [61]) (input s) with
  | Some r =>
      Some (fed (key ++ 61 :: fst (spanRun isDot r)) (snd (spanRun isDot r)) s)
  | None => None
  end.
Proof.
  cbn [mexec]. rewrite mexec_lit, stripPrefix_snoc.
  destruct (stripPrefix key (input s)) as [[|x rest]|]; try reflexivity.
  cbn [mexec input fed]. destruct (x =? 61) eqn:E; [|reflexivity].
  apply N.eqb_eq in E. subst x.
  set (F := fed key (61 :: rest) s).
  unfold advance. cbn [prev seen cap input]. rewrite starFrom_last.
  change (mkM (Some 61) (61 :: seen F) rest (cap F)) with (fed [61] rest F).
  subst F. rewrite !fed_app, <- ?app_assoc. reflexivity.
Qed.

Lemma regular_matchAt (key : jsstring) (pv : option N) (inp : jsstring) :
  matchAt (regularRegex key) pv inp =
  if lineStart pv then
    match regularHere key inp with
    | Some (m, rest) => Some (mkMatch [] m rest None)
    | None => None
    end
  else None.
Proof.
  unfold matchAt, regularRegex, regularHere.
  change (mexec (Seq LineStart ?r) Some ?s)
    with (if atLineStart s then mexec r Some s else None).
  change (atLineStart (mkM pv [] inp None)) with (lineStart pv).
  destruct (lineStart pv); [|reflexivity].
  rewrite tail_mexec. cbn [input].
  destruct (stripPrefix (key ++ [61]) inp) as [r|]; [|reflexivity].
  rewrite rev_fed_seen. reflexivity.
Qed.

Lemma key_head_not_space (key : jsstring) (c : N) (rest : jsstring) :
  wordKey key -> isWhiteSpace c = true ->
  stripPrefix (key ++ [61]) (c :: rest) = None.
Proof.
  intros Hk Hc. destruct key as [|x key]; cbn.
  - destruct (N.eqb_spec 61 c) as [<-|]; [|reflexivity].
    vm_compute in Hc. discriminate Hc.
  - destruct (N.eqb_spec x c) as [->|]; [|reflexivity].
    unfold wordKey in Hk. cbn in Hk. apply andb_true_iff in Hk as [Hk _].
    apply word_not_space in Hk. congruence.
Qed.

Lemma export_matchAt (key : jsstring) (pv : option N) (inp : jsstring) :
  wordKey key ->
  matchAt (exportRegex key) pv inp =
  if lineStart pv then
    match exportHere key inp with
    | Some (m, rest) => Some (mkMatch [] m rest None)
    | None => None
    end
  else None.
Proof.
  intros Hk. unfold matchAt, exportRegex, exportHere.
  remember (Seq (lit key) (Seq (Char 61) (Star isDot))) as T eqn:HT.
  change (mexec (Seq LineStart ?r) Some ?s)
    with (if atLineStart s then mexec r Some s else None).
  change (atLineStart (mkM pv [] inp None)) with (lineStart pv).
  destruct (lineStart pv); [|reflexivity].
  change (mexec (Seq (lit ?p) ?r) Some ?s) with (mexec (lit p) (mexec r Some) s).
  rewrite mexec_lit. cbn [input].
  destruct (stripPrefix (str "export") inp) as [r0|]; [|reflexivity].
  unfold Plus.
  change (mexec (Seq (Seq (CharSet ?p) (Star ?q)) ?r) Some ?s)
    with (mexec (CharSet p) (mexec (Star q) (mexec r Some)) s).
  cbn [mexec input fed].
  destruct r0 as [|x rest]; [reflexivity|].
  cbn [spanRun]. destruct (isWhiteSpace x) eqn:Hx; [|reflexivity].
  cbn [advance prev seen cap input].
  rewrite starFrom_greedy.
  - subst T. rewrite tail_mexec. cbn [input fed fst snd].
    destruct (stripPrefix (key ++ [61]) (snd (spanRun isWhiteSpace rest)))
      as [r|]; [|reflexivity].
    set (ws := fst (spanRun isWhiteSpace rest)).
    set (v := fst (spanRun isDot r)).
    change (mkM (lastOr (Some x) ws)
              (rev_append ws (x :: rev_append (str "export") []))
              (snd (spanRun isWhiteSpace rest)) None)
      with (fed ws (snd (spanRun isWhiteSpace rest))
              (fed [x] rest (fed (str "export") (x :: rest)
                               (mkM pv [] inp None)))).
    rewrite !fed_app, rev_fed_seen. cbn [seen rev app].
    rewrite <- !app_assoc. reflexivity.
  - intros pv' sn c rest' cp Hc. subst T. rewrite tail_mexec. cbn [input].
    rewrite key_head_not_space by assumption. reflexivity.
Qed.

(** The definitions are what the two patterns of [updateEnvFile] find,
    the [export] form first. *)
Lemma definitionAt_patterns (key : jsstring) (pv : option N)
    (inp : jsstring) :
  wordKey key ->
  definitionAt key pv inp =
  match matchAt (exportRegex key) pv inp with
  | Some m => Some (afterEquals (matched m))
  | None =>
      match matchAt (regularRegex key) pv inp with
      | Some m => Some (afterEquals (matched m))
      | None => None
      end
  end.
Proof.
  intros Hk. unfold definitionAt.
  rewrite export_matchAt, regular_matchAt by assumption.
  destruct (lineStart pv); [|reflexivity].
  destruct (exportHere key inp) as [[m rest]|]; [reflexivity|].
  destruct (regularHere key inp) as [[m rest]|]; reflexivity.
Qed.

Lemma word_not_terminator (c : N) :
  isWordChar c = true -> isLineTerminator c = false.
Proof.
  intros H. destruct (isLineTerminator c) eqn:E; [|reflexivity].
  apply terminator_space in E. apply word_not_space in H. congruence.
Qed.

Lemma wordKey_Forall (key : jsstring) :
  wordKey key -> Forall (fun c => isWordChar c = true) key.
Proof.
  unfold wordKey. induction key as [|c key IH]; cbn; [constructor|].
  intros H. apply andb_true_iff in H as [Hc H]. constructor; auto.
Qed.

Lemma keyEq_no_terminator (key : jsstring) :
  wordKey key -> Forall (fun c => isLineTerminator c = false) (key ++ [61]).
Proof.
  intros Hk. apply Forall_app. split.
  - eapply Forall_impl; [apply wordKey_Forall, Hk|].
    intros c. apply word_not_terminator.
  - repeat constructor.
Qed.

Lemma keyEq_split (key tail : jsstring) :
  key ++ 61 :: tail = (key ++ [61]) ++ tail.
Proof. rewrite <- app_assoc. reflexivity. Qed.

Lemma regularHere_iff (key inp : jsstring) :
  is_Some (regularHere key inp) <-> exists tail, inp = key ++ 61 :: tail.
Proof.
  unfold regularHere. split.
  - intros [[m rest] H].
    destruct (stripPrefix (key ++ [61]) inp) as [r|] eqn:E; [|discriminate].
    apply stripPrefix_Some in E. exists r. rewrite (keyEq_split key r).
    exact E.
  - intros [tail ->]. rewrite (keyEq_split key tail), stripPrefix_app. eauto.
Qed.

Lemma spanRun_spaces (key ws tail : jsstring) :
  wordKey key -> Forall (fun c => isWhiteSpace c = true) ws ->
  spanRun isWhiteSpace (ws ++ key ++ 61 :: tail) = (ws, key ++ 61 :: tail).
Proof.
  intros Hk Hws. apply spanRun_unique; [exact Hws|].
  destruct key as [|c key]; cbn; [reflexivity|].
  unfold wordKey in Hk. cbn in Hk. apply andb_true_iff in Hk as [Hc _].
  apply word_not_space, Hc.
Qed.

Lemma exportHere_iff (key inp : jsstring) :
  wordKey key ->
  is_Some (exportHere key inp) <->
  exists ws tail,
    ws <> [] /\ Forall (fun c => isWhiteSpace c = true) ws /\
    inp = str "export" ++ ws ++ key ++ 61 :: tail.
Proof.
  intros Hk. unfold exportHere. split.
  - intros [[m rest] H].
    destruct (stripPrefix (str "export") inp) as [r0|] eqn:E0;
      [|discriminate].
    apply stripPrefix_Some in E0.
    pose proof (spanRun_app isWhiteSpace r0) as Happ.
    pose proof (spanRun_run isWhiteSpace r0) as Hrun.
    destruct (spanRun isWhiteSpace r0) as [ws r1]. cbn [fst snd] in *.
    destruct ws as [|c ws]; [discriminate|].
    destruct (stripPrefix (key ++ [61]) r1) as [r|] eqn:E1; [|discriminate].
    apply stripPrefix_Some in E1.
    exists (c :: ws), r. split; [discriminate|]. split; [exact Hrun|].
    rewrite E0, Happ, E1, (keyEq_split key r). reflexivity.
  - intros (ws & tail & Hne & Hws & ->).
    rewrite stripPrefix_app, spanRun_spaces by assumption.
    destruct ws as [|c ws]; [contradiction|].
    rewrite (keyEq_split key tail), stripPrefix_app. eauto.
Qed.

(** A definition starts here exactly at a line start in front of a
    definition prefix. *)
Lemma definitionAt_is_Some (key : jsstring) (pv : option N)
    (inp : jsstring) :
  wordKey key ->
  is_Some (definitionAt key pv inp) <->
  lineStart pv = true /\ hasDefPrefix key inp.
Proof.
  intros Hk. unfold definitionAt, hasDefPrefix.
  rewrite <- regularHere_iff, <- (exportHere_iff key inp Hk).
  destruct (lineStart pv).
  - destruct (exportHere key inp) as [[m rest]|].
    + split; [intros _; split; [reflexivity|right; eauto] | eauto].
    + destruct (regularHere key inp) as [[m rest]|].
      * split; [intros _; split; [reflexivity|left; eauto] | eauto].
      * split; [intros [? [=]] | intros [_ [[? [=]]|[? [=]]]]].
  - split; [intros [? [=]] | intros [[=] _]].
Qed.

Lemma definitionAt_None (key : jsstring) (pv : option N) (inp : jsstring) :
  wordKey key ->
  definitionAt key pv inp = None <->
  ~ (lineStart pv = true /\ hasDefPrefix key inp).
Proof.
  intros Hk. rewrite <- definitionAt_is_Some by assumption.
  destruct (definitionAt key pv inp) as [v|].
  - split; [discriminate|]. intros H. exfalso. apply H. eauto.
  - split; [intros _ [? [=]] | reflexivity].
Qed.

(** A prefix that holds no separator lies before the first separator. *)
Lemma prefix_before_separator (P : N -> Prop) (p : list N) :
  Forall P p ->
  forall l1 t l2 tail,
    ~ P t -> l1 ++ t :: l2 = p ++ tail -> exists q, l1 = p ++ q.
Proof.
  induction 1 as [|a p Ha _ IH]; intros l1 t l2 tail Ht E.
  - exists l1. reflexivity.
  - destruct l1 as [|b l1]; cbn in E.
    + injection E as -> _. contradiction.
    + injection E as -> E. apply IH in E as [q ->]; [|exact Ht].
      exists q. reflexivity.
Qed.

Lemma export_no_terminator :
  Forall (fun c => isLineTerminator c = false) (str "export").
Proof. repeat constructor. Qed.

Lemma hasDefPrefix_app (key q z : jsstring) :
  hasDefPrefix key q -> hasDefPrefix key (q ++ z).
Proof.
  intros [[tail ->]|(ws & tail & Hne & Hws & ->)].
  - left. exists (tail ++ z). rewrite <- app_assoc. reflexivity.
  - right. exists ws, (tail ++ z). split; [exact Hne|]. split; [exact Hws|].
    rewrite <- !app_assoc. reflexivity.
Qed.

(** A definition prefix does not reach over a line end into a text with a
    closed start. *)
Lemma hasDefPrefix_cut (key q : jsstring) (t : N) (x : jsstring) :
  wordKey key -> isLineTerminator t = true -> closedStart key x ->
  hasDefPrefix key (q ++ t :: x) -> hasDefPrefix key q.
Proof.
  intros Hk Ht [Hx1 Hx2] [[tail E]|(ws & tail & Hne & Hws & E)].
  - rewrite (keyEq_split key tail) in E.
    apply (prefix_before_separator _ _ (keyEq_no_terminator key Hk)) in E
      as [q' ->]; [|congruence].
    left. exists q'. rewrite (keyEq_split key q'). reflexivity.
  - pose proof E as E0.
    apply (prefix_before_separator _ _ export_no_terminator) in E0
      as [q1 ->]; [|congruence].
    rewrite <- app_assoc in E. apply app_inv_head in E.
    apply app_eq_inv in E as [(k & -> & E)|(k & -> & E)].
    + symmetry in E. rewrite (keyEq_split key tail) in E.
      apply (prefix_before_separator _ _ (keyEq_no_terminator key Hk)) in E
        as [q' ->]; [|congruence].
      right. exists ws, q'. split; [exact Hne|]. split; [exact Hws|].
      rewrite (keyEq_split key q'), <- !app_assoc. reflexivity.
    + exfalso. apply Forall_app in Hws as [_ Hk2].
      destruct k as [|c k]; cbn in E.
      * rewrite (keyEq_split key tail) in E.
        pose proof (keyEq_no_terminator key Hk) as Hno.
        destruct (key ++ [61]) as [|c l] eqn:Ekey;
          [destruct key; discriminate|].
        injection E as <- _. inversion Hno. congruence.
      * injection E as <- ->. destruct k as [|c k]; cbn in *.
        -- rewrite (keyEq_split key tail), stripPrefix_app in Hx2.
           discriminate.
        -- inversion Hk2 as [|? ? _ Hk3]. inversion Hk3. congruence.
Qed.

Lemma definitionAt_nil (key : jsstring) (pv : option N) :
  wordKey key -> definitionAt key pv [] = None.
Proof.
  intros Hk. apply definitionAt_None; [exact Hk|].
  intros [_ [[tail E]|(ws & tail & _ & _ & E)]].
  - destruct key; discriminate.
  - discriminate.
Qed.

(** What holds across a line end holds for every text with a closed
    start put behind it. *)
Lemma definitionAt_transfer (key : jsstring) (pv : option N)
    (q : jsstring) (t : N) (x x' : jsstring) :
  wordKey key -> isLineTerminator t = true -> closedStart key x' ->
  definitionAt key pv (q ++ t :: x) = None ->
  definitionAt key pv (q ++ t :: x') = None.
Proof.
  intros Hk Ht Hx'. rewrite !definitionAt_None by assumption.
  intros H [Hl Hp]. apply H. split; [exact Hl|].
  apply hasDefPrefix_cut in Hp; try assumption.
  apply hasDefPrefix_app, Hp.
Qed.

Lemma afterEquals_skip (pre v : jsstring) :
  Forall (fun c => c <> 61) pre -> afterEquals (pre ++ 61 :: v) = v.
Proof.
  induction 1 as [|c pre Hc _ IH]; cbn; [reflexivity|].
  apply N.eqb_neq in Hc. rewrite Hc. exact IH.
Qed.

Lemma word_not_equals (key : jsstring) :
  wordKey key -> Forall (fun c => c <> 61) key.
Proof.
  intros Hk. eapply Forall_impl; [apply wordKey_Forall, Hk|].
  intros c Hc ->. vm_compute in Hc. discriminate Hc.
Qed.

Lemma word_not_dollar (key : jsstring) :
  wordKey key -> Forall (fun c => c <> 36) key.
Proof.
  intros Hk. eapply Forall_impl; [apply wordKey_Forall, Hk|].
  intros c Hc ->. vm_compute in Hc. discriminate Hc.
Qed.

Lemma plainValue_dots (value : jsstring) :
  plainValue value -> Forall (fun c => isDot c = true) value.
Proof.
  unfold plainValue. induction value as [|c value IH]; cbn; [constructor|].
  intros H. apply andb_true_iff in H as [Hc H].
  apply andb_true_iff in Hc as [Hc _]. constructor; auto.
Qed.

Lemma plainValue_not_dollar (value : jsstring) :
  plainValue value -> Forall (fun c => c <> 36) value.
Proof.
  unfold plainValue. induction value as [|c value IH]; cbn; [constructor|].
  intros H. apply andb_true_iff in H as [Hc H].
  apply andb_true_iff in Hc as [_ Hc]. apply negb_true_iff, N.eqb_neq in Hc.
  constructor; auto.
Qed.

Lemma newLine_shape (key value suffix : jsstring) :
  newLine key value ++ suffix
  = str "export" ++ [32] ++ key ++ 61 :: (value ++ suffix).
Proof.
  unfold newLine. change (str "export ") with (str "export" ++ [32]).
  rewrite <- !app_assoc. reflexivity.
Qed.

Lemma spanRun_line (v suffix : jsstring) :
  Forall (fun c => isDot c = true) v -> lineEnds suffix ->
  spanRun isDot (v ++ suffix) = (v, suffix).
Proof.
  intros Hv Hs. apply spanRun_unique; [exact Hv|].
  destruct suffix as [|c suffix]; [exact I|].
  unfold isDot. cbn in Hs. rewrite Hs. reflexivity.
Qed.

Lemma spanRun_lineEnds (r : jsstring) : lineEnds (snd (spanRun isDot r)).
Proof.
  pose proof (spanRun_stop isDot r) as H. unfold lineEnds.
  destruct (snd (spanRun isDot r)) as [|c rest]; [exact I|].
  unfold isDot in H. apply negb_false_iff in H. exact H.
Qed.

(** The line [updateEnvFile] writes is a definition of the key, and
    carries the value. *)
Lemma definitionAt_newLine (key value : jsstring) (pv : option N)
    (suffix : jsstring) :
  wordKey key -> lineStart pv = true ->
  Forall (fun c => isDot c = true) value -> lineEnds suffix ->
  definitionAt key pv (newLine key value ++ suffix) = Some value.
Proof.
  intros Hk Hl Hv Hs. unfold definitionAt. rewrite Hl.
  rewrite newLine_shape. unfold exportHere.
  rewrite stripPrefix_app, (spanRun_spaces key [32]);
    [|assumption|repeat constructor].
  rewrite (keyEq_split key (value ++ suffix)), stripPrefix_app.
  rewrite spanRun_line by assumption. cbn [fst snd]. f_equal.
  rewrite !app_assoc. apply afterEquals_skip.
  apply Forall_app. split; [|apply word_not_equals, Hk].
  repeat constructor; discriminate.
Qed.

Lemma definitionAt_not_start (key : jsstring) (pv : option N)
    (inp : jsstring) :
  wordKey key -> lineStart pv = false -> definitionAt key pv inp = None.
Proof.
  intros Hk Hl. unfold definitionAt. rewrite Hl. reflexivity.
Qed.

Lemma newLine_closedStart (key value suffix : jsstring) :
  wordKey key -> closedStart key (newLine key value ++ suffix).
Proof.
  intros Hk. rewrite newLine_shape. split; [reflexivity|].
  destruct (stripPrefix _ _) as [r|] eqn:E; [|reflexivity].
  apply stripPrefix_Some in E. exfalso.
  apply (f_equal (spanRun isWordChar)) in E.
  rewrite <- app_assoc in E. cbn [app] in E.
  rewrite (spanRun_unique isWordChar key (61 :: r)) in E;
    [|apply wordKey_Forall, Hk|reflexivity].
  rewrite (spanRun_unique isWordChar (str "export")) in E;
    [|repeat constructor|reflexivity].
  discriminate E.
Qed.

Lemma closedStart_nil (key : jsstring) : closedStart key [].
Proof. split; [exact I|]. destruct key; reflexivity. Qed.

Lemma getSubstitution_plain (m : Match) (text : jsstring) :
  Forall (fun c => c <> 36) text -> getSubstitution m text = text.
Proof.
  induction 1 as [|c text Hc _ IH]; cbn; [reflexivity|].
  apply N.eqb_neq in Hc. rewrite Hc, IH. reflexivity.
Qed.

Lemma newLine_not_dollar (key value : jsstring) :
  wordKey key -> plainValue value ->
  Forall (fun c => c <> 36) (newLine key value).
Proof.
  intros Hk Hv. unfold newLine. repeat (apply Forall_app; split).
  - repeat constructor; discriminate.
  - apply word_not_dollar, Hk.
  - repeat constructor; discriminate.
  - apply plainValue_not_dollar, Hv.
Qed.

(** *** Searches and definitions *)

Lemma matchAt_before (r : Node) (pv : option N) (inp : jsstring) (m : Match) :
  matchAt r pv inp = Some m ->
  m = mkMatch [] (matched m) (after m) (group1 m).
Proof.
  unfold matchAt. destruct (mexec r Some _); [|discriminate].
  intros [= <-]. reflexivity.
Qed.

Lemma execFrom_Some (r : Node) (inp : jsstring) :
  forall pv m,
    execFrom r pv inp = Some m ->
    exists x,
      inp = before m ++ x /\
      matchAt r (lastOr pv (before m)) x
        = Some (mkMatch [] (matched m) (after m) (group1 m)).
Proof.
  induction inp as [|c rest IH]; intros pv m H; cbn [execFrom] in H.
  - destruct (matchAt r pv []) as [m0|] eqn:E; [|discriminate].
    injection H as ->. pose proof (matchAt_before _ _ _ _ E) as Hm.
    exists []. rewrite Hm in E |- *. cbn. auto.
  - destruct (matchAt r pv (c :: rest)) as [m0|] eqn:E.
    + injection H as ->. pose proof (matchAt_before _ _ _ _ E) as Hm.
      exists (c :: rest). rewrite Hm in E |- *. cbn. auto.
    + destruct (execFrom r (Some c) rest) as [m'|] eqn:E'; [|discriminate].
      injection H as <-. apply IH in E' as (x & -> & Hx).
      exists x. cbn. auto.
Qed.

(** No definition anywhere exactly when both searches fail. *)
Lemma definitionsFrom_nil_iff (key inp : jsstring) :
  wordKey key ->
  forall pv,
    definitionsFrom key pv inp = [] <->
    execFrom (exportRegex key) pv inp = None /\
    execFrom (regularRegex key) pv inp = None.
Proof.
  intros Hk. induction inp as [|c rest IH]; intros pv;
    cbn [definitionsFrom execFrom];
    rewrite definitionAt_patterns by assumption.
  - destruct (matchAt (exportRegex key) pv []);
      [split; [discriminate | intros [[=] _]]|].
    destruct (matchAt (regularRegex key) pv []);
      [split; [discriminate | intros [_ [=]]]|].
    split; auto.
  - destruct (matchAt (exportRegex key) pv (c :: rest));
      [split; [discriminate | intros [[=] _]]|].
    destruct (matchAt (regularRegex key) pv (c :: rest));
      [split; [discriminate | intros [_ [=]]]|].
    cbn [app]. rewrite IH.
    destruct (execFrom (exportRegex key) (Some c) rest),
             (execFrom (regularRegex key) (Some c) rest);
      split; auto; intros [? ?]; discriminate.
Qed.

Lemma definitionsFrom_app (key x : jsstring) (p : jsstring) :
  forall pv,
    definitionsFrom key pv (p ++ x)
    = definitionsIn key pv p x ++ definitionsFrom key (lastOr pv p) x.
Proof.
  induction p as [|c p IH]; intros pv; [reflexivity|].
  cbn [app definitionsFrom definitionsIn lastOr].
  rewrite IH, <- app_assoc. reflexivity.
Qed.

Lemma definitionsIn_transfer (key : jsstring) (t : N) (x x' : jsstring) :
  wordKey key -> isLineTerminator t = true -> closedStart key x' ->
  forall p pv,
    definitionsIn key pv (p ++ [t]) x = [] ->
    definitionsIn key pv (p ++ [t]) x' = [].
Proof.
  intros Hk Ht Hx'. induction p as [|c p IH]; intros pv H;
    cbn [app definitionsIn] in H |- *.
  - apply app_eq_nil in H as [H _].
    destruct (definitionAt key pv (t :: x)) eqn:E; [discriminate|].
    pose proof (definitionAt_transfer key pv [] t x x' Hk Ht Hx' E) as E'.
    cbn [app] in E'. rewrite E'. reflexivity.
  - apply app_eq_nil in H as [H1 H2]. rewrite (IH _ H2), app_nil_r.
    destruct (definitionAt key pv (c :: (p ++ [t]) ++ x)) eqn:E;
      [discriminate|].
    rewrite <- app_assoc in E |- *. cbn [app] in E |- *.
    pose proof (definitionAt_transfer key pv (c :: p) t x x' Hk Ht Hx' E)
      as E'.
    cbn [app] in E'. rewrite E'. reflexivity.
Qed.

Lemma definitionsIn_inner (key x : jsstring) :
  wordKey key ->
  forall l pv,
    lineStart pv = false -> Forall (fun c => isLineTerminator c = false) l ->
    definitionsIn key pv l x = [].
Proof.
  intros Hk. induction l as [|c l IH]; intros pv Hl Hf; [reflexivity|].
  inversion Hf as [|? ? Hc Hf']; subst. cbn [definitionsIn].
  rewrite definitionAt_not_start by assumption. apply IH; assumption.
Qed.

Lemma lineStart_lastOr (l : list N) :
  forall pv,
    lineStart pv = false -> Forall (fun c => isLineTerminator c = false) l ->
    lineStart (lastOr pv l) = false.
Proof.
  induction l as [|c l IH]; intros pv Hl Hf; [exact Hl|].
  inversion Hf; subst. cbn. apply IH; assumption.
Qed.

Lemma dots_no_terminator (v : jsstring) :
  Forall (fun c => isDot c = true) v ->
  Forall (fun c => isLineTerminator c = false) v.
Proof.
  intros H. eapply Forall_impl; [exact H|].
  intros c Hc. unfold isDot in Hc. apply negb_true_iff in Hc. exact Hc.
Qed.

(** A definition ends inside its line. *)
Lemma lineStart_after_definition (a v : jsstring) (pv : option N) :
  Forall (fun c => isDot c = true) v ->
  lineStart (lastOr pv (a ++ 61 :: v)) = false.
Proof.
  intros Hv. rewrite <- lastOr_app. cbn [lastOr].
  apply lineStart_lastOr; [reflexivity | apply dots_no_terminator, Hv].
Qed.

Lemma definitionsFrom_pv (key : jsstring) (pv pv' : option N)
    (l : jsstring) :
  wordKey key -> lineStart pv = false -> lineStart pv' = false ->
  definitionsFrom key pv l = definitionsFrom key pv' l.
Proof.
  intros Hk H H'. destruct l; cbn [definitionsFrom];
    rewrite !definitionAt_not_start by assumption; reflexivity.
Qed.

Lemma lineStart_ends (before : jsstring) :
  lineStart (lastOr None before) = true ->
  before = [] \/
  exists p t, before = p ++ [t] /\ isLineTerminator t = true.
Proof.
  destruct before as [|t before _] using rev_ind; [auto|].
  rewrite <- lastOr_app. cbn. eauto.
Qed.

Lemma newLine_no_terminator (key value : jsstring) :
  wordKey key -> Forall (fun c => isDot c = true) value ->
  Forall (fun c => isLineTerminator c = false) (newLine key value).
Proof.
  intros Hk Hv. unfold newLine. repeat (apply Forall_app; split).
  - repeat constructor.
  - eapply Forall_impl; [apply wordKey_Forall, Hk|].
    intros c. apply word_not_terminator.
  - repeat constructor.
  - apply dots_no_terminator, Hv.
Qed.

(** The definitions of the line [updateEnvFile] writes, at a line
    start: the one definition that carries the value. *)
Lemma definitionsIn_newLine (key value : jsstring) (pv : option N)
    (suffix : jsstring) :
  wordKey key -> lineStart pv = true ->
  Forall (fun c => isDot c = true) value -> lineEnds suffix ->
  definitionsIn key pv (newLine key value) suffix = [value] /\
  lineStart (lastOr pv (newLine key value)) = false.
Proof.
  intros Hk Hl Hv Hs. split.
  - pose proof (definitionAt_newLine key value pv suffix Hk Hl Hv Hs) as Hd.
    pose proof (newLine_no_terminator key value Hk Hv) as Hn.
    destruct (newLine key value) as [|c l] eqn:E; [discriminate|].
    cbn [definitionsIn]. rewrite Hd.
    inversion Hn; subst.
    rewrite definitionsIn_inner by assumption. reflexivity.
  - unfold newLine. rewrite app_assoc.
    apply lineStart_after_definition, Hv.
Qed.

(** Replacing the one definition of the key. *)
Lemma definitions_after_replace
    (key value before a v after : jsstring) :
  wordKey key -> Forall (fun c => isDot c = true) value ->
  lineStart (lastOr None before) = true ->
  is_Some (definitionAt key (lastOr None before) ((a ++ 61 :: v) ++ after)) ->
  Forall (fun c => isDot c = true) v -> lineEnds after ->
  le (length (definitionsFrom key None (before ++ (a ++ 61 :: v) ++ after)))
     1 ->
  definitionsFrom key None (before ++ newLine key value ++ after) = [value].
Proof.
  intros Hk Hval Hl [v0 Hd] Hv Hs Hlen.
  rewrite definitionsFrom_app in Hlen |- *.
  rewrite (definitionsFrom_app key after (a ++ 61 :: v)) in Hlen.
  rewrite (definitionsFrom_app key after (newLine key value)).
  destruct (definitionsIn_newLine key value (lastOr None before) after)
    as [Hnew Hend]; try assumption.
  rewrite Hnew.
  pose proof (lineStart_after_definition a v (lastOr None before) Hv) as Hold.
  rewrite (definitionsFrom_pv key _ (lastOr (lastOr None before)
                                       (a ++ 61 :: v)) after)
    by assumption.
  assert (Hfirst : exists more,
             definitionsIn key (lastOr None before) (a ++ 61 :: v) after
             = v0 :: more).
  { destruct (a ++ 61 :: v) as [|c l] eqn:E; [destruct a; discriminate|].
    cbn [definitionsIn]. rewrite Hd. eauto. }
  destruct Hfirst as [more Hfirst]. rewrite Hfirst in Hlen.
  rewrite !length_app in Hlen. cbn [length] in Hlen.
  assert (Hb : definitionsIn key None before ((a ++ 61 :: v) ++ after) = [])
    by (apply length_zero_iff_nil; lia).
  assert (Ha : definitionsFrom key
                 (lastOr (lastOr None before) (a ++ 61 :: v)) after = [])
    by (apply length_zero_iff_nil; lia).
  rewrite Ha.
  destruct (lineStart_ends before Hl) as [->|(p & t & -> & Ht)].
  - reflexivity.
  - rewrite (definitionsIn_transfer key t _ (newLine key value ++ after)
               Hk Ht (newLine_closedStart key value after Hk) p None Hb).
    reflexivity.
Qed.

Lemma definitionAt_snoc (key : jsstring) (pv : option N) (q : jsstring)
    (t : N) :
  wordKey key -> isLineTerminator t = true ->
  definitionAt key pv q = None -> definitionAt key pv (q ++ [t]) = None.
Proof.
  intros Hk Ht. rewrite !definitionAt_None by assumption.
  intros H [Hl Hp]. apply H. split; [exact Hl|].
  apply (hasDefPrefix_cut key q t []); auto using closedStart_nil.
Qed.

Lemma definitionsFrom_snoc (key : jsstring) (t : N) :
  wordKey key -> isLineTerminator t = true ->
  forall content pv,
    definitionsFrom key pv content = [] ->
    definitionsFrom key pv (content ++ [t]) = [].
Proof.
  intros Hk Ht. induction content as [|c content IH]; intros pv H;
    cbn [app definitionsFrom] in H |- *.
  - pose proof (definitionAt_snoc key pv [] t Hk Ht
                  (definitionAt_nil key pv Hk)) as E.
    cbn [app] in E. rewrite E, definitionAt_nil by assumption. reflexivity.
  - apply app_eq_nil in H as [H1 H2]. rewrite (IH _ H2), app_nil_r.
    destruct (definitionAt key pv (c :: content)) eqn:E; [discriminate|].
    pose proof (definitionAt_snoc key pv (c :: content) t Hk Ht E) as E'.
    cbn [app] in E'. rewrite E'. reflexivity.
Qed.

Lemma endsWith_newline (s : jsstring) :
  endsWith s [10] = true -> exists p, s = p ++ [10].
Proof.
  unfold endsWith, startsWith. cbn.
  destruct (rev s) as [|c r] eqn:E; [discriminate|].
  destruct (N.eqb_spec 10 c) as [<-|]; [|discriminate].
  intros _. exists (rev r).
  rewrite <- (rev_involutive s), E. reflexivity.
Qed.

(** Appending the first definition of the key. *)
Lemma definitions_after_append (key value content : jsstring) :
  wordKey key -> Forall (fun c => isDot c = true) value ->
  definitionsFrom key None content = [] ->
  definitionsFrom key None
    ((if endsWith content [10] then content else content ++ [10])
     ++ newLine key value ++ [10]) = [value].
Proof.
  intros Hk Hv H0.
  assert (Hp : exists p,
             (if endsWith content [10] then content else content ++ [10])
             = p ++ [10] /\
             definitionsFrom key None (p ++ [10]) = []).
  { destruct (endsWith content [10]) eqn:E.
    - apply endsWith_newline in E as [p ->]. eauto.
    - exists content. split; [reflexivity|].
      apply definitionsFrom_snoc; auto. }
  destruct Hp as (p & -> & Hp).
  rewrite definitionsFrom_app.
  rewrite <- (app_nil_r (p ++ [10])), definitionsFrom_app in Hp.
  apply app_eq_nil in Hp as [Hp _].
  rewrite (definitionsIn_transfer key 10 [] (newLine key value ++ [10]));
    auto using newLine_closedStart.
  rewrite <- lastOr_app. cbn [lastOr app].
  rewrite definitionsFrom_app.
  destruct (definitionsIn_newLine key value (Some 10) [10] Hk eq_refl Hv
              eq_refl) as [Hnew Hend].
  rewrite Hnew. cbn [definitionsFrom app].
  rewrite definitionAt_not_start, definitionAt_nil by assumption.
  reflexivity.
Qed.

Lemma regularHere_shape (key x mt af : jsstring) :
  regularHere key x = Some (mt, af) ->
  exists a v,
    mt = a ++ 61 :: v /\ Forall (fun c => isDot c = true) v /\
    lineEnds af /\ x = mt ++ af.
Proof.
  unfold regularHere.
  destruct (stripPrefix (key ++ [61]) x) as [r|] eqn:E; [|discriminate].
  apply stripPrefix_Some in E.
  pose proof (spanRun_app isDot r) as Hr.
  pose proof (spanRun_run isDot r) as Hv.
  pose proof (spanRun_lineEnds r) as Hs.
  destruct (spanRun isDot r) as [v rest]. cbn [fst snd] in *.
  intros H.
  assert (Hmt : mt = key ++ 61 :: v) by congruence.
  assert (Haf : af = rest) by congruence.
  subst mt af x r.
  exists key, v. split; [reflexivity|]. split; [exact Hv|].
  split; [exact Hs|]. rewrite <- !app_assoc. reflexivity.
Qed.

Lemma exportHere_shape (key x mt af : jsstring) :
  exportHere key x = Some (mt, af) ->
  exists a v,
    mt = a ++ 61 :: v /\ Forall (fun c => isDot c = true) v /\
    lineEnds af /\ x = mt ++ af.
Proof.
  unfold exportHere.
  destruct (stripPrefix (str "export") x) as [r0|] eqn:E0; [|discriminate].
  apply stripPrefix_Some in E0.
  pose proof (spanRun_app isWhiteSpace r0) as Happ.
  destruct (spanRun isWhiteSpace r0) as [ws r1]. cbn [fst snd] in Happ.
  destruct ws as [|c ws]; [discriminate|].
  destruct (stripPrefix (key ++ [61]) r1) as [r|] eqn:E1; [|discriminate].
  apply stripPrefix_Some in E1.
  pose proof (spanRun_app isDot r) as Hr.
  pose proof (spanRun_run isDot r) as Hv.
  pose proof (spanRun_lineEnds r) as Hs.
  destruct (spanRun isDot r) as [v rest]. cbn [fst snd] in *.
  intros H.
  assert (Hmt : mt = str "export" ++ (c :: ws) ++ key ++ 61 :: v)
    by congruence.
  assert (Haf : af = rest) by congruence.
  subst mt af x r0 r1 r.
  exists (str "export" ++ (c :: ws) ++ key), v.
  split; [rewrite <- !app_assoc; reflexivity|].
  split; [exact Hv|]. split; [exact Hs|].
  rewrite <- !app_assoc. reflexivity.
Qed.

(** Where a search finds its match there is a definition, inside one
    line. *)
Lemma search_finds_definition (key content : jsstring) (r : Node)
    (m : Match) :
  wordKey key -> r = exportRegex key \/ r = regularRegex key ->
  exec r content = Some m ->
  exists a v,
    content = before m ++ (a ++ 61 :: v) ++ after m /\
    lineStart (lastOr None (before m)) = true /\
    is_Some (definitionAt key (lastOr None (before m))
               ((a ++ 61 :: v) ++ after m)) /\
    Forall (fun c => isDot c = true) v /\ lineEnds (after m).
Proof.
  intros Hk Hr He. apply execFrom_Some in He as (x & Hc & Hm).
  assert (Hd : is_Some (definitionAt key (lastOr None (before m)) x)).
  { rewrite definitionAt_patterns by assumption. destruct Hr as [-> | ->].
    - rewrite Hm. eauto.
    - destruct (matchAt (exportRegex key) _ x); [eauto|].
      rewrite Hm. eauto. }
  assert (Hl : lineStart (lastOr None (before m)) = true)
    by (apply (definitionAt_is_Some key _ x Hk), Hd).
  assert (Hs : exists a v,
             matched m = a ++ 61 :: v /\
             Forall (fun c => isDot c = true) v /\
             lineEnds (after m) /\ x = matched m ++ after m).
  { destruct Hr as [-> | ->].
    - rewrite export_matchAt, Hl in Hm by assumption.
      destruct (exportHere key x) as [[mt af]|] eqn:Hx; [|discriminate].
      injection Hm as <- <-. eapply exportHere_shape, Hx.
    - rewrite regular_matchAt, Hl in Hm.
      destruct (regularHere key x) as [[mt af]|] eqn:Hx; [|discriminate].
      injection Hm as <- <-. eapply regularHere_shape, Hx. }
  destruct Hs as (a & v & Hmt & Hv & Hs & Hx).
  exists a, v. rewrite <- Hmt, <- Hx. auto.
Qed.

(** On a file with at most one definition of the key, the new text has
    exactly one, and it carries the value. *)
Lemma updatedContent_definitions (key value content : jsstring) :
  wordKey key -> plainValue value ->
  le (length (activeDefinitions key content)) 1 ->
  activeDefinitions key (updatedContent key value content) = [value].
Proof.
  intros Hk Hv Hlen. unfold activeDefinitions in *.
  pose proof (plainValue_dots value Hv) as Hdots.
  unfold updatedContent, test, replace.
  destruct (exec (exportRegex key) content) as [m|] eqn:Ee.
  - destruct (search_finds_definition key content _ m Hk (or_introl eq_refl)
                Ee) as (a & v & Hc & Hl & Hd & Hdv & Hs).
    rewrite getSubstitution_plain by (apply newLine_not_dollar; assumption).
    rewrite Hc in Hlen.
    apply (definitions_after_replace key value (before m) a v (after m));
      assumption.
  - destruct (exec (regularRegex key) content) as [m|] eqn:Er.
    + destruct (search_finds_definition key content _ m Hk
                  (or_intror eq_refl) Er) as (a & v & Hc & Hl & Hd & Hdv & Hs).
      rewrite getSubstitution_plain by (apply newLine_not_dollar; assumption).
      rewrite Hc in Hlen.
      apply (definitions_after_replace key value (before m) a v (after m));
        assumption.
    + apply definitions_after_append; try assumption.
      apply definitionsFrom_nil_iff; auto.
Qed.

Lemma updatedContent_new_key (key value content : jsstring) :
  wordKey key -> activeDefinitions key content = [] ->
  updatedContent key value content
  = content ++ (if endsWith content [10] then [] else [10])
    ++ newLine key value ++ [10].
Proof.
  unfold activeDefinitions. intros Hk H.
  apply definitionsFrom_nil_iff in H as [He Hr]; [|exact Hk].
  unfold updatedContent, test, exec. rewrite He, Hr.
  destruct (endsWith content [10]); rewrite <- ?app_assoc; reflexivity.
Qed.

Lemma updatedWorld_frame (key value envPath text : jsstring) (w : World)
    (options : UpdateOptions) :
  envPathOf options (updatedWorld key value envPath text w)
  = envPathOf options w.
Proof. reflexivity. Qed.

(** C1, as stated, fails: the update replaces the first definition it
    finds and leaves a second one in place. *)
Lemma updateEnvFile_keeps_second_definition : ~ singleDefinitionAlways.
Proof.
  intros H.
  destruct (H (str "FOO") (str "9") noOptions
              (Scenario.withEnvFile Scenario.twice)
              (snd (updateEnvFile (str "FOO") (str "9") noOptions
                      (Scenario.withEnvFile Scenario.twice)))
              ltac:(vm_compute; reflexivity)) as (text & Hf & Hlen).
  vm_compute in Hf. injection Hf as <-. vm_compute in Hlen. lia.
Qed.

(** C1, amended.  For a key over [[A-Za-z0-9_]] and a value on one line
    and free of [$]: when the text the update starts from holds at most
    one active definition of the key, the file holds exactly one after a
    successful update, and that definition carries the new value; the same
    holds again after a second successful update of the key. *)
Theorem updateEnvFile_single_definition
    (key value value2 : jsstring) (options : UpdateOptions)
    (w w' : World) (text0 : jsstring) :
  wordKey key -> plainValue value -> plainValue value2 ->
  startContent (envPathOf options w) (createOf options) w = Some text0 ->
  le (length (activeDefinitions key text0)) 1 ->
  updateEnvFile key value options w = (true, w') ->
  (exists text1,
     files w' !! envPathOf options w = Some text1 /\
     activeDefinitions key text1 = [value]) /\
  (forall w'',
     updateEnvFile key value2 options w' = (true, w'') ->
     exists text2,
       files w'' !! envPathOf options w = Some text2 /\
       activeDefinitions key text2 = [value2]).
Proof.
  intros Hk Hv Hv2 Hs Hlen Hu.
  apply updateEnvFile_ok in Hu as (t0 & Hs' & _ & ->).
  rewrite Hs in Hs'. injection Hs' as <-.
  pose proof (updatedContent_definitions key value text0 Hk Hv Hlen) as H1.
  split.
  - eexists. split; [apply updatedWorld_envFile | exact H1].
  - intros w'' Hu2.
    apply updateEnvFile_ok in Hu2 as (t1 & Hs2 & _ & ->).
    rewrite updatedWorld_frame in *.
    unfold startContent in Hs2. rewrite updatedWorld_envFile in Hs2.
    injection Hs2 as <-.
    eexists. split; [apply updatedWorld_envFile|].
    apply updatedContent_definitions; try assumption.
    rewrite H1. cbn. lia.
Qed.

(** On a sample file with one definition: one definition afterwards,
    with the new value. *)
Lemma updateEnvFile_single_definition_witness :
  exists text1,
    files (snd (updateEnvFile (str "FOO") (str "9") noOptions
                  (Scenario.withEnvFile (str "FOO=1" ++ Scenario.LF))))
      !! Scenario.envFile = Some text1 /\
    activeDefinitions (str "FOO") text1 = [str "9"].
Proof.
  apply (updateEnvFile_single_definition (str "FOO") (str "9") (str "7")
           noOptions (Scenario.withEnvFile (str "FOO=1" ++ Scenario.LF))
           (snd (updateEnvFile (str "FOO") (str "9") noOptions
                   (Scenario.withEnvFile (str "FOO=1" ++ Scenario.LF))))
           (str "FOO=1" ++ Scenario.LF)).
  - vm_compute. reflexivity.
  - vm_compute. reflexivity.
  - vm_compute. reflexivity.
  - vm_compute. reflexivity.
  - vm_compute. lia.
  - vm_compute. reflexivity.
Defined.



End EnvPatterns.

(** ** The secrets version *)

Section SecretsVersion.

Import ChainlinkFunctions.




(** *** The pattern of the numbers, read directly *)






(** *** The numbers are the words of digits *)













Lemma writable_frame (envPath : jsstring) (w w' : World) :
  readOnly w' = readOnly w -> writable envPath w' = writable envPath w.
Proof. unfold writable. intros ->. reflexivity. Qed.

Lemma resolveDotEnv_frame (w w' : World) :
  cwd w' = cwd w -> resolveDotEnv w' = resolveDotEnv w.
Proof. unfold resolveDotEnv. intros ->. reflexivity. Qed.

(** [updateEnvFile] with the default options: it succeeds exactly on a
    writable path, and a failed call leaves the environment file, the
    process environment and the write permissions as they were. *)
Lemma updateEnvFile_default_cases (key value : jsstring) (w : World) :
  let envPath := resolveDotEnv w in
  (writable envPath w = true /\
   exists text0,
     startContent envPath true w = Some text0 /\
     updateEnvFile key value noOptions w =
       (true, updatedWorld key value envPath
                (updatedContent key value text0) w)) \/
  (writable envPath w = false /\
   exists w',
     updateEnvFile key value noOptions w = (false, w') /\
     cwd w' = cwd w /\ readOnly w' = readOnly w /\ env w' = env w /\
     files w' !! envPath = files w !! envPath).
Proof.
  intros envPath. rewrite updateEnvFile_run. cbv zeta.
  change (envPathOf noOptions w) with envPath.
  change (createOf noOptions) with true.
  unfold writable.
  assert (Hs : exists text0, startContent envPath true w = Some text0).
  { unfold startContent. destruct (files w !! envPath); eauto. }
  destruct Hs as [text0 Hs]. rewrite Hs.
  destruct (bool_decide (tempPath envPath ∈ readOnly w)).
  - right. split; [reflexivity|]. exists w. auto.
  - destruct (bool_decide (envPath ∈ readOnly w)).
    + right. split; [reflexivity|]. eexists. split; [reflexivity|].
      cbn. repeat split. apply lookup_insert_ne, tempPath_ne.
    + left. split; [reflexivity|]. eauto.
Qed.



End SecretsVersion.

(** ** Sample evaluations *)

Section Samples.

Import Scenario.

Example extract_contract_address :
  extractAddressFromForgeOutput
    (str "Waiting for receipts." ++ LF ++ str "Contract Address: 0xAbC123"
     ++ LF ++ str "Deployed to: 0xffff")
  = Some (str "0xAbC123").
Proof. vm_compute. reflexivity. Qed.

Example extract_ignores_case_in_third_pattern :
  extractAddressFromForgeOutput (str "DSTOCK DEPLOYED AT: 0XABCg")
  = Some (str "0XABC").
Proof. vm_compute. reflexivity. Qed.

Example extract_nothing :
  extractAddressFromForgeOutput (str "Compiling 12 files") = None.
Proof. vm_compute. reflexivity. Qed.

Example numbers_are_whole_words :
  matchAll ChainlinkFunctions.numberRegex
    (str "version 3 uploaded at 12:30, id abc123 12abc")
  = [str "3"; str "12"; str "30"].
Proof. vm_compute. reflexivity. Qed.

Example definitions_of_a_file :
  activeDefinitions (str "FOO")
    (str "# FOO=0" ++ LF ++ str "export   FOO=1" ++ LF ++ str "FOO=2"
     ++ [13; 10] ++ str " FOO=3" ++ LF ++ str "FOOD=4")
  = [str "1"; str "2"].
Proof. vm_compute. reflexivity. Qed.

Example update_replaces_first_definition :
  updatedContent (str "FOO") (str "9") twice
  = str "export FOO=9" ++ LF ++ str "FOO=2" ++ LF.
Proof. vm_compute. reflexivity. Qed.

Example update_prefers_export_form :
  updatedContent (str "FOO") (str "9")
    (str "FOO=1" ++ LF ++ str "export FOO=2" ++ LF)
  = str "FOO=1" ++ LF ++ str "export FOO=9" ++ LF.
Proof. vm_compute. reflexivity. Qed.

Example update_expands_dollar_escapes :
  updatedContent (str "FOO") (str "<$&>") (str "FOO=1" ++ LF)
  = str "export FOO=<FOO=1>" ++ LF.
Proof. vm_compute. reflexivity. Qed.

Example update_appends_to_empty_file :
  updatedContent (str "FOO") (str "9") []
  = LF ++ str "export FOO=9" ++ LF.
Proof. vm_compute. reflexivity. Qed.

Example full_run :
  let '(exitCode, w) :=
    Deploy.main noValidation [str "--functions"; str "-a"] (machine true) in
  exitCode = 0 /\
  commandsOf (history w)
  = [ str "forge script script/Deploy.s.sol --private-key 0x01 --rpc-url http://localhost:8545 --etherscan-api-key key --broadcast --verify -vvv";
      str "node deploy/function/uploadSecrets.js";
      str "cast send 0x02 " ++ [34] ++ str "addConsumer(uint64,address)"
        ++ [34] ++ str " 7 0xabc --private-key 0x01 --rpc-url http://localhost:8545";
      str "node deploy/automation/registerAutomation.js" ] /\
  files w !! envFile
  = Some (str "# Environment Variables" ++ LF
          ++ str "export CONTRACT_ADDRESS=0xabc" ++ LF
          ++ str "export FUNCTIONS_SECRETS_VERSION=42" ++ LF).
Proof. vm_compute. auto. Qed.

Example failed_consumer_run :
  let '(exitCode, w) :=
    Deploy.main noValidation [str "--functions"; str "-a"] (machine false) in
  exitCode = 1 /\
  map (take 10) (commandsOf (history w))
  = [str "forge scri"; str "node deplo"; str "cast send "].
Proof. vm_compute. auto. Qed.

Example secrets_version_falls_back :
  fst (ChainlinkFunctions.setupFunctions
         (mkWorld (str "/app") ∅ ∅ ∅
            (fun _ _ f => (mkChild (Exited 1) [] (str "no gateway"), f)) []))
  = Return (str "1").
Proof. vm_compute. reflexivity. Qed.

Example secrets_version_needs_a_writable_file :
  fst (ChainlinkFunctions.setupFunctions
         (mkWorld (str "/app") ∅ {[ envFile ]} ∅ (answer true) []))
  = Throw (newError (str "Failed to set default FUNCTIONS_SECRETS_VERSION")).
Proof. vm_compute. reflexivity. Qed.

End Samples.

(* ===================================================================== *)
(** * Further properties *)
(* ===================================================================== *)

(** ** What an update touches *)

Section EnvStore.

Local Arguments N.eqb : simpl never.
Local Arguments N.leb : simpl never.

Lemma stagedWorld_newEvents (envPath text : jsstring) (w : World) :
  newEvents w (stagedWorld envPath text w)
  = [EvWriteFile (tempPath envPath) text].
Proof. apply newEvents_app. reflexivity. Qed.

Lemma newEvents_refl (w : World) : newEvents w w = [].
Proof. apply newEvents_app. rewrite app_nil_r. reflexivity. Qed.

(** X1.  A call of [updateEnvFile] that returns [false] has changed
    neither the process environment nor any file other than the
    temporary one beside the environment file, and it has run no
    command. *)
Theorem updateEnvFile_failure_frame
    (key value : jsstring) (options : UpdateOptions) (w w' : World) :
  updateEnvFile key value options w = (false, w') ->
  env w' = env w /\ cwd w' = cwd w /\ readOnly w' = readOnly w /\
  (forall path, path <> tempPath (envPathOf options w) ->
     files w' !! path = files w !! path) /\
  commandsOf (newEvents w w') = [].
Proof.
  rewrite updateEnvFile_run. cbv zeta.
  destruct (startContent _ _ w) as [text0|].
  - destruct (bool_decide (tempPath _ ∈ readOnly w)).
    + intros [= <-]. rewrite newEvents_refl. auto.
    + destruct (bool_decide (envPathOf options w ∈ readOnly w));
        [|discriminate].
      intros [= <-]. rewrite stagedWorld_newEvents.
      repeat split. intros path Hp. cbn.
      apply lookup_insert_ne. congruence.
  - intros [= <-]. rewrite newEvents_refl. auto.
Qed.

(** On a machine whose environment file must not be written. *)
Lemma updateEnvFile_failure_frame_witness :
  env (snd (updateEnvFile (str "FOO") (str "9") noOptions
              Cases.lockedMachine)) = env Cases.lockedMachine.
Proof.
  apply (updateEnvFile_failure_frame (str "FOO") (str "9") noOptions
           Cases.lockedMachine).
  vm_compute. reflexivity.
Defined.

(** X2.  A call of [updateEnvFile] that returns [true] leaves no
    temporary file behind (one that was there before is gone), keeps every
    file other than these two and every other variable of the process
    environment as they were, and its whole trace is one write of the
    temporary file and one rename. *)
Theorem updateEnvFile_success_frame
    (key value : jsstring) (options : UpdateOptions) (w w' : World) :
  updateEnvFile key value options w = (true, w') ->
  let envPath := envPathOf options w in
  files w' !! tempPath envPath = None /\
  (forall path, path <> envPath -> path <> tempPath envPath ->
     files w' !! path = files w !! path) /\
  (forall k, k <> key -> env w' !! k = env w !! k) /\
  exists text,
    newEvents w w'
    = [EvWriteFile (tempPath envPath) text; EvRename (tempPath envPath) envPath].
Proof.
  intros H envPath. apply updateEnvFile_ok in H as (text0 & _ & _ & ->).
  fold envPath. unfold updatedWorld. cbn [files env]. repeat split.
  - rewrite lookup_insert_ne by (apply not_eq_sym, tempPath_ne).
    apply lookup_delete_eq.
  - intros path H1 H2.
    rewrite lookup_insert_ne, lookup_delete_ne, lookup_insert_ne by congruence.
    reflexivity.
  - intros k Hk. apply lookup_insert_ne. congruence.
  - eexists. apply newEvents_app. reflexivity.
Qed.


Lemma header_no_definitions (key : jsstring) :
  wordKey key -> activeDefinitions key (str "# Environment Variables" ++ [10]) = [].
Proof.
  intros Hk. unfold activeDefinitions.
  change (str "# Environment Variables" ++ [10])
    with ([35] ++ str " Environment Variables" ++ [10]).
  rewrite definitionsFrom_app. cbn [definitionsIn lastOr].
  assert (H0 : definitionAt key None
                 ([35] ++ str " Environment Variables" ++ [10]) = None).
  { apply definitionAt_None; [exact Hk|].
    intros [_ [[tail E]|(ws & tail & _ & _ & E)]].
    - destruct key as [|c key]; [discriminate E|].
      injection E as <- _. discriminate Hk.
    - discriminate E. }
  rewrite H0. cbn [app].
  rewrite definitionsFrom_app.
  rewrite definitionsIn_inner; [|exact Hk|reflexivity|repeat constructor].
  cbn [app definitionsFrom].
  rewrite definitionAt_not_start, definitionAt_nil by (exact Hk || reflexivity).
  reflexivity.
Qed.

(** On a sample file: no temporary file is left. *)
Lemma updateEnvFile_success_frame_witness :
  files (snd (updateEnvFile (str "FOO") (str "9") noOptions
                (Scenario.withEnvFile Scenario.twice)))
    !! tempPath Scenario.envFile = None.
Proof.
  destruct (updateEnvFile_success_frame (str "FOO") (str "9") noOptions
              (Scenario.withEnvFile Scenario.twice)
              (snd (updateEnvFile (str "FOO") (str "9") noOptions
                      (Scenario.withEnvFile Scenario.twice)))
              ltac:(vm_compute; reflexivity)) as (H & _).
  exact H.
Defined.

(** X3.  When the environment file does not exist: with
    [createIfMissing] set to [false] the call returns [false] and changes
    nothing at all; otherwise, on writable paths, it returns [true] and
    the new file is the comment line [# Environment Variables] followed by
    the one line [export key=value] (for a key over [[A-Za-z0-9_]]). *)
Theorem updateEnvFile_missing_file
    (key value : jsstring) (options : UpdateOptions) (w : World) :
  wordKey key ->
  files w !! envPathOf options w = None ->
  (createOf options = false ->
   updateEnvFile key value options w = (false, w)) /\
  (createOf options = true -> writable (envPathOf options w) w = true ->
   exists w',
     updateEnvFile key value options w = (true, w') /\
     files w' !! envPathOf options w
     = Some (str "# Environment Variables" ++ [10]
             ++ newLine key value ++ [10])).
Proof.
  intros Hk Hf. rewrite updateEnvFile_run. cbv zeta.
  unfold startContent. rewrite Hf. split.
  - intros ->. reflexivity.
  - intros -> Hw. unfold writable in Hw.
    apply andb_true_iff in Hw as [H1 H2].
    apply negb_true_iff in H1, H2. rewrite H1, H2.
    eexists. split; [reflexivity|].
    rewrite updatedWorld_envFile.
    rewrite (updatedContent_new_key key value _ Hk
               (header_no_definitions key Hk)).
    replace (endsWith (str "# Environment Variables" ++ [10]) [10])
      with true by (vm_compute; reflexivity).
    rewrite <- app_assoc. reflexivity.
Qed.

(** On a machine without an environment file. *)
Lemma updateEnvFile_missing_file_witness :
  exists w',
    updateEnvFile (str "FOO") (str "9") noOptions (Scenario.machine true)
    = (true, w') /\
    files w' !! Scenario.envFile
    = Some (str "# Environment Variables" ++ [10]
            ++ str "export FOO=9" ++ [10]).
Proof.
  destruct (updateEnvFile_missing_file (str "FOO") (str "9") noOptions
              (Scenario.machine true)
              ltac:(vm_compute; reflexivity) ltac:(vm_compute; reflexivity))
    as [_ H].
  apply H; vm_compute; reflexivity.
Defined.

End EnvStore.

(** ** The lines of the environment file *)

Section EnvLines.
Local Arguments N.eqb : simpl never.
Local Arguments N.leb : simpl never.

Lemma stripPrefix_cut (p : jsstring) (t : N) (x : jsstring) :
  Forall (fun c => isLineTerminator c = false) p ->
  isLineTerminator t = true ->
  forall q,
    stripPrefix p (q ++ t :: x)
    = match stripPrefix p q with
      | Some r => Some (r ++ t :: x)
      | None => None
      end.
Proof.
  intros Hp Ht. induction Hp as [|c p Hc _ IH]; intros q; [reflexivity|].
  destruct q as [|y q]; cbn.
  - destruct (N.eqb_spec c t) as [->|]; [congruence | reflexivity].
  - destruct (c =? y); [apply IH | reflexivity].
Qed.

Lemma spanRun_cut (p : N -> bool) (t : N) (x : jsstring) :
  p t = false ->
  forall r,
    spanRun p (r ++ t :: x)
    = (fst (spanRun p r), snd (spanRun p r) ++ t :: x).
Proof.
  intros Ht. induction r as [|c r IH]; cbn.
  - rewrite Ht. reflexivity.
  - destruct (p c); [rewrite IH; reflexivity | reflexivity].
Qed.

Lemma spanRun_short (p : N -> bool) (z : jsstring) :
  forall r,
    snd (spanRun p r) <> [] ->
    spanRun p (r ++ z) = (fst (spanRun p r), snd (spanRun p r) ++ z).
Proof.
  induction r as [|c r IH]; cbn; [contradiction|].
  destruct (p c); cbn; [|reflexivity].
  intros H. rewrite (IH H). reflexivity.
Qed.

Lemma spanRun_all (p : N -> bool) :
  forall r, snd (spanRun p r) = [] -> fst (spanRun p r) = r.
Proof.
  intros r H. pose proof (spanRun_app p r) as E. rewrite H, app_nil_r in E.
  auto.
Qed.

Lemma spanRun_through (p : N -> bool) (z : jsstring) :
  forall r,
    snd (spanRun p r) = [] ->
    spanRun p (r ++ z) = (r ++ fst (spanRun p z), snd (spanRun p z)).
Proof.
  induction r as [|c r IH]; cbn.
  - intros _. destruct (spanRun p z); reflexivity.
  - destruct (p c); cbn; [|discriminate].
    intros H. rewrite (IH H). reflexivity.
Qed.

Lemma regularHere_cut (key q : jsstring) (t : N) (x : jsstring) :
  wordKey key -> isLineTerminator t = true ->
  regularHere key (q ++ t :: x)
  = match regularHere key q with
    | Some (line, rest) => Some (line, rest ++ t :: x)
    | None => None
    end.
Proof.
  intros Hk Ht. unfold regularHere.
  rewrite (stripPrefix_cut _ t x (keyEq_no_terminator key Hk) Ht).
  destruct (stripPrefix (key ++ [61]) q) as [r|]; [|reflexivity].
  rewrite spanRun_cut by (unfold isDot; rewrite Ht; reflexivity).
  reflexivity.
Qed.

Lemma closedStart_span (key x : jsstring) :
  closedStart key x -> spanRun isWhiteSpace x = ([], x).
Proof.
  intros [H _]. destruct x as [|c x]; [reflexivity|].
  cbn. rewrite H. reflexivity.
Qed.

Lemma keyEq_not_nil (key : jsstring) : stripPrefix (key ++ [61]) [] = None.
Proof. destruct key; reflexivity. Qed.

Lemma exportHere_cut (key q : jsstring) (t : N) (x : jsstring) :
  wordKey key -> isLineTerminator t = true -> closedStart key x ->
  exportHere key (q ++ t :: x)
  = match exportHere key q with
    | Some (line, rest) => Some (line, rest ++ t :: x)
    | None => None
    end.
Proof.
  intros Hk Ht Hx. unfold exportHere.
  rewrite (stripPrefix_cut _ t x export_no_terminator Ht).
  destruct (stripPrefix (str "export") q) as [r0|]; [|reflexivity].
  destruct (snd (spanRun isWhiteSpace r0)) as [|c rest] eqn:Hs.
  - rewrite (spanRun_through isWhiteSpace (t :: x) r0 Hs).
    pose proof (spanRun_all isWhiteSpace r0 Hs) as Hf.
    cbn [spanRun]. rewrite (terminator_space t Ht).
    rewrite (closedStart_span key x Hx). cbn [fst snd].
    destruct Hx as [_ Hx]. 
    destruct (spanRun isWhiteSpace r0) as [ws r1]. cbn [fst snd] in *.
    subst ws r1. rewrite keyEq_not_nil.
    destruct r0 as [|c0 r0]; cbn [app]; rewrite Hx; reflexivity.
  - rewrite spanRun_short by (rewrite Hs; discriminate).
    destruct (spanRun isWhiteSpace r0) as [ws r1]. cbn [fst snd] in *.
    subst r1. destruct ws as [|w0 ws]; [reflexivity|].
    rewrite (stripPrefix_cut _ t x (keyEq_no_terminator key Hk) Ht).
    destruct (stripPrefix (key ++ [61]) (c :: rest)) as [r|]; [|reflexivity].
    rewrite spanRun_cut by (unfold isDot; rewrite Ht; reflexivity).
    reflexivity.
Qed.

(** A definition is decided inside its line, whatever closed text
    follows the line end. *)
Lemma definitionAt_cut (key : jsstring) (pv : option N) (q : jsstring)
    (t : N) (x : jsstring) :
  wordKey key -> isLineTerminator t = true -> closedStart key x ->
  definitionAt key pv (q ++ t :: x) = definitionAt key pv q.
Proof.
  intros Hk Ht Hx. unfold definitionAt.
  rewrite exportHere_cut, regularHere_cut by assumption.
  destruct (lineStart pv); [|reflexivity].
  destruct (exportHere key q) as [[line rest]|]; [reflexivity|].
  destruct (regularHere key q) as [[line rest]|]; reflexivity.
Qed.

Lemma definitionAt_cut_nil (key : jsstring) (pv : option N) (t : N)
    (x : jsstring) :
  wordKey key -> isLineTerminator t = true -> closedStart key x ->
  definitionAt key pv (t :: x) = None.
Proof.
  intros Hk Ht Hx.
  pose proof (definitionAt_cut key pv [] t x Hk Ht Hx) as E.
  cbn [app] in E. rewrite E. apply definitionAt_nil, Hk.
Qed.

Lemma definitionAt_cut_cons (key : jsstring) (pv : option N) (c : N)
    (q : jsstring) (t : N) (x : jsstring) :
  wordKey key -> isLineTerminator t = true -> closedStart key x ->
  definitionAt key pv (c :: q ++ t :: x) = definitionAt key pv (c :: q).
Proof.
  intros Hk Ht Hx. exact (definitionAt_cut key pv (c :: q) t x Hk Ht Hx).
Qed.

Lemma definitionsIn_cut (key : jsstring) (t : N) (x x' : jsstring) :
  wordKey key -> isLineTerminator t = true ->
  closedStart key x -> closedStart key x' ->
  forall p pv,
    definitionsIn key pv (p ++ [t]) x = definitionsIn key pv (p ++ [t]) x'.
Proof.
  intros Hk Ht Hx Hx'. induction p as [|c p IH]; intros pv;
    cbn [app definitionsIn].
  - rewrite !definitionAt_cut_nil by assumption. reflexivity.
  - rewrite IH. f_equal. rewrite <- !app_assoc. cbn [app].
    rewrite !definitionAt_cut_cons by assumption. reflexivity.
Qed.

Lemma definitionsFrom_newline (key : jsstring) (t : N) :
  wordKey key -> isLineTerminator t = true ->
  forall content pv,
    definitionsFrom key pv (content ++ [t]) = definitionsFrom key pv content.
Proof.
  intros Hk Ht. induction content as [|c content IH]; intros pv;
    cbn [app definitionsFrom].
  - rewrite definitionAt_cut_nil by auto using closedStart_nil.
    rewrite !definitionAt_nil by assumption. reflexivity.
  - rewrite IH. f_equal.
    rewrite (definitionAt_cut_cons key pv c content t [])
      by auto using closedStart_nil.
    reflexivity.
Qed.

Lemma definitionsIn_app (key : jsstring) (x : jsstring) :
  forall l1 l2 pv,
    definitionsIn key pv (l1 ++ l2) x
    = definitionsIn key pv l1 (l2 ++ x)
      ++ definitionsIn key (lastOr pv l1) l2 x.
Proof.
  induction l1 as [|c l1 IH]; intros l2 pv; [reflexivity|].
  cbn [app definitionsIn lastOr].
  rewrite IH, <- !app_assoc. reflexivity.
Qed.

(** Inside a line only its start can hold a definition. *)
Lemma definitionsIn_line (key : jsstring) (pv : option N) (l x : jsstring) :
  wordKey key -> Forall (fun c => isLineTerminator c = false) l ->
  definitionAt key pv (l ++ x) = None ->
  definitionsIn key pv l x = [].
Proof.
  intros Hk Hl H0. destruct l as [|c l]; [reflexivity|].
  cbn [definitionsIn]. rewrite H0. inversion Hl; subst.
  apply definitionsIn_inner; assumption.
Qed.

(** *** Two keys *)

Lemma wordRun_key (key tail : jsstring) :
  wordKey key -> spanRun isWordChar (key ++ 61 :: tail) = (key, 61 :: tail).
Proof.
  intros Hk. apply spanRun_unique; [apply wordKey_Forall, Hk | reflexivity].
Qed.

Lemma regular_prefix_key (key other t1 t2 : jsstring) :
  wordKey key -> wordKey other ->
  key ++ 61 :: t1 = other ++ 61 :: t2 -> key = other.
Proof.
  intros Hk Ho E. apply (f_equal (spanRun isWordChar)) in E.
  rewrite !wordRun_key in E by assumption. congruence.
Qed.

Lemma export_not_regular (key other ws t1 t2 : jsstring) :
  wordKey key -> ws <> [] -> Forall (fun c => isWhiteSpace c = true) ws ->
  key ++ 61 :: t1 <> str "export" ++ ws ++ other ++ 61 :: t2.
Proof.
  intros Hk Hne Hws E. apply (f_equal (spanRun isWordChar)) in E.
  rewrite wordRun_key in E by assumption.
  destruct ws as [|c ws]; [contradiction|].
  inversion Hws as [|? ? Hc _]; subst.
  rewrite (spanRun_unique isWordChar (str "export")) in E;
    [|repeat constructor|cbn].
  - injection E as _ E _. subst c. discriminate Hc.
  - destruct (isWordChar c) eqn:Hw; [|reflexivity].
    apply word_not_space in Hw. congruence.
Qed.

(** A text that starts with a definition of one key does not start with
    a definition of another. *)
Lemma hasDefPrefix_one_key (key other x : jsstring) :
  wordKey key -> wordKey other ->
  hasDefPrefix key x -> hasDefPrefix other x -> key = other.
Proof.
  intros Hk Ho [[t1 E1]|(ws1 & t1 & Hn1 & Hw1 & E1)]
               [[t2 E2]|(ws2 & t2 & Hn2 & Hw2 & E2)]; subst x.
  - exact (regular_prefix_key key other t1 t2 Hk Ho E2).
  - exfalso. exact (export_not_regular key other ws2 t1 t2 Hk Hn2 Hw2 E2).
  - exfalso. symmetry in E2.
    exact (export_not_regular other key ws1 t2 t1 Ho Hn1 Hw1 E2).
  - apply app_inv_head in E2.
    apply (f_equal (spanRun isWhiteSpace)) in E2.
    rewrite !spanRun_spaces in E2 by assumption.
    injection E2 as _ E2.
    exact (regular_prefix_key key other t1 t2 Hk Ho E2).
Qed.

Lemma closedStart_other (key other x : jsstring) :
  wordKey key -> wordKey other -> other <> key ->
  hasDefPrefix key x -> closedStart other x.
Proof.
  intros Hk Ho Hne Hx. split.
  - destruct Hx as [[t1 ->]|(ws1 & t1 & _ & _ & ->)]; [|reflexivity].
    destruct key as [|c key]; [reflexivity|]. cbn.
    unfold wordKey in Hk. cbn in Hk. apply andb_true_iff in Hk as [Hc _].
    apply word_not_space, Hc.
  - destruct (stripPrefix (other ++ [61]) x) as [r|] eqn:E; [|reflexivity].
    apply stripPrefix_Some in E. exfalso. apply Hne. symmetry.
    apply (hasDefPrefix_one_key key other x); try assumption.
    left. exists r. rewrite E, <- app_assoc. reflexivity.
Qed.

Lemma definitionAt_other (key other : jsstring) (pv : option N)
    (x : jsstring) :
  wordKey key -> wordKey other -> other <> key ->
  hasDefPrefix key x -> definitionAt other pv x = None.
Proof.
  intros Hk Ho Hne Hx. apply definitionAt_None; [exact Ho|].
  intros [_ Hx']. apply Hne. symmetry.
  apply (hasDefPrefix_one_key key other x); assumption.
Qed.

Lemma newLine_hasDefPrefix (key value suffix : jsstring) :
  hasDefPrefix key (newLine key value ++ suffix).
Proof.
  right. exists [32], (value ++ suffix).
  split; [discriminate|]. split; [repeat constructor|].
  apply newLine_shape.
Qed.

(** White space in front of a definition holds no definition of another
    key. *)
Lemma definitionsIn_spaces (key other tail : jsstring) :
  wordKey key -> wordKey other -> other <> key ->
  forall ws pv,
    Forall (fun c => isWhiteSpace c = true) ws ->
    definitionsIn other pv ws (key ++ 61 :: tail) = [].
Proof.
  intros Hk Ho Hne. induction ws as [|c ws IH]; intros pv Hws; [reflexivity|].
  inversion Hws as [|? ? Hc Hws']; subst. cbn [definitionsIn].
  rewrite (IH _ Hws'), app_nil_r.
  assert (H : definitionAt other pv ((c :: ws) ++ key ++ 61 :: tail) = None).
  { apply definitionAt_None; [exact Ho|].
    intros [_ [[t E]|(ws' & t & _ & _ & E)]].
    - destruct other as [|o other]; cbn in E.
      + injection E as -> _. discriminate Hc.
      + injection E as -> _. unfold wordKey in Ho. cbn in Ho.
        apply andb_true_iff in Ho as [Ho _].
        apply word_not_space in Ho. congruence.
    - injection E as -> _. discriminate Hc. }
  rewrite H. reflexivity.
Qed.


(** *** Searches, position by position *)

Lemma execFrom_skip (r : Node) (x : jsstring) (m0 : Match) :
  forall b pv,
    (forall b1 c b2, b = b1 ++ c :: b2 ->
       matchAt r (lastOr pv b1) (c :: b2 ++ x) = None) ->
    matchAt r (lastOr pv b) x = Some m0 ->
    execFrom r pv (b ++ x)
    = Some (mkMatch (b ++ before m0) (matched m0) (after m0) (group1 m0)).
Proof.
  induction b as [|c b IH]; intros pv Hb Hm.
  - cbn [app lastOr] in *. pose proof (matchAt_before _ _ _ _ Hm) as E.
    rewrite E in Hm |- *. cbn [before matched after group1].
    destruct x; cbn [execFrom]; rewrite Hm; reflexivity.
  - cbn [app execFrom]. pose proof (Hb [] c b eq_refl) as H0.
    cbn [lastOr] in H0. rewrite H0.
    rewrite (IH (Some c)); [reflexivity | | exact Hm].
    intros b1 c' b2 ->. apply (Hb (c :: b1) c' b2). reflexivity.
Qed.

Lemma execFrom_none (r : Node) :
  forall inp pv,
    execFrom r pv inp = None ->
    forall b1 x, inp = b1 ++ x -> matchAt r (lastOr pv b1) x = None.
Proof.
  induction inp as [|c rest IH]; intros pv H b1 x E; cbn [execFrom] in H.
  - destruct b1; [|discriminate]. cbn in E. subst x. cbn.
    destruct (matchAt r pv []); [discriminate | reflexivity].
  - destruct (matchAt r pv (c :: rest)) eqn:Hm; [discriminate|].
    destruct (execFrom r (Some c) rest) eqn:He; [discriminate|].
    destruct b1 as [|c' b1]; cbn in E.
    + subst x. exact Hm.
    + injection E as <- E. cbn. apply (IH _ He _ _ E).
Qed.

(** The match a search returns is the leftmost one. *)
Lemma execFrom_first (r : Node) :
  forall inp pv m,
    execFrom r pv inp = Some m ->
    exists x,
      inp = before m ++ x /\
      forall b1 c b2, before m = b1 ++ c :: b2 ->
        matchAt r (lastOr pv b1) (c :: b2 ++ x) = None.
Proof.
  induction inp as [|c rest IH]; intros pv m H; cbn [execFrom] in H.
  - destruct (matchAt r pv []) as [m0|] eqn:E; [|discriminate].
    injection H as ->. pose proof (matchAt_before _ _ _ _ E) as Hm.
    exists []. rewrite Hm. cbn. split; [reflexivity|].
    intros [|? ?] ? ? [=].
  - destruct (matchAt r pv (c :: rest)) as [m0|] eqn:E.
    + injection H as ->. pose proof (matchAt_before _ _ _ _ E) as Hm.
      exists (c :: rest). rewrite Hm. cbn. split; [reflexivity|].
      intros [|? ?] ? ? [=].
    + destruct (execFrom r (Some c) rest) as [m'|] eqn:E'; [|discriminate].
      injection H as <-. apply IH in E' as (x & -> & Hx).
      exists x. cbn. split; [reflexivity|].
      intros b1 c' b2 Hb. destruct b1 as [|c1 b1]; cbn in Hb.
      * injection Hb as <- <-. exact E.
      * injection Hb as <- Hb. cbn. apply (Hx _ _ _ Hb).
Qed.

Lemma regularHere_exact (key x mt af : jsstring) :
  regularHere key x = Some (mt, af) ->
  exists v,
    mt = key ++ 61 :: v /\ Forall (fun c => isDot c = true) v /\
    lineEnds af /\ x = mt ++ af.
Proof.
  unfold regularHere.
  destruct (stripPrefix (key ++ [61]) x) as [r|] eqn:E; [|discriminate].
  apply stripPrefix_Some in E.
  pose proof (spanRun_app isDot r) as Hr.
  pose proof (spanRun_run isDot r) as Hv.
  pose proof (spanRun_lineEnds r) as Hs.
  destruct (spanRun isDot r) as [v rest]. cbn [fst snd] in *.
  intros H.
  assert (Hmt : mt = key ++ 61 :: v) by congruence.
  assert (Haf : af = rest) by congruence.
  subst mt af x r.
  exists v. split; [reflexivity|]. split; [exact Hv|].
  split; [exact Hs|]. rewrite <- !app_assoc. reflexivity.
Qed.

Lemma exportHere_exact (key x mt af : jsstring) :
  exportHere key x = Some (mt, af) ->
  exists ws v,
    ws <> [] /\ Forall (fun c => isWhiteSpace c = true) ws /\
    mt = str "export" ++ ws ++ key ++ 61 :: v /\
    Forall (fun c => isDot c = true) v /\
    lineEnds af /\ x = mt ++ af.
Proof.
  unfold exportHere.
  destruct (stripPrefix (str "export") x) as [r0|] eqn:E0; [|discriminate].
  apply stripPrefix_Some in E0.
  pose proof (spanRun_app isWhiteSpace r0) as Happ.
  pose proof (spanRun_run isWhiteSpace r0) as Hrun.
  destruct (spanRun isWhiteSpace r0) as [ws r1]. cbn [fst snd] in Happ, Hrun.
  destruct ws as [|c ws]; [discriminate|].
  destruct (stripPrefix (key ++ [61]) r1) as [r|] eqn:E1; [|discriminate].
  apply stripPrefix_Some in E1.
  pose proof (spanRun_app isDot r) as Hr.
  pose proof (spanRun_run isDot r) as Hv.
  pose proof (spanRun_lineEnds r) as Hs.
  destruct (spanRun isDot r) as [v rest]. cbn [fst snd] in *.
  intros H.
  assert (Hmt : mt = str "export" ++ (c :: ws) ++ key ++ 61 :: v)
    by congruence.
  assert (Haf : af = rest) by congruence.
  subst mt af x r0 r1 r.
  exists (c :: ws), v. split; [discriminate|]. split; [exact Hrun|].
  split; [reflexivity|]. split; [exact Hv|]. split; [exact Hs|].
  rewrite <- !app_assoc. reflexivity.
Qed.

(** What a search of [updateEnvFile] matches: at a line start, the key
    and its value up to the end of the line, behind [export] and white
    space or behind nothing. *)
Lemma search_shape (key content : jsstring) (r : Node) (m : Match) :
  wordKey key -> r = exportRegex key \/ r = regularRegex key ->
  exec r content = Some m ->
  exists lead v,
    content = before m ++ (lead ++ key ++ 61 :: v) ++ after m /\
    matched m = lead ++ key ++ 61 :: v /\
    lineStart (lastOr None (before m)) = true /\
    Forall (fun c => isDot c = true) v /\ lineEnds (after m) /\
    (lead = [] \/
     exists ws, ws <> [] /\ Forall (fun c => isWhiteSpace c = true) ws /\
                lead = str "export" ++ ws).
Proof.
  intros Hk Hr He. apply execFrom_Some in He as (x & Hc & Hm).
  destruct Hr as [-> | ->].
  - rewrite export_matchAt in Hm by assumption.
    destruct (lineStart (lastOr None (before m))) eqn:Hl; [|discriminate].
    destruct (exportHere key x) as [[mt af]|] eqn:Hx; [|discriminate].
    injection Hm as <- <-.
    apply exportHere_exact in Hx as (ws & v & Hne & Hws & Hmt & Hv & Hs & Hx).
    exists (str "export" ++ ws), v. subst mt x.
    split; [rewrite Hc, <- !app_assoc; reflexivity|].
    rewrite <- !app_assoc. repeat split; eauto.
  - rewrite regular_matchAt in Hm.
    destruct (lineStart (lastOr None (before m))) eqn:Hl; [|discriminate].
    destruct (regularHere key x) as [[mt af]|] eqn:Hx; [|discriminate].
    injection Hm as <- <-.
    apply regularHere_exact in Hx as (v & Hmt & Hv & Hs & Hx).
    exists [], v. subst mt x. cbn [app].
    split; [rewrite Hc, <- !app_assoc; reflexivity|].
    repeat split; auto.
Qed.

Lemma region_hasDefPrefix (key lead v suffix : jsstring) :
  (lead = [] \/
   exists ws, ws <> [] /\ Forall (fun c => isWhiteSpace c = true) ws /\
              lead = str "export" ++ ws) ->
  hasDefPrefix key ((lead ++ key ++ 61 :: v) ++ suffix).
Proof.
  intros [->|(ws & Hne & Hws & ->)].
  - left. exists (v ++ suffix). cbn [app]. rewrite <- app_assoc. reflexivity.
  - right. exists ws, (v ++ suffix). split; [exact Hne|]. split; [exact Hws|].
    rewrite <- !app_assoc. reflexivity.
Qed.

(** *** The other keys of the file *)

Lemma region_no_other (key other lead v after : jsstring) (pv : option N) :
  wordKey key -> wordKey other -> other <> key ->
  Forall (fun c => isDot c = true) v ->
  (lead = [] \/
   exists ws, ws <> [] /\ Forall (fun c => isWhiteSpace c = true) ws /\
              lead = str "export" ++ ws) ->
  definitionsIn other pv (lead ++ key ++ 61 :: v) after = [].
Proof.
  intros Hk Ho Hne Hv Hlead.
  assert (Hline : forall pv',
             definitionsIn other pv' (key ++ 61 :: v) after = []).
  { intros pv'. apply definitionsIn_line; [exact Ho| |].
    - rewrite (keyEq_split key v). apply Forall_app. split.
      + apply keyEq_no_terminator, Hk.
      + apply dots_no_terminator, Hv.
    - apply (definitionAt_other key other); try assumption.
      left. exists (v ++ after). rewrite <- app_assoc. reflexivity. }
  pose proof (region_hasDefPrefix key lead v after Hlead) as Hp.
  destruct Hlead as [->|(ws & Hn & Hws & ->)]; [apply Hline|].
  rewrite <- app_assoc, definitionsIn_app, definitionsIn_app.
  rewrite Hline, app_nil_r.
  rewrite (definitionsIn_line other pv (str "export")); [|exact Ho| |].
  - cbn [app]. rewrite <- app_assoc. cbn [app].
    apply definitionsIn_spaces; assumption.
  - apply export_no_terminator.
  - apply (definitionAt_other key other); assumption.
Qed.


Lemma newLine_ends_inside (key value : jsstring) (pv : option N) :
  Forall (fun c => isDot c = true) value ->
  lineStart (lastOr pv (newLine key value)) = false.
Proof.
  intros Hv. unfold newLine. rewrite app_assoc.
  apply lineStart_after_definition, Hv.
Qed.

Lemma newLine_no_other (key other value after : jsstring) (pv : option N) :
  wordKey key -> wordKey other -> other <> key ->
  Forall (fun c => isDot c = true) value ->
  definitionsIn other pv (newLine key value) after = [].
Proof.
  intros Hk Ho Hne Hv. apply definitionsIn_line; [exact Ho| |].
  - apply newLine_no_terminator; assumption.
  - apply (definitionAt_other key other); try assumption.
    apply newLine_hasDefPrefix.
Qed.

(** Replacing a definition of one key leaves the definitions of every
    other key as they are. *)
Lemma other_definitions_after_replace
    (key other value before lead v after : jsstring) :
  wordKey key -> wordKey other -> other <> key ->
  Forall (fun c => isDot c = true) value ->
  lineStart (lastOr None before) = true ->
  Forall (fun c => isDot c = true) v ->
  (lead = [] \/
   exists ws, ws <> [] /\ Forall (fun c => isWhiteSpace c = true) ws /\
              lead = str "export" ++ ws) ->
  definitionsFrom other None (before ++ newLine key value ++ after)
  = definitionsFrom other None (before ++ (lead ++ key ++ 61 :: v) ++ after).
Proof.
  intros Hk Ho Hne Hval Hl Hv Hlead.
  rewrite !definitionsFrom_app.
  rewrite newLine_no_other, region_no_other by assumption.
  cbn [app].
  rewrite (definitionsFrom_pv other
             (lastOr (lastOr None before) (newLine key value))
             (lastOr (lastOr None before) (lead ++ key ++ 61 :: v)) after Ho).
  - f_equal.
    destruct (lineStart_ends before Hl) as [->|(p & t & -> & Ht)];
      [reflexivity|].
    apply definitionsIn_cut; try assumption.
    + apply (closedStart_other key other); try assumption.
      apply newLine_hasDefPrefix.
    + apply (closedStart_other key other); try assumption.
      apply region_hasDefPrefix, Hlead.
  - apply newLine_ends_inside, Hval.
  - rewrite app_assoc. apply lineStart_after_definition, Hv.
Qed.

Lemma appended_start (content : jsstring) :
  exists p,
    (if endsWith content [10] then content else content ++ [10]) = p ++ [10] /\
    (p ++ [10] = content \/ p = content).
Proof.
  destruct (endsWith content [10]) eqn:E.
  - apply endsWith_newline in E as [p ->]. eauto.
  - eauto.
Qed.

Lemma other_definitions_after_append (key other value content : jsstring) :
  wordKey key -> wordKey other -> other <> key ->
  Forall (fun c => isDot c = true) value ->
  definitionsFrom other None
    ((if endsWith content [10] then content else content ++ [10])
     ++ newLine key value ++ [10])
  = definitionsFrom other None content.
Proof.
  intros Hk Ho Hne Hv.
  destruct (appended_start content) as (p & -> & Hp).
  assert (H0 : definitionsFrom other None content
               = definitionsFrom other None (p ++ [10])).
  { destruct Hp as [->| ->]; [reflexivity|].
    symmetry. apply definitionsFrom_newline; auto. }
  rewrite H0.
  rewrite <- (app_nil_r (p ++ [10])) at 2.
  rewrite !definitionsFrom_app, <- !lastOr_app. cbn [lastOr].
  rewrite newLine_no_other by assumption.
  cbn [app definitionsFrom].
  rewrite definitionAt_not_start
    by (exact Ho || (apply newLine_ends_inside, Hv)).
  rewrite !definitionAt_nil by assumption.
  f_equal. apply definitionsIn_cut; auto using closedStart_nil.
  apply (closedStart_other key other); try assumption.
  apply newLine_hasDefPrefix.
Qed.

Lemma updatedContent_other_key (key other value content : jsstring) :
  wordKey key -> wordKey other -> other <> key -> plainValue value ->
  activeDefinitions other (updatedContent key value content)
  = activeDefinitions other content.
Proof.
  intros Hk Ho Hne Hv. unfold activeDefinitions.
  pose proof (plainValue_dots value Hv) as Hdots.
  unfold updatedContent, test, replace.
  destruct (exec (exportRegex key) content) as [m|] eqn:Ee.
  - destruct (search_shape key content _ m Hk (or_introl eq_refl) Ee)
      as (lead & v & Hc & _ & Hl & Hdv & _ & Hlead).
    rewrite getSubstitution_plain by (apply newLine_not_dollar; assumption).
    rewrite Hc.
    apply other_definitions_after_replace; assumption.
  - destruct (exec (regularRegex key) content) as [m|] eqn:Er.
    + destruct (search_shape key content _ m Hk (or_intror eq_refl) Er)
        as (lead & v & Hc & _ & Hl & Hdv & _ & Hlead).
      rewrite getSubstitution_plain by (apply newLine_not_dollar; assumption).
      rewrite Hc.
      apply other_definitions_after_replace; assumption.
    + apply other_definitions_after_append; assumption.
Qed.

(** *** The new line is always there *)

Lemma updatedContent_holds_value (key value content : jsstring) :
  wordKey key -> plainValue value ->
  In value (activeDefinitions key (updatedContent key value content)).
Proof.
  intros Hk Hv. unfold activeDefinitions.
  pose proof (plainValue_dots value Hv) as Hdots.
  assert (Hrep : forall m r,
             r = exportRegex key \/ r = regularRegex key ->
             exec r content = Some m ->
             In value (definitionsFrom key None
                         (before m ++ newLine key value ++ after m))).
  { intros m r Hr He.
    destruct (search_shape key content r m Hk Hr He)
      as (lead & v & _ & _ & Hl & _ & Hs & _).
    rewrite definitionsFrom_app.
    rewrite (definitionsFrom_app key (after m) (newLine key value)).
    destruct (definitionsIn_newLine key value (lastOr None (before m))
                (after m) Hk Hl Hdots Hs) as [-> _].
    apply in_or_app. right. left. reflexivity. }
  unfold updatedContent, test, replace.
  destruct (exec (exportRegex key) content) as [m|] eqn:Ee.
  - rewrite getSubstitution_plain by (apply newLine_not_dollar; assumption).
    apply (Hrep m (exportRegex key)); [left; reflexivity | exact Ee].
  - destruct (exec (regularRegex key) content) as [m|] eqn:Er.
    + rewrite getSubstitution_plain by (apply newLine_not_dollar; assumption).
      apply (Hrep m (regularRegex key)); [right; reflexivity | exact Er].
    + rewrite definitions_after_append; [left; reflexivity|exact Hk|exact Hdots|].
      apply definitionsFrom_nil_iff; auto.
Qed.


(** *** A second update finds the line of the first *)

Lemma exportHere_mono (key q z : jsstring) :
  wordKey key -> is_Some (exportHere key q) ->
  is_Some (exportHere key (q ++ z)).
Proof.
  intros Hk H. apply (exportHere_iff key q Hk) in H
    as (ws & tail & Hne & Hws & ->).
  apply (exportHere_iff key _ Hk). exists ws, (tail ++ z).
  split; [exact Hne|]. split; [exact Hws|].
  rewrite <- !app_assoc. reflexivity.
Qed.

Lemma no_export_here (key : jsstring) (pv : option N) (q z : jsstring) :
  wordKey key -> lineStart pv = true ->
  matchAt (exportRegex key) pv (q ++ z) = None ->
  exportHere key q = None.
Proof.
  intros Hk Hl H. rewrite export_matchAt, Hl in H by assumption.
  destruct (exportHere key q) as [p|] eqn:E; [|reflexivity].
  destruct (exportHere_mono key q z Hk) as [[line rest] E']; [eauto|].
  rewrite E' in H. discriminate H.
Qed.

Lemma exportHere_newLine (key value after : jsstring) :
  wordKey key -> Forall (fun c => isDot c = true) value -> lineEnds after ->
  exportHere key (newLine key value ++ after)
  = Some (newLine key value, after).
Proof.
  intros Hk Hv Hs. rewrite newLine_shape. unfold exportHere.
  rewrite stripPrefix_app, (spanRun_spaces key [32]);
    [|assumption|repeat constructor].
  rewrite (keyEq_split key (value ++ after)), stripPrefix_app.
  rewrite spanRun_line by assumption. cbn [fst snd].
  unfold newLine. change (str "export ") with (str "export" ++ [32]).
  rewrite <- !app_assoc. reflexivity.
Qed.

Lemma export_search_new_line (key value before after : jsstring) :
  wordKey key -> Forall (fun c => isDot c = true) value ->
  lineStart (lastOr None before) = true -> lineEnds after ->
  (forall b1 q t, before = b1 ++ q ++ [t] ->
     lineStart (lastOr None b1) = true -> exportHere key q = None) ->
  exec (exportRegex key) (before ++ newLine key value ++ after)
  = Some (mkMatch before (newLine key value) after None).
Proof.
  intros Hk Hv Hl Hs Hfree. unfold exec.
  assert (Hm : matchAt (exportRegex key) (lastOr None before)
                 (newLine key value ++ after)
               = Some (mkMatch [] (newLine key value) after None)).
  { rewrite export_matchAt, Hl, exportHere_newLine by assumption.
    reflexivity. }
  rewrite (fun H => execFrom_skip (exportRegex key) (newLine key value ++ after)
                      _ before None H Hm).
  - cbn [RegExp.before RegExp.matched RegExp.after RegExp.group1].
    rewrite app_nil_r. reflexivity.
  - intros b1 c b2 Hb. rewrite export_matchAt by assumption.
    destruct (lineStart (lastOr None b1)) eqn:Hl1; [|reflexivity].
    destruct (exists_last (l := c :: b2)) as (q & t & Hq); [discriminate|].
    assert (Ht : isLineTerminator t = true).
    { rewrite Hb, Hq, app_assoc, <- lastOr_app in Hl. exact Hl. }
    change (c :: b2 ++ newLine key value ++ after)
      with ((c :: b2) ++ newLine key value ++ after).
    rewrite Hq, <- app_assoc. cbn [app].
    rewrite exportHere_cut by auto using newLine_closedStart.
    rewrite (Hfree b1 q t); [reflexivity | | exact Hl1].
    rewrite Hb, Hq. reflexivity.
Qed.

Lemma updatedContent_fixed (key value before after : jsstring) :
  wordKey key -> plainValue value ->
  lineStart (lastOr None before) = true -> lineEnds after ->
  (forall b1 q t, before = b1 ++ q ++ [t] ->
     lineStart (lastOr None b1) = true -> exportHere key q = None) ->
  updatedContent key value (before ++ newLine key value ++ after)
  = before ++ newLine key value ++ after.
Proof.
  intros Hk Hv Hl Hs Hfree. unfold updatedContent, test, replace.
  rewrite export_search_new_line by auto using plainValue_dots.
  cbn [RegExp.before RegExp.matched RegExp.after].
  rewrite getSubstitution_plain by (apply newLine_not_dollar; assumption).
  reflexivity.
Qed.

Lemma exportHere_nil (key : jsstring) : exportHere key [] = None.
Proof. reflexivity. Qed.

(** Where the new text holds the new line: at a line start, with no
    [export] definition of the key in front of it. *)
Lemma updatedContent_shape (key value content : jsstring) :
  wordKey key -> plainValue value ->
  exists before after,
    updatedContent key value content = before ++ newLine key value ++ after /\
    lineStart (lastOr None before) = true /\ lineEnds after /\
    forall b1 q t, before = b1 ++ q ++ [t] ->
      lineStart (lastOr None b1) = true -> exportHere key q = None.
Proof.
  intros Hk Hv. unfold updatedContent, test, replace.
  destruct (exec (exportRegex key) content) as [m|] eqn:Ee.
  - destruct (search_shape key content _ m Hk (or_introl eq_refl) Ee)
      as (lead & v & _ & _ & Hl & _ & Hs & _).
    destruct (execFrom_first _ _ _ _ Ee) as (x & Hc & Hleft).
    exists (before m), (after m).
    rewrite getSubstitution_plain by (apply newLine_not_dollar; assumption).
    repeat split; try assumption.
    intros b1 q t Hb Hl1. destruct q as [|c q]; [apply exportHere_nil|].
    apply (no_export_here key (lastOr None b1) (c :: q) ([t] ++ x) Hk Hl1).
    rewrite <- (Hleft b1 c (q ++ [t]) Hb). cbn [app].
    rewrite <- !app_assoc. reflexivity.
  - destruct (exec (regularRegex key) content) as [m|] eqn:Er.
    + destruct (search_shape key content _ m Hk (or_intror eq_refl) Er)
        as (lead & v & Hc & _ & Hl & _ & Hs & _).
      exists (before m), (after m).
      rewrite getSubstitution_plain by (apply newLine_not_dollar; assumption).
      repeat split; try assumption.
      intros b1 q t Hb Hl1.
      apply (no_export_here key (lastOr None b1) q
               ([t] ++ (lead ++ key ++ 61 :: v) ++ after m) Hk Hl1).
      apply (execFrom_none _ _ _ Ee). rewrite Hc, Hb, <- !app_assoc.
      reflexivity.
    + destruct (appended_start content) as (p & -> & Hp).
      exists (p ++ [10]), [10]. rewrite <- lastOr_app.
      repeat split.
      intros b1 q t Hb Hl1. rewrite app_assoc in Hb.
      apply app_inj_tail in Hb as [-> <-].
      destruct Hp as [Hp|Hp].
      * apply (no_export_here key (lastOr None b1) q [10] Hk Hl1).
        apply (execFrom_none _ _ _ Ee). rewrite <- Hp, <- app_assoc.
        reflexivity.
      * apply (no_export_here key (lastOr None b1) q [] Hk Hl1).
        apply (execFrom_none _ _ _ Ee). rewrite <- Hp, app_nil_r.
        reflexivity.
Qed.

Lemma updatedContent_idempotent (key value content : jsstring) :
  wordKey key -> plainValue value ->
  updatedContent key value (updatedContent key value content)
  = updatedContent key value content.
Proof.
  intros Hk Hv.
  destruct (updatedContent_shape key value content Hk Hv)
    as (before & after & -> & Hl & Hs & Hfree).
  apply updatedContent_fixed; assumption.
Qed.

(** *** Dollar signs in the value *)




End EnvLines.

(** ** Updates, key by key *)

Section EnvUpdates.

Lemma updatedWorld_again (key value envPath text : jsstring) (w : World) :
  files (updatedWorld key value envPath text
           (updatedWorld key value envPath text w))
  = files (updatedWorld key value envPath text w) /\
  env (updatedWorld key value envPath text
         (updatedWorld key value envPath text w))
  = env (updatedWorld key value envPath text w).
Proof.
  unfold updatedWorld. cbn [files env]. split.
  - apply map_eq. intros path.
    destruct (decide (path = envPath)) as [->|Hp].
    + rewrite !lookup_insert_eq. reflexivity.
    + rewrite (lookup_insert_ne _ envPath path) by congruence.
      destruct (decide (path = tempPath envPath)) as [->|Ht].
      * rewrite lookup_delete_eq.
        rewrite lookup_insert_ne by (apply not_eq_sym, tempPath_ne).
        rewrite lookup_delete_eq. reflexivity.
      * rewrite lookup_delete_ne, lookup_insert_ne by congruence.
        reflexivity.
  - apply insert_insert_eq.
Qed.

(** X4.  Writing the same value again changes nothing: after a
    successful [updateEnvFile key value] a second call with the same
    arguments succeeds and leaves every file and the whole process
    environment as the first call left them (for a key over
    [[A-Za-z0-9_]] and a value on one line and free of [$]). *)
Theorem updateEnvFile_idempotent
    (key value : jsstring) (options : UpdateOptions) (w w1 : World) :
  wordKey key -> plainValue value ->
  updateEnvFile key value options w = (true, w1) ->
  exists w2,
    updateEnvFile key value options w1 = (true, w2) /\
    files w2 = files w1 /\ env w2 = env w1.
Proof.
  intros Hk Hv H. apply updateEnvFile_ok in H as (text0 & _ & Hw & ->).
  rewrite updateEnvFile_run. cbv zeta. rewrite updatedWorld_frame.
  unfold startContent. rewrite updatedWorld_envFile.
  unfold writable in Hw. apply andb_true_iff in Hw as [H1 H2].
  apply negb_true_iff in H1, H2.
  change (readOnly (updatedWorld key value (envPathOf options w)
                      (updatedContent key value text0) w))
    with (readOnly w).
  rewrite H1, H2, updatedContent_idempotent by assumption.
  eexists. split; [reflexivity|]. apply updatedWorld_again.
Qed.

(** On a sample file with two definitions. *)
Lemma updateEnvFile_idempotent_witness :
  exists w2,
    updateEnvFile (str "FOO") (str "9") noOptions
      (snd (updateEnvFile (str "FOO") (str "9") noOptions
              (Scenario.withEnvFile Scenario.twice))) = (true, w2) /\
    files w2
    = files (snd (updateEnvFile (str "FOO") (str "9") noOptions
                    (Scenario.withEnvFile Scenario.twice))) /\
    env w2
    = env (snd (updateEnvFile (str "FOO") (str "9") noOptions
                  (Scenario.withEnvFile Scenario.twice))).
Proof.
  apply (updateEnvFile_idempotent (str "FOO") (str "9") noOptions
           (Scenario.withEnvFile Scenario.twice)).
  - vm_compute. reflexivity.
  - vm_compute. reflexivity.
  - vm_compute. reflexivity.
Defined.

(** X5.  An update of one key leaves the other keys alone: the active
    definitions of every other key in the file, and its value in the
    process environment, are what they were. *)
Theorem updateEnvFile_keeps_other_keys
    (key other value : jsstring) (options : UpdateOptions) (w w' : World)
    (text0 : jsstring) :
  wordKey key -> wordKey other -> other <> key -> plainValue value ->
  startContent (envPathOf options w) (createOf options) w = Some text0 ->
  updateEnvFile key value options w = (true, w') ->
  (exists text1,
     files w' !! envPathOf options w = Some text1 /\
     activeDefinitions other text1 = activeDefinitions other text0) /\
  env w' !! other = env w !! other.
Proof.
  intros Hk Ho Hne Hv Hs H.
  apply updateEnvFile_ok in H as (t0 & Hs' & _ & ->).
  rewrite Hs in Hs'. injection Hs' as <-. split.
  - eexists. split; [apply updatedWorld_envFile|].
    apply updatedContent_other_key; assumption.
  - unfold updatedWorld. cbn [env]. apply lookup_insert_ne. congruence.
Qed.

(** On a sample file: the definition of [BAR] stays. *)
Lemma updateEnvFile_keeps_other_keys_witness :
  exists text1,
    files (snd (updateEnvFile (str "FOO") (str "9") noOptions
                  (Scenario.withEnvFile
                     (str "BAR=1" ++ Scenario.LF ++ Scenario.twice))))
      !! Scenario.envFile = Some text1 /\
    activeDefinitions (str "BAR") text1 = [str "1"].
Proof.
  destruct (updateEnvFile_keeps_other_keys (str "FOO") (str "BAR") (str "9")
              noOptions
              (Scenario.withEnvFile
                 (str "BAR=1" ++ Scenario.LF ++ Scenario.twice))
              (snd (updateEnvFile (str "FOO") (str "9") noOptions
                      (Scenario.withEnvFile
                         (str "BAR=1" ++ Scenario.LF ++ Scenario.twice))))
              (str "BAR=1" ++ Scenario.LF ++ Scenario.twice))
    as [(text1 & Hf & Hd) _].
  - vm_compute. reflexivity.
  - vm_compute. reflexivity.
  - intros E. apply (f_equal (hd 0)) in E. vm_compute in E. discriminate E.
  - vm_compute. reflexivity.
  - vm_compute. reflexivity.
  - vm_compute. reflexivity.
  - exists text1. split; [exact Hf|]. rewrite Hd. vm_compute. reflexivity.
Defined.





End EnvUpdates.

(** ** The other readers of the environment *)

Section EnvReaders.

Lemma jsstring_eqb_eq (a b : jsstring) : eqb a b = true <-> a = b.
Proof.
  revert b. induction a as [|x a IH]; intros [|y b]; cbn;
    try (split; [discriminate | discriminate]); [tauto|].
  rewrite andb_true_iff, N.eqb_eq, IH. split.
  - intros [-> ->]. reflexivity.
  - intros [= -> ->]. auto.
Qed.





(** *** Numbers *)

Lemma trimStart_spaces (ws body : jsstring) :
  Forall (fun c => isWhiteSpace c = true) ws ->
  match body with [] => True | c :: _ => isWhiteSpace c = false end ->
  trimStart (ws ++ body) = body.
Proof.
  intros Hws Hb. induction Hws as [|c ws Hc _ IH]; cbn.
  - destruct body as [|c body]; [reflexivity|]. cbn. rewrite Hb. reflexivity.
  - rewrite Hc. exact IH.
Qed.

Lemma digitPrefix_run (digits rest : jsstring) :
  Forall (fun c => isDigit c = true) digits ->
  match rest with [] => True | c :: _ => isDigit c = false end ->
  digitPrefix (digits ++ rest) = digits.
Proof.
  intros Hd Hr. induction Hd as [|c digits Hc _ IH]; cbn.
  - destruct rest as [|c rest]; [reflexivity|]. cbn. rewrite Hr. reflexivity.
  - rewrite Hc, IH. reflexivity.
Qed.

Lemma digitsValue_bound (digits : jsstring) :
  Forall (fun c => isDigit c = true) digits ->
  forall acc,
    fold_left (fun a c => 10 * a + (c - 48)) digits acc
    < (acc + 1) * 10 ^ N.of_nat (length digits).
Proof.
  induction 1 as [|c digits Hc _ IH]; intros acc.
  - cbn. lia.
  - cbn [fold_left length]. rewrite Nat2N.inj_succ, N.pow_succ_r'.
    specialize (IH (10 * acc + (c - 48))).
    unfold isDigit in Hc. apply andb_true_iff in Hc as [H1 H2].
    apply N.leb_le in H1, H2.
    eapply N.lt_le_trans; [exact IH|].
    generalize (10 ^ N.of_nat (length digits)). intros P. nia.
Qed.

(** Up to fifteen digits are read exactly. *)
Lemma roundToDouble_exact (digits : jsstring) :
  Forall (fun c => isDigit c = true) digits ->
  (length digits <= 15)%nat ->
  roundToDouble (digitsValue digits) = Some (digitsValue digits).
Proof.
  intros Hd Hlen. unfold roundToDouble.
  assert (Hb : digitsValue digits < 2 ^ 53).
  { pose proof (digitsValue_bound digits Hd 0) as H. unfold digitsValue.
    eapply N.lt_le_trans; [exact H|].
    apply (N.le_trans _ (10 ^ 15)); [|vm_compute; discriminate].
    rewrite N.add_0_l, N.mul_1_l. apply N.pow_le_mono_r; lia. }
  assert (Hs : N.size (digitsValue digits) <= 53).
  { destruct (N.eq_dec (digitsValue digits) 0) as [->|Hne];
      [vm_compute; discriminate|].
    rewrite N.size_log2 by exact Hne. apply N.le_succ_l.
    apply N.log2_lt_pow2; lia. }
  apply N.leb_le in Hs. rewrite Hs. reflexivity.
Qed.

(** X9.  A value that starts -- behind optional white space and an
    optional sign -- with up to fifteen digits reads as the integer those
    digits denote, with the sign; what follows the digits is ignored, and
    the default plays no part, also when the integer is 0. *)
Theorem getNumericEnvVar_reads_integer
    (key : jsstring) (defaultValue : option Number) (w : World)
    (ws sign digits rest : jsstring) :
  env w !! key = Some (ws ++ sign ++ digits ++ rest) ->
  Forall (fun c => isWhiteSpace c = true) ws ->
  sign = [] \/ sign = [43] \/ sign = [45] ->
  digits <> [] -> Forall (fun c => isDigit c = true) digits ->
  (length digits <= 15)%nat ->
  match rest with [] => True | c :: _ => isDigit c = false end ->
  getNumericEnvVar key defaultValue w
  = Num (eqb sign [45]) (digitsValue digits).
Proof.
  intros He Hws Hsign Hne Hd Hlen Hrest.
  unfold getNumericEnvVar, getEnvVar. rewrite He.
  assert (Ht : truthy (ws ++ sign ++ digits ++ rest) = true).
  { destruct ws; [|reflexivity]. destruct Hsign as [->|[->| ->]];
      [|reflexivity|reflexivity].
    destruct digits; [contradiction | reflexivity]. }
  rewrite Ht. cbv beta iota zeta. rewrite Ht. cbn [negb].
  assert (Hp : parseInt10 (ws ++ sign ++ digits ++ rest)
               = Num (eqb sign [45]) (digitsValue digits)).
  { unfold parseInt10. rewrite trimStart_spaces.
    - destruct digits as [|d digits]; [contradiction|].
      inversion Hd as [|? ? Hd1 Hd']; subst.
      assert (Hdp : digitPrefix ((d :: digits) ++ rest) = d :: digits)
        by (apply digitPrefix_run; assumption).
      assert (H43 : (d =? 43) = false).
      { unfold isDigit in Hd1. apply andb_true_iff in Hd1 as [H1 _].
        apply N.leb_le in H1. apply N.eqb_neq. lia. }
      assert (H45 : (d =? 45) = false).
      { unfold isDigit in Hd1. apply andb_true_iff in Hd1 as [H1 _].
        apply N.leb_le in H1. apply N.eqb_neq. lia. }
      destruct Hsign as [->|[->| ->]]; cbn [app].
      + rewrite H43, H45. cbn [orb].
        change (d :: digits ++ rest) with ((d :: digits) ++ rest).
        rewrite Hdp, roundToDouble_exact by assumption. reflexivity.
      + change (43 =? 43) with true. change (43 =? 45) with false.
        cbn [orb].
        change (d :: digits ++ rest) with ((d :: digits) ++ rest).
        rewrite Hdp, roundToDouble_exact by assumption. reflexivity.
      + change (45 =? 43) with false. change (45 =? 45) with true.
        cbn [orb].
        change (d :: digits ++ rest) with ((d :: digits) ++ rest).
        rewrite Hdp, roundToDouble_exact by assumption. reflexivity.
    - exact Hws.
    - destruct Hsign as [->|[->| ->]]; [|reflexivity|reflexivity].
      destruct digits as [|d digits]; [contradiction|].
      inversion Hd as [|? ? Hd1 _]; subst. cbn.
      unfold isDigit in Hd1. apply andb_true_iff in Hd1 as [H1 H2].
      apply N.leb_le in H1, H2. unfold isWhiteSpace.
      repeat match goal with
             | |- context [?a =? ?b] =>
                 destruct (N.eqb_spec a b); [lia|]
             | |- context [?a <=? ?b] =>
                 destruct (N.leb_spec a b); [try lia|]
             end; reflexivity. }
  rewrite Hp. reflexivity.
Qed.

(** On a sample value with a blank, a sign, a leading zero and a
    unit. *)
Lemma getNumericEnvVar_reads_integer_witness :
  getNumericEnvVar (str "AUTOMATION_GAS_LIMIT") (Some (Num false 500000))
    (setEnv {[ str "AUTOMATION_GAS_LIMIT" := str " -0750 gas" ]}
       (Scenario.machine true))
  = Num true 750.
Proof.
  apply (getNumericEnvVar_reads_integer (str "AUTOMATION_GAS_LIMIT")
           (Some (Num false 500000))
           (setEnv {[ str "AUTOMATION_GAS_LIMIT" := str " -0750 gas" ]}
              (Scenario.machine true))
           (str " ") (str "-") (str "0750") (str " gas")).
  - vm_compute. reflexivity.
  - repeat constructor.
  - right. right. reflexivity.
  - discriminate.
  - repeat constructor.
  - vm_compute. lia.
  - reflexivity.
Defined.

(** X10.  [getNumericEnvVar] never gives [NaN] unless the default is
    [NaN]: a variable that is not set or is empty, and a value whose
    first unit is neither white space, a sign nor a digit, give the
    default. *)
Theorem getNumericEnvVar_falls_back
    (key : jsstring) (defaultValue : option Number) (w : World) :
  (getNumericEnvVar key defaultValue w = NaN -> defaultValue = Some NaN) /\
  (truthyOpt (env w !! key) = false ->
   getNumericEnvVar key defaultValue w = default (Num false 0) defaultValue) /\
  (forall c rest,
     env w !! key = Some (c :: rest) ->
     isWhiteSpace c = false -> isDigit c = false -> c <> 43 -> c <> 45 ->
     getNumericEnvVar key defaultValue w
     = default (Num false 0) defaultValue).
Proof.
  unfold getNumericEnvVar, getEnvVar. split; [|split].
  - assert (Hd : default (Num false 0) defaultValue = NaN ->
                 defaultValue = Some NaN).
    { destruct defaultValue as [d|]; cbn; [intros ->; reflexivity|].
      discriminate. }
    destruct (env w !! key) as [[|c v]|]; cbn [truthy negb]; try exact Hd.
    cbv zeta. destruct (parseInt10 (c :: v)) eqn:E; cbn [isNaN];
      [exact Hd | discriminate | discriminate].
  - destruct (env w !! key) as [[|c v]|]; cbn; [reflexivity| |reflexivity].
    discriminate.
  - intros c rest -> Hws Hd H43 H45. cbn [truthy negb]. cbv zeta.
    assert (Hp : parseInt10 (c :: rest) = NaN).
    { unfold parseInt10. cbn [trimStart]. rewrite Hws.
      apply N.eqb_neq in H43, H45. rewrite H43, H45. cbn [orb digitPrefix].
      rewrite Hd. reflexivity. }
    rewrite Hp. reflexivity.
Qed.

(** On a chain identifier that is a name. *)
Lemma getNumericEnvVar_falls_back_witness :
  getNumericEnvVar (str "CHAIN_ID") (Some (Num false 1))
    (setEnv {[ str "CHAIN_ID" := str "sepolia" ]} (Scenario.machine true))
  = Num false 1.
Proof.
  destruct (getNumericEnvVar_falls_back (str "CHAIN_ID")
              (Some (Num false 1))
              (setEnv {[ str "CHAIN_ID" := str "sepolia" ]}
                 (Scenario.machine true))) as (_ & _ & H).
  apply (H 115 (str "epolia")).
  - vm_compute. reflexivity.
  - reflexivity.
  - reflexivity.
  - discriminate.
  - discriminate.
Defined.

(** *** Required variables *)

Lemma missingEnvVars_nil (requiredVars : list jsstring) (w : World) :
  missingEnvVars requiredVars w = [] <->
  forall key, In key requiredVars -> truthyOpt (env w !! key) = true.
Proof.
  unfold missingEnvVars. induction requiredVars as [|k vars IH]; cbn.
  - split; [intros _ ? [] | reflexivity].
  - destruct (truthyOpt (env w !! k)) eqn:E; cbn.
    + rewrite IH. split.
      * intros H key [<-|Hin]; auto.
      * intros H key Hin. apply H. auto.
    + split; [discriminate|]. intros H.
      specialize (H k (or_introl eq_refl)). congruence.
Qed.



End EnvReaders.

(** ** The registrars, outcome by outcome *)

Section Registrars.

Import Deploy ChainlinkFunctions ChainlinkAutomation.

(** The error of a failed command. *)
Lemma executeCommand_runChild (command : jsstring) (w : World) :
  let r := fst (runChild command w) in
  executeCommand command w
  = (match status r with
     | Exited 0 => Return (stdout r)
     | Exited c =>
         Throw (mkError (str "Command failed: " ++ command ++ [10] ++ stderr r)
                        (Some c))
     | Killed =>
         Throw (mkError (str "Command failed: " ++ command ++ [10] ++ stderr r)
                        None)
     end, snd (runChild command w)).
Proof.
  unfold executeCommand, runChild.
  destruct (spawn w command (env w) (files w)) as [r f]. cbn [fst snd].
  unfold execCallbackArgs. destruct (status r) as [[|c]|]; reflexivity.
Qed.

Lemma runChild_frame (command : jsstring) (w : World) :
  cwd (snd (runChild command w)) = cwd w /\
  env (snd (runChild command w)) = env w /\
  readOnly (snd (runChild command w)) = readOnly w /\
  history (snd (runChild command w)) = history w ++ [EvExec command].
Proof.
  unfold runChild. destruct (spawn w command (env w) (files w)) as [r f].
  cbn. auto.
Qed.

Lemma Throw_eq {A} (a b : JsError) : @Throw A a = Throw b -> b = a.
Proof. congruence. Qed.

Lemma startsWith_app (p x : jsstring) : startsWith (p ++ x) p = true.
Proof. unfold startsWith. rewrite stripPrefix_app. reflexivity. Qed.

(** X12.  [addFunctionsConsumer] returns exactly when all five
    parameters are non-empty, the [cast send] command exits with code 0
    and its output holds one of the two status marks.  With a parameter
    missing it throws at once and runs nothing; otherwise it runs the one
    command, and every error it throws carries the prefix
    [Failed to add Functions consumer: ]. *)
Theorem addFunctionsConsumer_outcome
    (contractAddress : jsstring) (config : ConsumerConfig) (w : World) :
  let command := addConsumerCommand contractAddress config in
  let r := fst (runChild command w) in
  let complete :=
    truthy contractAddress && truthyOpt (routerAddress config)
    && truthyOpt (subscriptionId config) && truthyOpt (privateKey config)
    && truthyOpt (rpcUrl config) in
  let '(outcome, w') := addFunctionsConsumer contractAddress config w in
  (outcome = Return tt <->
   complete = true /\ status r = Exited 0 /\
   includes (stdout r) statusJson || includes (stdout r) statusText = true) /\
  (complete = false ->
   w' = w /\
   outcome = Throw (newError (str
     "Missing required parameters for adding Functions consumer"))) /\
  (complete = true ->
   w' = snd (runChild command w) /\
   forall e, outcome = Throw e ->
     startsWith (message e) (str "Failed to add Functions consumer: ")
     = true).
Proof.
  intros command r complete. unfold addFunctionsConsumer.
  fold command. subst complete.
  destruct (truthy contractAddress), (truthyOpt (routerAddress config)),
    (truthyOpt (subscriptionId config)), (truthyOpt (privateKey config)),
    (truthyOpt (rpcUrl config)); cbn [negb orb andb];
    try (unfold throw; split; [split; [discriminate | intros [[=] _]]|];
         split; [auto | discriminate]).
  unfold tryCatch, bind. rewrite executeCommand_runChild. fold r.
  destruct (status r) as [[|c]|]; cbn [message];
    [destruct (includes (stdout r) statusJson),
       (includes (stdout r) statusText); cbn [negb andb orb]| |];
    unfold ret, throw; cbn [message];
    repeat split; intros; try discriminate; auto;
    try (match goal with H : _ /\ _ /\ _ |- _ =>
           destruct H as (_ & H1 & H2); discriminate
         end);
    try (match goal with H : Throw _ = Throw _ |- _ =>
           apply Throw_eq in H; subst
         end; apply startsWith_app).
Qed.

(** X13.  [verifyConsumer] never throws: it runs its one [cast call]
    command and answers [true] exactly when the command exits with code 0
    and its output holds the 32-byte word of value 1; a failed command
    gives [false]. *)
Theorem verifyConsumer_never_throws
    (contractAddress : jsstring) (config : ConsumerConfig) (w : World) :
  let command := verifyCommand contractAddress config in
  let r := fst (runChild command w) in
  exists answer,
    verifyConsumer contractAddress config w
    = (Return answer, snd (runChild command w)) /\
    (answer = true <->
     status r = Exited 0 /\ includes (stdout r) authorizedWord = true) /\
    newEvents w (snd (runChild command w)) = [EvExec command].
Proof.
  intros command r. unfold verifyConsumer, tryCatch, bind. fold command.
  rewrite executeCommand_runChild. fold r.
  assert (Hev : newEvents w (snd (runChild command w)) = [EvExec command])
    by (apply newEvents_app, runChild_frame).
  destruct (status r) as [[|c]|]; unfold ret; eexists;
    (split; [reflexivity|]); (split; [|exact Hev]).
  - split; [auto | intros [_ H]; exact H].
  - split; [discriminate | intros [[=] _]].
  - split; [discriminate | intros [[=] _]].
Qed.

(** X14.  [setForwarderAddress] throws [Missing upkeep ID], and runs
    nothing, when the upkeep identifier is missing or empty.  Otherwise
    it returns exactly when its command exits with code 0, whether or not
    the address could be stored: on a writable environment file the
    process environment then holds the address, on any other the process
    environment and the environment file are as the command left them,
    and the call returns all the same. *)
Theorem setForwarderAddress_outcome
    (forwarderAddress : jsstring) (upkeepId : option jsstring) (w : World) :
  let command := setForwarderCommand forwarderAddress upkeepId in
  let r := fst (runChild command w) in
  let '(outcome, w') := setForwarderAddress forwarderAddress upkeepId w in
  (truthyOpt upkeepId = false ->
   outcome = Throw (newError (str "Missing upkeep ID")) /\ w' = w) /\
  (truthyOpt upkeepId = true ->
   (outcome = Return tt <-> status r = Exited 0) /\
   (status r = Exited 0 ->
    if writable (resolveDotEnv w) w
    then env w' !! forwarderKey = Some forwarderAddress
    else env w' = env w /\
         files w' !! resolveDotEnv w
         = files (snd (runChild command w)) !! resolveDotEnv w)).
Proof.
  intros command r. unfold setForwarderAddress. fold command.
  destruct (truthyOpt upkeepId); cbn [negb].
  - unfold tryCatch, bind. rewrite executeCommand_runChild. fold r.
    destruct (runChild_frame command w) as (Hcwd & Henv & Hro & _).
    destruct (status r) as [[|c]|].
    + unfold call, ret.
      destruct (updateEnvFile_default_cases forwarderKey forwarderAddress
                  (snd (runChild command w)))
        as [(Hw & text0 & Hs & ->)|(Hw & w'' & -> & _ & _ & He & Hf)];
        rewrite (resolveDotEnv_frame _ _ Hcwd) in *;
        rewrite (writable_frame _ _ _ Hro) in Hw; rewrite Hw.
      * split; [discriminate|]. intros _. split; [tauto|]. intros _.
        unfold updatedWorld. cbn [env]. apply lookup_insert_eq.
      * split; [discriminate|]. intros _. split; [tauto|]. intros _.
        rewrite He, Henv. auto.
    + unfold throw. split; [discriminate|]. intros _.
      split; [split; discriminate | discriminate].
    + unfold throw. split; [discriminate|]. intros _.
      split; [split; discriminate | discriminate].
  - unfold throw. split; [auto | discriminate].
Qed.


(** *** The secrets upload *)

Lemma updateEnvFile_env_frame (key value : jsstring) (options : UpdateOptions)
    (w : World) :
  forall k, k <> key ->
    env (snd (updateEnvFile key value options w)) !! k = env w !! k.
Proof.
  intros k Hk. rewrite updateEnvFile_run. cbv zeta.
  destruct (startContent _ _ w) as [text0|]; [|reflexivity].
  destruct (bool_decide (tempPath _ ∈ readOnly w)); [reflexivity|].
  destruct (bool_decide (envPathOf options w ∈ readOnly w)); [reflexivity|].
  cbn. apply lookup_insert_ne. congruence.
Qed.

Lemma updateEnvFile_no_command (key value : jsstring)
    (options : UpdateOptions) (w : World) :
  commandsOf (newEvents w (snd (updateEnvFile key value options w))) = [].
Proof.
  destruct (updateEnvFile_events key value options w) as (evs & Hh & Hc).
  rewrite (newEvents_app _ _ _ Hh). exact Hc.
Qed.

Lemma newEvents_trans (w1 w2 w3 : World) (evs1 evs2 : list Event) :
  history w2 = history w1 ++ evs1 -> history w3 = history w2 ++ evs2 ->
  newEvents w1 w3 = evs1 ++ newEvents w2 w3.
Proof.
  intros H1 H2. rewrite (newEvents_app w2 w3 evs2 H2).
  apply newEvents_app. rewrite H2, H1, app_assoc. reflexivity.
Qed.

Lemma fallbackVersion_frame (w : World) :
  commandsOf (newEvents w (snd (fallbackVersion w))) = [] /\
  forall k, k <> secretsVersionKey ->
    env (snd (fallbackVersion w)) !! k = env w !! k.
Proof.
  unfold fallbackVersion.
  pose proof (updateEnvFile_no_command secretsVersionKey (str "1") noOptions w)
    as Hc.
  pose proof (updateEnvFile_env_frame secretsVersionKey (str "1") noOptions w)
    as He.
  destruct (updateEnvFile secretsVersionKey (str "1") noOptions w)
    as [[|] w']; auto.
Qed.

Lemma setupFunctions_effects (w : World) :
  let '(outcome, w') := setupFunctions w in
  commandsOf (newEvents w w') = [uploadSecretsCommand] /\
  forall k, k <> secretsVersionKey -> env w' !! k = env w !! k.
Proof.
  rewrite setupFunctions_run, executeCommand_runChild.
  destruct (runChild_frame uploadSecretsCommand w) as (_ & Henv & _ & Hh).
  set (w1 := snd (runChild uploadSecretsCommand w)) in *.
  assert (Hgen : forall w2,
             (exists evs, history w2 = history w1 ++ evs) ->
             commandsOf (newEvents w1 w2) = [] ->
             (forall k, k <> secretsVersionKey -> env w2 !! k = env w1 !! k) ->
             commandsOf (newEvents w w2) = [uploadSecretsCommand] /\
             forall k, k <> secretsVersionKey -> env w2 !! k = env w !! k).
  { intros w2 [evs Hh2] Hc He. split.
    - rewrite (newEvents_trans w w1 w2 _ _ Hh Hh2), commandsOf_app, Hc.
      reflexivity.
    - intros k Hk. rewrite (He k Hk), Henv. reflexivity. }
  assert (Hfb : forall w2,
             (exists evs, history w2 = history w1 ++ evs) ->
             commandsOf (newEvents w1 w2) = [] ->
             (forall k, k <> secretsVersionKey -> env w2 !! k = env w1 !! k) ->
             let '(outcome, w') := fallbackVersion w2 in
             commandsOf (newEvents w w') = [uploadSecretsCommand] /\
             forall k, k <> secretsVersionKey -> env w' !! k = env w !! k).
  { intros w2 [evs Hh2] Hc He.
    destruct (fallbackVersion_frame w2) as [Hc3 He3].
    assert (Hh3 : exists evs3,
               history (snd (fallbackVersion w2)) = history w2 ++ evs3).
    { unfold fallbackVersion.
      destruct (updateEnvFile_events secretsVersionKey (str "1") noOptions w2)
        as (evs3 & Hh3 & _).
      destruct (updateEnvFile secretsVersionKey (str "1") noOptions w2)
        as [[|] w3]; eauto. }
    destruct Hh3 as [evs3 Hh3].
    destruct (fallbackVersion w2) as [outcome w3]. cbn [snd] in *.
    apply Hgen.
    - exists (evs ++ evs3). rewrite Hh3, Hh2, app_assoc. reflexivity.
    - rewrite (newEvents_trans w1 w2 w3 _ _ Hh2 Hh3), commandsOf_app, Hc3.
      rewrite <- (newEvents_app _ _ _ Hh2), Hc. reflexivity.
    - intros k Hk. rewrite (He3 k Hk). apply He, Hk. }
  destruct (status (fst (runChild uploadSecretsCommand w))) as [[|c]|].
  - pose proof (updateEnvFile_events secretsVersionKey
                  (versionOf (stdout (fst (runChild uploadSecretsCommand w))))
                  noOptions w1) as (evs & Hh2 & Hc2).
    pose proof (updateEnvFile_no_command secretsVersionKey
                  (versionOf (stdout (fst (runChild uploadSecretsCommand w))))
                  noOptions w1) as Hc.
    pose proof (updateEnvFile_env_frame secretsVersionKey
                  (versionOf (stdout (fst (runChild uploadSecretsCommand w))))
                  noOptions w1) as He.
    destruct (updateEnvFile secretsVersionKey _ noOptions w1) as [[|] w2];
      cbn [snd] in *.
    + apply Hgen; eauto.
    + apply Hfb; eauto.
  - apply Hfb; [exists []; rewrite app_nil_r; reflexivity | | auto].
    rewrite newEvents_refl. reflexivity.
  - apply Hfb; [exists []; rewrite app_nil_r; reflexivity | | auto].
    rewrite newEvents_refl. reflexivity.
Qed.

Lemma setupFunctions_version (w w' : World) (v : jsstring) :
  setupFunctions w = (Return v, w') -> env w' !! secretsVersionKey = Some v.
Proof.
  rewrite setupFunctions_run.
  assert (Hfb : forall w0,
             fallbackVersion w0 = (Return v, w') ->
             env w' !! secretsVersionKey = Some v).
  { intros w0. unfold fallbackVersion.
    destruct (updateEnvFile secretsVersionKey (str "1") noOptions w0)
      as [[|] w1] eqn:Hu; [|discriminate].
    intros H. assert (Hv : v = str "1") by congruence.
    assert (Hw : w1 = w') by congruence. subst v w1.
    apply updateEnvFile_ok in Hu as (t0 & _ & _ & ->).
    unfold updatedWorld. cbn [env]. apply lookup_insert_eq. }
  destruct (executeCommand uploadSecretsCommand w) as [[out|e0] w1];
    [|apply Hfb].
  destruct (updateEnvFile secretsVersionKey (versionOf out) noOptions w1)
    as [[|] w2] eqn:Hu; [|apply Hfb].
  intros H. assert (Hv : v = versionOf out) by congruence.
  assert (Hw : w2 = w') by congruence. subst v w2.
  apply updateEnvFile_ok in Hu as (t0 & _ & _ & ->).
  unfold updatedWorld. cbn [env]. apply lookup_insert_eq.
Qed.

(** X16.  Whatever happens, [setupFunctions] runs the upload script
    exactly once (there is no second attempt), and of the process
    environment it changes [FUNCTIONS_SECRETS_VERSION] alone, which holds
    the version it returns. *)
Theorem setupFunctions_single_upload (w : World) :
  let '(outcome, w') := setupFunctions w in
  commandsOf (newEvents w w') = [uploadSecretsCommand] /\
  (forall k, k <> secretsVersionKey -> env w' !! k = env w !! k) /\
  (forall v, outcome = Return v -> env w' !! secretsVersionKey = Some v).
Proof.
  pose proof (setupFunctions_effects w) as H.
  destruct (setupFunctions w) as [outcome w'] eqn:Hs.
  destruct H as [Hc He]. split; [exact Hc|]. split; [exact He|].
  intros v ->. apply (setupFunctions_version w w' v Hs).
Qed.

End Registrars.

(** ** What the extractor returns *)

Section Addresses.

Lemma starReaches_input (p : N -> bool) (s s' : MState) :
  starReaches p s s' ->
  exists run,
    input s = run ++ input s' /\ seen s' = rev run ++ seen s /\
    Forall (fun c => p c = true) run.
Proof.
  induction 1 as [s|s x rest s' Hi Hp _ (run & Hin & Hs & Hf)].
  - exists []. auto.
  - exists (x :: run). cbn in Hin, Hs. rewrite Hi, Hin, Hs. cbn.
    rewrite <- app_assoc. auto.
Qed.

(** A match takes a run of units off the input. *)
Lemma reaches_input (r : RegExp.Node) :
  forall s s', reaches r s s' ->
    exists run, input s = run ++ input s' /\ seen s' = rev run ++ seen s.
Proof.
  induction r as [|c|p| | |a IHa b IHb|p|a IHa]; intros s s' H; cbn in H.
  - subst. exists []. auto.
  - destruct H as (rest & Hi & ->). exists [c]. cbn. auto.
  - destruct H as (x & rest & Hi & _ & ->). exists [x]. cbn. auto.
  - destruct H as [_ ->]. exists []. auto.
  - destruct H as [_ ->]. exists []. auto.
  - destruct H as (mid & Ha & Hb).
    apply IHa in Ha as (r1 & Hi1 & Hs1). apply IHb in Hb as (r2 & Hi2 & Hs2).
    exists (r1 ++ r2). rewrite Hi1, Hi2, Hs2, Hs1, rev_app_distr, <- !app_assoc.
    auto.
  - apply starReaches_input in H as (run & Hi & Hs & _). eauto.
  - destruct H as (inner & Ha & ->). apply IHa in Ha as (run & Hi & Hs).
    cbn in Hi, Hs. exists run. cbn. rewrite Hs, app_nil_r. auto.
Qed.

Lemma reaches_units (P : N -> bool) (r : RegExp.Node) :
  unitsWithin P r ->
  forall s s', reaches r s s' ->
    Forall (fun c => P c = true) (seen s) ->
    Forall (fun c => P c = true) (seen s').
Proof.
  induction r as [|c|p| | |a IHa b IHb|p|a IHa]; intros Hu s s' H Hs;
    cbn in H, Hu.
  - subst. exact Hs.
  - destruct H as (rest & _ & ->). cbn. constructor; assumption.
  - destruct H as (x & rest & _ & Hx & ->). cbn. constructor; auto.
  - destruct H as [_ ->]. exact Hs.
  - destruct H as [_ ->]. exact Hs.
  - destruct Hu as [Hua Hub]. destruct H as (mid & Ha & Hb). eauto.
  - apply starReaches_input in H as (run & _ & -> & Hf).
    apply Forall_app. split; [|exact Hs].
    apply Forall_rev. eapply Forall_impl; [exact Hf|]. auto.
  - destruct H as (inner & Ha & ->). cbn.
    apply Forall_app. split; [|exact Hs].
    apply (IHa Hu _ _ Ha). constructor.
Qed.

Lemma reaches_group (P : N -> bool) (r : RegExp.Node) :
  groupWithin P r ->
  forall s s', reaches r s s' ->
    (forall g, cap s = Some g -> Forall (fun c => P c = true) g) ->
    forall g, cap s' = Some g -> Forall (fun c => P c = true) g.
Proof.
  induction r as [|c|p| | |a IHa b IHb|p|a IHa]; intros Hg s s' H Hs;
    cbn in H, Hg.
  - subst. exact Hs.
  - destruct H as (rest & _ & ->). exact Hs.
  - destruct H as (x & rest & _ & _ & ->). exact Hs.
  - destruct H as [_ ->]. exact Hs.
  - destruct H as [_ ->]. exact Hs.
  - destruct Hg as [Hga Hgb]. destruct H as (mid & Ha & Hb). eauto.
  - apply starReaches_seen in H as [-> _]. exact Hs.
  - destruct H as (inner & Ha & ->). cbn. intros g [= <-].
    apply Forall_rev. apply (reaches_units P a Hg _ _ Ha). constructor.
Qed.

(** The group of a match lies in the text the match started at. *)
Lemma reaches_group_infix (r : RegExp.Node) :
  fillsGroup r = true ->
  forall s s', reaches r s s' ->
    exists g pre post, cap s' = Some g /\ input s = pre ++ g ++ post.
Proof.
  induction r as [|c|p| | |a IHa b IHb|p|a IHa]; intros Hf s s' H;
    cbn in H, Hf; try discriminate.
  - destruct H as (mid & Ha & Hb).
    apply orb_true_iff in Hf as [Hf|Hf].
    + apply andb_true_iff in Hf as [Hfa Hnb]. apply negb_true_iff in Hnb.
      rewrite (reaches_keeps_cap b Hnb _ _ Hb). eauto.
    + destruct (IHb Hf _ _ Hb) as (g & pre & post & Hc & Hi).
      apply reaches_input in Ha as (run & Hia & _).
      exists g, (run ++ pre), post. rewrite Hia, Hi, <- app_assoc. auto.
  - destruct H as (inner & Ha & ->). cbn.
    apply reaches_input in Ha as (run & Hi & Hs). cbn in Hi, Hs.
    rewrite app_nil_r in Hs. exists run, [], (input inner).
    rewrite Hs, rev_involutive. auto.
Qed.

Lemma includes_startsWith (s p : jsstring) :
  startsWith s p = true -> includes s p = true.
Proof. intros H. destruct s; cbn; rewrite H; reflexivity. Qed.

Lemma includes_infix (pre g post : jsstring) :
  includes (pre ++ g ++ post) g = true.
Proof.
  induction pre as [|c pre IH].
  - apply includes_startsWith. unfold startsWith. cbn [app].
    rewrite stripPrefix_app. reflexivity.
  - cbn [app includes]. rewrite IH. apply orb_true_r.
Qed.

Lemma includes_inv (s p : jsstring) :
  includes s p = true -> exists pre post, s = pre ++ p ++ post.
Proof.
  induction s as [|c s IH]; cbn [includes]; rewrite orb_true_iff.
  - intros [H|H]; [|discriminate]. unfold startsWith in H.
    destruct (stripPrefix p []) as [r|] eqn:E; [|discriminate].
    apply stripPrefix_Some in E. exists [], r. exact E.
  - intros [H|H].
    + unfold startsWith in H.
      destruct (stripPrefix p (c :: s)) as [r|] eqn:E; [|discriminate].
      apply stripPrefix_Some in E. exists [], r. exact E.
    + apply IH in H as (pre & post & ->). exists (c :: pre), post. reflexivity.
Qed.

(** What a search returns as its group. *)
Lemma exec_group (r : RegExp.Node) (output : jsstring) (m : Match) :
  exec r output = Some m ->
  exists pv x s,
    output = before m ++ x /\
    reaches r (mkM pv [] x None) s /\ group1 m = cap s.
Proof.
  intros He. apply execFrom_Some in He as (x & Hc & Hm).
  unfold matchAt in Hm.
  destruct (mexec r Some (mkM (lastOr None (before m)) [] x None))
    as [s|] eqn:E; [|discriminate].
  apply mexec_reaches in E as (s' & Hr & [= <-]).
  exists (lastOr None (before m)), x, s'.
  split; [exact Hc|]. split; [exact Hr|]. congruence.
Qed.

Lemma addressPatterns_units :
  Forall (groupWithin addressUnit) addressPatterns.
Proof.
  assert (H1 : forall x, hexOrX x = true -> addressUnit x = true).
  { intros x H. unfold addressUnit. rewrite H. reflexivity. }
  assert (H2 : forall x, classI hexOrX x = true -> addressUnit x = true).
  { intros x H. unfold classI in H.
    apply orb_true_iff in H as [H|H]; [apply orb_true_iff in H as [H|H]|].
    - apply H1, H.
    - unfold canonicalize in H.
      destruct ((97 <=? x) && (x <=? 122)) eqn:E; [|apply H1, H].
      apply andb_true_iff in E as [E1 E2]. apply N.leb_le in E1, E2.
      unfold hexOrX, isDigit in H.
      rewrite !orb_true_iff, !andb_true_iff, !N.leb_le, N.eqb_eq in H.
      unfold addressUnit, hexOrX, isDigit.
      rewrite !orb_true_iff, !andb_true_iff, !N.leb_le, !N.eqb_eq. lia.
    - destruct ((65 <=? x) && (x <=? 90)) eqn:E; [|discriminate].
      apply andb_true_iff in E as [E1 E2]. apply N.leb_le in E1, E2.
      unfold hexOrX, isDigit in H.
      rewrite !orb_true_iff, !andb_true_iff, !N.leb_le, N.eqb_eq in H.
      unfold addressUnit, hexOrX, isDigit.
      rewrite !orb_true_iff, !andb_true_iff, !N.leb_le, !N.eqb_eq. lia. }
  assert (H3 : forall x, hexDigit x = true -> addressUnit x = true).
  { intros x. unfold addressUnit, hexOrX, hexDigit.
    destruct (isDigit x), (_ && _), (_ && _); cbn; auto; discriminate. }
  assert (Ha : groupWithin addressUnit address40).
  { cbn. repeat split; auto. }
  repeat constructor; cbn [groupWithin unitsWithin Plus lit litI str];
    repeat split; auto.
Qed.


Lemma firstAddress_shape (patterns : list RegExp.Node) (output a : jsstring) :
  forallb fillsGroup patterns = true ->
  Forall (groupWithin addressUnit) patterns ->
  firstAddress patterns output = Some a ->
  Forall (fun c => addressUnit c = true) a /\ includes output a = true.
Proof.
  induction patterns as [|r more IH]; intros Hf Hg H; [discriminate|].
  cbn in Hf. apply andb_true_iff in Hf as [Hr Hmore].
  inversion Hg as [|? ? Hgr Hgmore]; subst. cbn [firstAddress] in H.
  destruct (exec r output) as [m|] eqn:He; [|auto].
  rewrite (exec_group_truthy r output m Hr He) in H.
  destruct (exec_group r output m He) as (pv & x & s & Hout & Hreach & Hcap).
  rewrite H in Hcap. split.
  - apply (reaches_group addressUnit r Hgr _ _ Hreach); [discriminate|].
    symmetry. exact Hcap.
  - destruct (reaches_group_infix r Hr _ _ Hreach)
      as (g & pre & post & Hc & Hi).
    cbn in Hi. rewrite Hc in Hcap. injection Hcap as ->.
    rewrite Hout, Hi, app_assoc. apply includes_infix.
Qed.

(** X17.  An address the extractor returns is a piece of the output,
    unit for unit, and holds only units of [[0-9a-fA-FxX]]. *)
Theorem extractAddress_result_shape (output a : jsstring) :
  extractAddressFromForgeOutput output = Some a ->
  Forall (fun c => addressUnit c = true) a /\ includes output a = true.
Proof.
  apply firstAddress_shape;
    [apply addressPatterns_fill_group | apply addressPatterns_units].
Qed.

(** On a sample output. *)
Lemma extractAddress_result_shape_witness :
  includes
    (str "Deployed to: 0xAbC123" ++ Scenario.LF ++ str "done")
    (str "0xAbC123") = true.
Proof.
  apply (extractAddress_result_shape
           (str "Deployed to: 0xAbC123" ++ Scenario.LF ++ str "done")
           (str "0xAbC123")).
  vm_compute. reflexivity.
Defined.

Lemma addressUnit_plain (a : jsstring) :
  Forall (fun c => addressUnit c = true) a -> plainValue a.
Proof.
  unfold plainValue. induction 1 as [|c a Hc _ IH]; [reflexivity|].
  cbn [forallb]. rewrite IH, andb_true_r.
  unfold addressUnit, hexOrX, isDigit in Hc.
  rewrite !orb_true_iff, !andb_true_iff, !N.leb_le, !N.eqb_eq in Hc.
  unfold isDot, isLineTerminator.
  rewrite andb_true_iff, !negb_true_iff, !orb_false_iff, !N.eqb_neq. lia.
Qed.

(** *** Labels that are always found *)

Lemma starFrom_total (p : N -> bool) (k : MState -> option MState)
    (inp : list N) :
  (forall s, is_Some (k s)) ->
  forall pv sn cp, is_Some (starFrom p k pv sn cp inp).
Proof.
  intros Hk. induction inp as [|c rest IH]; intros pv sn cp; cbn; [apply Hk|].
  destruct (p c); [|apply Hk].
  destruct (IH (Some c) (c :: sn) cp) as [r ->]. eauto.
Qed.

(** A group of one or more units of a class matches in front of a unit
    of the class. *)
Lemma group_matches (P : N -> bool) (c : N) (rest : jsstring) (s : MState) :
  input s = c :: rest -> P c = true ->
  is_Some (mexec (Capture (Plus P)) Some s).
Proof.
  intros Hi Hc. cbn [mexec Plus input]. rewrite Hi, Hc.
  apply starFrom_total. eauto.
Qed.

Lemma mexec_litI (L : jsstring) :
  forall q rest k s,
    Forall2 (fun x c => canonicalize x = canonicalize c) q L ->
    input s = q ++ rest ->
    mexec (litI L) k s = k (fed q rest s).
Proof.
  induction L as [|c L IH]; intros q rest k [pv sn inp cp] Hq Hi;
    inversion Hq as [|x ? q' ? Hx Hq']; subst; cbn in Hi; subst inp.
  - reflexivity.
  - cbn [litI mexec CharI input]. rewrite Hx, N.eqb_refl.
    rewrite (IH q' rest); [reflexivity | exact Hq' | reflexivity].
Qed.

Lemma Forall2_canon_refl (L : jsstring) :
  Forall2 (fun x c => canonicalize x = canonicalize c) L L.
Proof. induction L; constructor; auto. Qed.

Lemma fed_input (run rest : jsstring) (s : MState) :
  input (fed run rest s) = rest.
Proof. reflexivity. Qed.

Lemma exec_matches_at (r : RegExp.Node) (pre x : jsstring) :
  is_Some (matchAt r (lastOr None pre) x) ->
  is_Some (exec r (pre ++ x)).
Proof.
  intros [m Hm]. destruct (exec r (pre ++ x)) as [m'|] eqn:E; [eauto|].
  rewrite (execFrom_none r _ _ E pre x eq_refl) in Hm. discriminate Hm.
Qed.

Lemma matchAt_of_mexec (r : RegExp.Node) (pv : option N) (x : jsstring) :
  is_Some (mexec r Some (mkM pv [] x None)) -> is_Some (matchAt r pv x).
Proof. unfold matchAt. intros [s ->]. eauto. Qed.

Lemma labelled_pattern_matches (label : jsstring) (P : N -> bool)
    (pre : jsstring) (c : N) (post : jsstring) :
  P c = true ->
  is_Some (exec (Seq (lit label) (Capture (Plus P)))
             (pre ++ (label ++ [c]) ++ post)).
Proof.
  intros Hc. apply exec_matches_at, matchAt_of_mexec.
  cbn [mexec]. rewrite mexec_lit. cbn [input].
  rewrite <- app_assoc, stripPrefix_app.
  apply (group_matches P c post); [reflexivity | exact Hc].
Qed.

Lemma labelledI_pattern_matches (L q : jsstring) (P : N -> bool)
    (pre : jsstring) (c : N) (post : jsstring) :
  Forall2 (fun x c => canonicalize x = canonicalize c) q L ->
  P c = true ->
  is_Some (exec (Seq (litI L) (Capture (Plus P)))
             (pre ++ q ++ c :: post)).
Proof.
  intros Hq Hc. apply exec_matches_at, matchAt_of_mexec.
  cbn [mexec]. rewrite (mexec_litI L q (c :: post)); [|exact Hq|reflexivity].
  apply (group_matches P c post); [reflexivity | exact Hc].
Qed.

Lemma firstAddress_hit (patterns : list RegExp.Node) (r : RegExp.Node)
    (output : jsstring) :
  forallb fillsGroup patterns = true -> In r patterns ->
  is_Some (exec r output) -> is_Some (firstAddress patterns output).
Proof.
  induction patterns as [|r0 more IH]; intros Hf Hin Hr; [destruct Hin|].
  cbn in Hf. apply andb_true_iff in Hf as [Hr0 Hmore]. cbn [firstAddress].
  destruct (exec r0 output) as [m|] eqn:He.
  - pose proof (exec_group_truthy r0 output m Hr0 He) as Ht. rewrite Ht.
    destruct (group1 m); [eauto | discriminate].
  - destruct Hin as [->|Hin]; [|auto].
    rewrite He in Hr. destruct Hr as [? [=]].
Qed.

Lemma hexOrX_classI (c : N) : hexOrX c = true -> classI hexOrX c = true.
Proof. intros H. unfold classI. rewrite H. reflexivity. Qed.

(** X18.  An output that holds [Contract Address: ], [Deployed to: ]
    or [deployed at: ] directly followed by a unit of [[0-9a-fA-Fx]],
    wherever in the text, always yields an address: the extractor does not
    return [null]. *)
Theorem extractAddress_finds_label (output label : jsstring) (c : N) :
  In label [str "Contract Address: "; str "Deployed to: ";
            str "deployed at: "] ->
  includes output (label ++ [c]) = true -> hexOrX c = true ->
  exists a, extractAddressFromForgeOutput output = Some a.
Proof.
  intros Hl Hi Hc. apply includes_inv in Hi as (pre & post & ->).
  unfold extractAddressFromForgeOutput.
  destruct Hl as [<-|[<-|[<-|[]]]].
  - apply (firstAddress_hit addressPatterns
             (Seq (lit (str "Contract Address: ")) (Capture (Plus hexOrX))));
      [apply addressPatterns_fill_group | cbn; auto |].
    apply labelled_pattern_matches, Hc.
  - apply (firstAddress_hit addressPatterns
             (Seq (lit (str "Deployed to: ")) (Capture (Plus hexOrX))));
      [apply addressPatterns_fill_group | cbn; auto |].
    apply labelled_pattern_matches, Hc.
  - apply (firstAddress_hit addressPatterns
             (Seq (litI (str "deployed at: "))
                  (Capture (Plus (classI hexOrX)))));
      [apply addressPatterns_fill_group | cbn; auto |].
    rewrite <- app_assoc. cbn [app].
    apply labelledI_pattern_matches;
      [apply Forall2_canon_refl | apply hexOrX_classI, Hc].
Qed.

(** On a sample output. *)
Lemma extractAddress_finds_label_witness :
  exists a,
    extractAddressFromForgeOutput
      (str "== Return ==" ++ Scenario.LF ++ str "Deployed to: 0x12") = Some a.
Proof.
  apply (extractAddress_finds_label _ (str "Deployed to: ") 48).
  - right. left. reflexivity.
  - vm_compute. reflexivity.
  - reflexivity.
Defined.

(** *** Patterns that never decide *)

Lemma reaches_litI (L : jsstring) :
  forall s s', reaches (litI L) s s' ->
    exists q,
      input s = q ++ input s' /\
      Forall2 (fun x c => canonicalize x = canonicalize c) q L.
Proof.
  induction L as [|c L IH]; intros s s' H; cbn [litI reaches] in H.
  - subst. exists []. split; [reflexivity | constructor].
  - destruct H as (mid & (x & rest & Hi & Hx & ->) & H).
    apply IH in H as (q & Hq & Hf). cbn in Hq.
    exists (x :: q). rewrite Hi, Hq. split; [reflexivity|].
    constructor; [apply N.eqb_eq, Hx | exact Hf].
Qed.

Lemma reaches_group_head (P : N -> bool) (s s' : MState) :
  reaches (Capture (Plus P)) s s' ->
  exists c rest, input s = c :: rest /\ P c = true.
Proof.
  cbn. intros (inner & (mid & (x & rest & Hi & Hx & _) & _) & _).
  cbn in Hi. eauto.
Qed.

(** A pattern whose label ends in the label of another one matches only
    where the other one matches too. *)
Lemma longer_label_subsumed (L0 L : jsstring) (P : N -> bool)
    (output : jsstring) :
  exec (Seq (litI L) (Capture (Plus P))) output = None ->
  exec (Seq (litI (L0 ++ L)) (Capture (Plus P))) output = None.
Proof.
  intros H.
  destruct (exec (Seq (litI (L0 ++ L)) (Capture (Plus P))) output)
    as [m|] eqn:E; [|reflexivity].
  exfalso. destruct (exec_group _ _ _ E) as (pv & x & s & Hout & Hr & _).
  cbn [reaches] in Hr. destruct Hr as (mid & Hl & Hg).
  apply reaches_litI in Hl as (q & Hq & Hf). cbn in Hq.
  apply Forall2_app_inv_r in Hf as (q0 & q1 & _ & Hf1 & ->).
  assert (Hh : exists c rest, input mid = c :: rest /\ P c = true).
  { apply (reaches_group_head P mid s). exact Hg. }
  destruct Hh as (c & rest & Hi & Hc).
  destruct (labelledI_pattern_matches L q1 P (before m ++ q0) c rest Hf1 Hc)
    as [m' Hm'].
  rewrite Hout, Hq, Hi, <- !app_assoc in H. rewrite <- !app_assoc in Hm'.
  rewrite H in Hm'. discriminate Hm'.
Qed.

Lemma firstAddress_skip (r : RegExp.Node) (output : jsstring)
    (post : list RegExp.Node) :
  exec r output = None ->
  forall pre,
    firstAddress (pre ++ r :: post) output = firstAddress (pre ++ post) output.
Proof.
  intros Hr. induction pre as [|r0 pre IH]; cbn [app firstAddress].
  - rewrite Hr. reflexivity.
  - rewrite IH. reflexivity.
Qed.

Lemma firstAddress_decided (r : RegExp.Node) (output : jsstring)
    (l1 l2 : list RegExp.Node) :
  is_Some (exec r output) -> fillsGroup r = true ->
  forall pre,
    forallb fillsGroup pre = true ->
    firstAddress (pre ++ r :: l1) output
    = firstAddress (pre ++ r :: l2) output.
Proof.
  intros [m Hm] Hr. induction pre as [|r0 pre IH]; intros Hf;
    cbn [app firstAddress].
  - rewrite Hm, (exec_group_truthy r output m Hr Hm). reflexivity.
  - cbn in Hf. apply andb_true_iff in Hf as [Hr0 Hpre].
    destruct (exec r0 output) as [m0|] eqn:E0; [|auto].
    rewrite (exec_group_truthy r0 output m0 Hr0 E0). reflexivity.
Qed.

(** X19.  The fourth and the fifth pattern never decide: what they
    match, the third pattern matches as well, so the extractor gives the
    same result without them. *)
Theorem extractAddress_dead_patterns (output : jsstring) :
  extractAddressFromForgeOutput output
  = firstAddress (take 3 addressPatterns ++ drop 5 addressPatterns) output.
Proof.
  unfold extractAddressFromForgeOutput.
  set (p1 := Seq (lit (str "Contract Address: ")) (Capture (Plus hexOrX))).
  set (p2 := Seq (lit (str "Deployed to: ")) (Capture (Plus hexOrX))).
  set (p3 := Seq (litI (str "deployed at: ")) (Capture (Plus (classI hexOrX)))).
  set (p4 := Seq (litI (str "DStock " ++ str "deployed at: "))
                 (Capture (Plus (classI hexOrX)))).
  set (p5 := Seq (litI (str "Test_USDC " ++ str "deployed at: "))
                 (Capture (Plus (classI hexOrX)))).
  set (tail := drop 5 addressPatterns).
  change (take 3 addressPatterns) with [p1; p2; p3].
  change addressPatterns with ([p1; p2; p3] ++ p4 :: p5 :: tail).
  destruct (exec p3 output) as [m|] eqn:E3.
  - apply (firstAddress_decided p3 output (p4 :: p5 :: tail) tail
             (ex_intro _ m E3) eq_refl [p1; p2] eq_refl).
  - rewrite (firstAddress_skip p4 output (p5 :: tail)
               (longer_label_subsumed (str "DStock ") _ _ _ E3) [p1; p2; p3]).
    apply (firstAddress_skip p5 output tail
             (longer_label_subsumed (str "Test_USDC ") _ _ _ E3)
             [p1; p2; p3]).
Qed.

End Addresses.

(** ** Deployment *)

Section Deployment.

Import Deploy ChainlinkFunctions ChainlinkAutomation.

Lemma deployContract_guard (g : Globals) :
  negb (truthyOpt (PRIVATE_KEY g)) || negb (truthyOpt (RPC_URL g))
  || negb (truthyOpt (ETHERSCAN_API_KEY g)) = negb (configured g).
Proof.
  unfold configured.
  destruct (truthyOpt (PRIVATE_KEY g)), (truthyOpt (RPC_URL g)),
    (truthyOpt (ETHERSCAN_API_KEY g)); reflexivity.
Qed.

Lemma updateEnvFile_failure_events (key value : jsstring)
    (options : UpdateOptions) (w : World) :
  forall w', updateEnvFile key value options w = (false, w') ->
    exists evs,
      history w' = history w ++ evs /\ commandsOf evs = [] /\ env w' = env w.
Proof.
  intros w'. rewrite updateEnvFile_run. cbv zeta.
  destruct (startContent _ _ w) as [text0|].
  - destruct (bool_decide (tempPath _ ∈ readOnly w)).
    + intros [= <-]. exists []. rewrite app_nil_r. auto.
    + destruct (bool_decide (envPathOf options w ∈ readOnly w));
        [|discriminate].
      intros [= <-]. eexists. split; [reflexivity|]. auto.
  - intros [= <-]. exists []. rewrite app_nil_r. auto.
Qed.

Lemma firstAddress_truthy (patterns : list RegExp.Node)
    (output a : jsstring) :
  forallb fillsGroup patterns = true ->
  firstAddress patterns output = Some a -> truthy a = true.
Proof.
  induction patterns as [|p more IH]; intros Hf H; [discriminate|].
  cbn in Hf. apply andb_true_iff in Hf as [Hp Hmore]. cbn in H.
  destruct (exec p output) as [m|] eqn:Em; [|auto].
  pose proof (exec_group_truthy p _ m Hp Em) as Ht.
  rewrite Ht in H. rewrite H in Ht. exact Ht.
Qed.

(** What [deployContract] does behind its parameter check. *)
Lemma deployContract_run (g : Globals) (scriptPath envVar : jsstring)
    (w : World) :
  configured g = true ->
  let command := forgeCommand g scriptPath in
  let r := fst (runChild command w) in
  let w1 := snd (runChild command w) in
  let failed (reason : jsstring) : Completion jsstring :=
    Throw (newError (str "Contract deployment failed: " ++ reason)) in
  deployContract g scriptPath envVar w =
  match status r with
  | Exited 0 =>
      match extractAddressFromForgeOutput (stdout r) with
      | Some address =>
          match updateEnvFile envVar address noOptions w1 with
          | (true, w2) => (Return address, w2)
          | (false, w2) =>
              (failed (str "Failed to update " ++ envVar
                       ++ str " in .env file"), w2)
          end
      | None =>
          (failed (str
             "Failed to extract contract address from deployment output"),
           w1)
      end
  | _ =>
      (failed (str "Command failed: " ++ command ++ [10] ++ stderr r), w1)
  end.
Proof.
  intros Hc command r w1 failed. unfold deployContract.
  rewrite deployContract_guard, Hc. cbn [negb].
  unfold tryCatch, bind. rewrite executeCommand_runChild.
  fold command r w1.
  destruct (status r) as [[|c]|]; [|reflexivity|reflexivity].
  destruct (extractAddressFromForgeOutput (stdout r)) as [a|] eqn:He;
    [|reflexivity].
  assert (Ha : truthy a = true).
  { apply (firstAddress_truthy addressPatterns (stdout r));
      [apply addressPatterns_fill_group | exact He]. }
  rewrite Ha. cbn [negb]. unfold call.
  destruct (updateEnvFile envVar a noOptions w1) as [[|] w2];
    cbn [negb]; reflexivity.
Qed.


(** X20.  An address that [deployContract] returns has been stored:
    it is the address extracted from the output of the [forge] command,
    the process environment holds it under the given name, and the
    environment file holds an active definition of that name with it (for
    a name over [[A-Za-z0-9_]]). *)
Theorem deployContract_stores_address
    (g : Globals) (scriptPath envVar : jsstring) (w w' : World)
    (address : jsstring) :
  wordKey envVar ->
  deployContract g scriptPath envVar w = (Return address, w') ->
  extractAddressFromForgeOutput
    (stdout (fst (runChild (forgeCommand g scriptPath) w))) = Some address /\
  env w' !! envVar = Some address /\
  exists text,
    files w' !! resolveDotEnv w = Some text /\
    In address (activeDefinitions envVar text).
Proof.
  intros Hk H.
  assert (Hc : configured g = true).
  { unfold deployContract in H. rewrite deployContract_guard in H.
    destruct (configured g); [reflexivity | discriminate H]. }
  rewrite (deployContract_run g scriptPath envVar w Hc) in H. cbv zeta in H.
  destruct (runChild_frame (forgeCommand g scriptPath) w)
    as (Hcwd & _ & _ & _).
  destruct (status _) as [[|c]|]; try discriminate H.
  destruct (extractAddressFromForgeOutput _) as [a|] eqn:He;
    [|discriminate H].
  destruct (updateEnvFile envVar a noOptions _) as [[|] w2] eqn:Hu;
    [|discriminate H].
  assert (Ha : a = address) by congruence.
  assert (Hw : w2 = w') by congruence. subst a w2.
  split; [reflexivity|].
  apply updateEnvFile_ok in Hu as (text0 & _ & _ & ->).
  change (envPathOf noOptions ?x) with (resolveDotEnv x).
  rewrite (resolveDotEnv_frame _ _ Hcwd). split.
  - unfold updatedWorld. cbn [env]. apply lookup_insert_eq.
  - eexists. split; [apply updatedWorld_envFile|].
    apply updatedContent_holds_value; [exact Hk|].
    apply addressUnit_plain.
    apply (firstAddress_shape addressPatterns _ address
             addressPatterns_fill_group addressPatterns_units He).
Qed.

(** On the sample machine. *)
Lemma deployContract_stores_address_witness :
  env (snd (deployContract (loadGlobals (Scenario.machine true))
              (str "script/Deploy.s.sol") envVarName (Scenario.machine true)))
    !! envVarName = Some (str "0xabc").
Proof.
  apply (deployContract_stores_address (loadGlobals (Scenario.machine true))
           (str "script/Deploy.s.sol") envVarName (Scenario.machine true)
           (snd (deployContract (loadGlobals (Scenario.machine true))
                   (str "script/Deploy.s.sol") envVarName
                   (Scenario.machine true)))
           (str "0xabc")).
  - vm_compute. reflexivity.
  - vm_compute. reflexivity.
Defined.

(** X21.  How [deployContract] fails.  With one of its three variables
    missing it throws at once and changes nothing.  Otherwise every error
    carries the prefix [Contract deployment failed: ], the [forge] command
    has run, once, and the process environment is untouched; in particular
    a deployment whose output shows no address fails after the command,
    with nothing written. *)
Theorem deployContract_failures
    (g : Globals) (scriptPath envVar : jsstring) (w : World) :
  let command := forgeCommand g scriptPath in
  let r := fst (runChild command w) in
  let '(outcome, w') := deployContract g scriptPath envVar w in
  (configured g = false ->
   w' = w /\
   outcome = Throw (newError (str
     "Missing required environment variables for deployment"))) /\
  (configured g = true ->
   forall e, outcome = Throw e ->
     startsWith (message e) (str "Contract deployment failed: ") = true /\
     commandsOf (newEvents w w') = [command] /\ env w' = env w) /\
  (configured g = true -> status r = Exited 0 ->
   extractAddressFromForgeOutput (stdout r) = None ->
   w' = snd (runChild command w) /\
   outcome = Throw (newError (str
     "Contract deployment failed: Failed to extract contract address from deployment output"))).
Proof.
  intros command r. destruct (configured g) eqn:Hc.
  - rewrite (deployContract_run g scriptPath envVar w Hc). cbv zeta.
    fold command r.
    destruct (runChild_frame command w) as (_ & Henv & _ & Hh).
    assert (Hev : commandsOf (newEvents w (snd (runChild command w)))
                  = [command])
      by (rewrite (newEvents_app _ _ _ Hh); reflexivity).
    destruct (status r) as [[|c]|].
    + destruct (extractAddressFromForgeOutput (stdout r)) as [a|].
      * pose proof (updateEnvFile_failure_events envVar a noOptions
                      (snd (runChild command w))) as Hf.
        destruct (updateEnvFile envVar a noOptions _) as [[|] w2].
        -- split; [discriminate|]. split; [discriminate|]. discriminate.
        -- split; [discriminate|]. split; [|discriminate].
           intros _ e He. apply Throw_eq in He. subst e.
           split; [apply startsWith_app|].
           destruct (Hf w2 eq_refl) as (evs & Hh2 & Hc2 & He2).
           split; [|congruence].
           rewrite (newEvents_trans w _ w2 _ _ Hh Hh2).
           rewrite (newEvents_app _ _ _ Hh2), commandsOf_app, Hc2.
           reflexivity.
      * split; [discriminate|]. split.
        -- intros _ e He. apply Throw_eq in He. subst e.
           split; [apply startsWith_app | auto].
        -- intros _ _ _. split; reflexivity.
    + split; [discriminate|]. split; [|discriminate].
      intros _ e He. apply Throw_eq in He. subst e.
      split; [apply startsWith_app | auto].
    + split; [discriminate|]. split; [|discriminate].
      intros _ e He. apply Throw_eq in He. subst e.
      split; [apply startsWith_app | auto].
  - unfold deployContract. rewrite deployContract_guard, Hc. cbn [negb].
    unfold throw. split; [auto|]. split; discriminate.
Qed.


(** *** The run as a whole *)

Lemma addFunctionsConsumer_throws (a : jsstring) (config : ConsumerConfig)
    (w w' : World) (e : JsError) :
  truthy a && truthyOpt (routerAddress config)
  && truthyOpt (subscriptionId config) && truthyOpt (privateKey config)
  && truthyOpt (rpcUrl config) = true ->
  addFunctionsConsumer a config w = (Throw e, w') ->
  startsWith (message e) (str "Failed to add Functions consumer: ") = true.
Proof.
  intros Hc. unfold addFunctionsConsumer.
  destruct (truthy a), (truthyOpt (routerAddress config)),
    (truthyOpt (subscriptionId config)), (truthyOpt (privateKey config)),
    (truthyOpt (rpcUrl config)); try discriminate Hc. cbn [negb orb].
  unfold tryCatch, bind. rewrite executeCommand_runChild.
  destruct (status _) as [[|c]|];
    [destruct (negb _ && negb _); unfold ret, throw| |]; unfold throw;
    intros H; try discriminate H;
    match type of H with
    | (Throw ?x, _) = _ => assert (He : e = x) by congruence
    end; subst e; apply startsWith_app.
Qed.

Lemma registerAutomation_throws (a : jsstring) (w w' : World) (e : JsError) :
  registerAutomation a w = (Throw e, w') ->
  startsWith (message e) (str "Failed to register automation: ") = true.
Proof.
  unfold registerAutomation, tryCatch, bind. rewrite executeCommand_runChild.
  destruct (status _) as [[|c]|]; unfold ret, throw; intros H;
    try discriminate H;
    match type of H with
    | (Throw ?x, _) = _ => assert (He : e = x) by congruence
    end; subst e; apply startsWith_app.
Qed.

Lemma setupFunctions_throws (w w' : World) (e : JsError) :
  setupFunctions w = (Throw e, w') ->
  e = newError (str "Failed to set default FUNCTIONS_SECRETS_VERSION").
Proof.
  rewrite setupFunctions_run.
  assert (Hfb : forall w0,
             fallbackVersion w0 = (Throw e, w') ->
             e = newError
                   (str "Failed to set default FUNCTIONS_SECRETS_VERSION")).
  { intros w0. unfold fallbackVersion.
    destruct (updateEnvFile secretsVersionKey (str "1") noOptions w0)
      as [[|] w1]; [discriminate|]. congruence. }
  destruct (executeCommand uploadSecretsCommand w) as [[out|e0] w1];
    [|apply Hfb].
  destruct (updateEnvFile secretsVersionKey (versionOf out) noOptions w1)
    as [[|] w2]; [discriminate | apply Hfb].
Qed.

Lemma deployContract_throws (g : Globals) (scriptPath envVar : jsstring)
    (w w' : World) (e : JsError) :
  configured g = true ->
  deployContract g scriptPath envVar w = (Throw e, w') ->
  startsWith (message e) (str "Contract deployment failed: ") = true.
Proof.
  intros Hc. rewrite (deployContract_run g scriptPath envVar w Hc). cbv zeta.
  destruct (status _) as [[|c]|];
    [destruct (extractAddressFromForgeOutput _) as [a|];
       [destruct (updateEnvFile envVar a noOptions _) as [[|] w2]|]| |];
    intros H; try discriminate H;
    match type of H with
    | (Throw ?x, _) = _ => assert (He : e = x) by congruence
    end; subst e; apply startsWith_app.
Qed.

Lemma deployContract_truthy (g : Globals) (scriptPath envVar : jsstring)
    (w w' : World) (a : jsstring) :
  deployContract g scriptPath envVar w = (Return a, w') -> truthy a = true.
Proof.
  intros H.
  assert (Hc : configured g = true).
  { unfold deployContract in H. rewrite deployContract_guard in H.
    destruct (configured g); [reflexivity | discriminate H]. }
  rewrite (deployContract_run g scriptPath envVar w Hc) in H. cbv zeta in H.
  destruct (status _) as [[|c]|]; try discriminate H.
  destruct (extractAddressFromForgeOutput _) as [a'|] eqn:He;
    [|discriminate H].
  destruct (updateEnvFile envVar a' noOptions _) as [[|] w2];
    [|discriminate H].
  assert (Ha : a' = a) by congruence. subst a'.
  apply (firstAddress_truthy addressPatterns _ a addressPatterns_fill_group He).
Qed.

(** **** The configuration check *)

Lemma validateConfig_passes (options : DeployOptions) (w : World) :
  Validation.validateConfig options w = None <->
  Validation.missingVars options w = [].
Proof.
  unfold Validation.validateConfig. cbv zeta.
  destruct (Validation.missingVars options w); cbn.
  - tauto.
  - split; discriminate.
Qed.

Lemma validateConfig_required (options : DeployOptions) (w : World)
    (key : jsstring) :
  Validation.validateConfig options w = None ->
  In key (Validation.requiredCommon
          ++ (if automation options then Validation.requiredAutomation
              else [])
          ++ (if functions options then Validation.requiredFunctions
              else [])) ->
  truthyOpt (env w !! key) = true.
Proof.
  intros Hv Hin. apply validateConfig_passes in Hv.
  unfold Validation.missingVars in Hv.
  apply app_eq_nil in Hv as [H1 H2]. apply app_eq_nil in H2 as [H2 H3].
  apply in_app_or in Hin as [Hin|Hin];
    [exact (proj1 (missingEnvVars_nil _ w) H1 key Hin)|].
  apply in_app_or in Hin as [Hin|Hin].
  - destruct (automation options); [|destruct Hin].
    exact (proj1 (missingEnvVars_nil _ w) H2 key Hin).
  - destruct (functions options); [|destruct Hin].
    exact (proj1 (missingEnvVars_nil _ w) H3 key Hin).
Qed.

Lemma getEnvVar_truthy (key : jsstring) (w : World) :
  truthyOpt (env w !! key) = true ->
  truthyOpt (getEnvVar key None w) = true /\
  exists v, getEnvVar key None w = Some v.
Proof.
  unfold getEnvVar. destruct (env w !! key) as [[|c v]|]; cbn;
    try discriminate. eauto.
Qed.

(** X22.  With the validation of [config/validation.js]: when a
    variable that the selected options require is not set or is empty,
    [deploy] ends with exit code 1 and has changed nothing -- no command
    was run and no file written. *)
Theorem deploy_needs_configuration
    (g : Globals) (options : DeployOptions) (w : World) (key : jsstring) :
  In key (Validation.requiredCommon
          ++ (if automation options then Validation.requiredAutomation
              else [])
          ++ (if functions options then Validation.requiredFunctions
              else [])) ->
  truthyOpt (env w !! key) = false ->
  deploy Validation.validateConfig g options w = (1, w).
Proof.
  intros Hin Hu.
  destruct (Validation.validateConfig options w) as [e|] eqn:Hv.
  - unfold deploy, pipeline, deployStep, bind, validate. rewrite Hv.
    reflexivity.
  - rewrite (validateConfig_required options w key Hv Hin) in Hu.
    discriminate Hu.
Qed.

(** On the sample machine, which has no [CHAIN_ID]. *)
Lemma deploy_needs_configuration_witness :
  deploy Validation.validateConfig (loadGlobals (Scenario.machine true))
    Scenario.both (Scenario.machine true) = (1, Scenario.machine true).
Proof.
  apply (deploy_needs_configuration (loadGlobals (Scenario.machine true))
           Scenario.both (Scenario.machine true) (str "CHAIN_ID")).
  - cbn. auto.
  - vm_compute. reflexivity.
Defined.

Lemma startsWith_inv (s p : jsstring) :
  startsWith s p = true -> exists x, s = p ++ x.
Proof.
  unfold startsWith. destruct (stripPrefix p s) as [r|] eqn:E; [|discriminate].
  intros _. exists r. apply stripPrefix_Some, E.
Qed.

Lemma not_guard_message (p x : jsstring) :
  In p [ str "Contract deployment failed: ";
         str "Failed to add Functions consumer: ";
         str "Failed to register automation: ";
         str "Failed to set default FUNCTIONS_SECRETS_VERSION";
         str "Missing required environment variables:" ] ->
  ~ In (p ++ x) guardMessages.
Proof.
  intros Hp Hin. unfold guardMessages in Hin. cbn [In] in Hin, Hp.
  repeat (destruct Hp as [<-|Hp];
          [repeat (destruct Hin as [Hin|Hin];
                   [match type of Hin with
                    | _ = ?q ++ x =>
                        apply (f_equal (take (length q))) in Hin;
                        rewrite take_app_length in Hin;
                        vm_compute in Hin; discriminate Hin
                    end|]);
           destruct Hin|]).
  destruct Hp.
Qed.

(** X23.  With the validation of [config/validation.js] and the
    constants loaded from the same environment, an error of the pipeline
    is the validation error, or carries one of the prefixes
    [Contract deployment failed: ], [Failed to add Functions consumer: ],
    [Failed to register automation: ], or is
    [Failed to set default FUNCTIONS_SECRETS_VERSION].  So the parameter
    checks behind the validation -- of [deployContract], of the script
    path, of the returned address and of [addFunctionsConsumer] -- never
    fire. *)
Theorem pipeline_errors (options : DeployOptions) (w w' : World)
    (e : JsError) :
  pipeline Validation.validateConfig (loadGlobals w) options w
    = (Throw e, w') ->
  (Validation.validateConfig options w = Some e \/
   startsWith (message e) (str "Contract deployment failed: ") = true \/
   message e = str "Failed to set default FUNCTIONS_SECRETS_VERSION" \/
   startsWith (message e) (str "Failed to add Functions consumer: ") = true \/
   startsWith (message e) (str "Failed to register automation: ") = true) /\
  ~ In (message e) guardMessages.
Proof.
  intros H.
  assert (Hcases :
    Validation.validateConfig options w = Some e \/
    startsWith (message e) (str "Contract deployment failed: ") = true \/
    message e = str "Failed to set default FUNCTIONS_SECRETS_VERSION" \/
    startsWith (message e) (str "Failed to add Functions consumer: ") = true \/
    startsWith (message e) (str "Failed to register automation: ") = true).
  { unfold pipeline, bind in H. unfold deployStep, bind, validate in H.
    destruct (Validation.validateConfig options w) as [e0|] eqn:Hv;
      [left; congruence|].
    assert (Hreq : forall key, In key Validation.requiredCommon ->
                     truthyOpt (getEnvVar key None w) = true /\
                     exists v, getEnvVar key None w = Some v).
    { intros key Hin. apply getEnvVar_truthy.
      apply (validateConfig_required options w key Hv).
      apply in_or_app. left. exact Hin. }
    destruct (Hreq (str "SCRIPT_PATH")) as [_ [sp Hsp]]; [cbn; auto|].
    rewrite Hsp in H. unfold bind in H.
    assert (Hc : configured (loadGlobals w) = true).
    { unfold configured, loadGlobals.
      cbn [PRIVATE_KEY RPC_URL ETHERSCAN_API_KEY].
      destruct (Hreq (str "PRIVATE_KEY")) as [-> _]; [cbn; auto|].
      destruct (Hreq (str "RPC_URL")) as [-> _]; [cbn; auto 6|].
      destruct (Hreq (str "ETHERSCAN_API_KEY")) as [-> _]; [cbn; auto 8|].
      reflexivity. }
    destruct (deployContract (loadGlobals w) sp envVarName w)
      as [[a|e1] w1] eqn:Hd.
    - rewrite (deployContract_truthy _ _ _ _ _ _ Hd) in H.
      cbn [negb] in H. unfold ret in H.
      unfold functionsStep in H.
      destruct (functions options) eqn:Hfun.
      + unfold bind in H.
        destruct (setupFunctions w1) as [[v|e2] w2] eqn:Hs.
        * destruct (addFunctionsConsumer a _ w2) as [[[]|e3] w3] eqn:Ha.
          -- unfold automationStep in H.
             destruct (automation options); [|discriminate H].
             right. right. right. right.
             apply (registerAutomation_throws a w3 w'). exact H.
          -- right. right. right. left.
             assert (He : e3 = e) by congruence. subst e3.
             refine (addFunctionsConsumer_throws a _ w2 w3 e _ Ha).
             cbn [routerAddress subscriptionId privateKey rpcUrl].
             rewrite (deployContract_truthy _ _ _ _ _ _ Hd).
             unfold loadGlobals.
             cbn [FUNCTIONS_ROUTER_ADDRESS FUNCTIONS_SUBSCRIPTION_ID
                  PRIVATE_KEY RPC_URL].
             assert (Hf : forall key, In key Validation.requiredFunctions ->
                            truthyOpt (getEnvVar key None w) = true).
             { intros key Hin. apply getEnvVar_truthy.
               apply (validateConfig_required options w key Hv).
               apply in_or_app. right. apply in_or_app. right.
               rewrite Hfun. exact Hin. }
             rewrite (Hf (str "FUNCTIONS_ROUTER_ADDRESS")) by (cbn; auto).
             rewrite (Hf (str "FUNCTIONS_SUBSCRIPTION_ID")) by (cbn; auto).
             destruct (Hreq (str "PRIVATE_KEY")) as [-> _]; [cbn; auto|].
             destruct (Hreq (str "RPC_URL")) as [-> _]; [cbn; auto 6|].
             reflexivity.
        * right. right. left.
          assert (He : e2 = e) by congruence. subst e2.
          rewrite (setupFunctions_throws w1 w2 e Hs). reflexivity.
      + unfold bind, ret in H. unfold automationStep in H.
        destruct (automation options); [|discriminate H].
        right. right. right. right.
        apply (registerAutomation_throws a w1 w'). exact H.
    - right. left. assert (He : e1 = e) by congruence. subst e1.
      apply (deployContract_throws _ _ _ _ _ _ Hc Hd). }
  split; [exact Hcases|].
  destruct Hcases as [Hv|[Hp|[Hm|[Hp|Hp]]]].
  - unfold Validation.validateConfig in Hv. cbv zeta in Hv.
    destruct (Nat.ltb _ _); [|discriminate Hv].
    assert (He : e = newError
                   (str "Missing required environment variables:" ++ [10]
                    ++ join [10] (Validation.missingVars options w) ++ [10]
                    ++ str "Please check your .env file and ensure all required variables are set."))
      by congruence.
    subst e. apply not_guard_message. cbn. auto 10.
  - apply startsWith_inv in Hp as [x ->]. apply not_guard_message. cbn. auto.
  - rewrite Hm, <- (app_nil_r (str _)). apply not_guard_message. cbn. auto 10.
  - apply startsWith_inv in Hp as [x ->]. apply not_guard_message. cbn. auto.
  - apply startsWith_inv in Hp as [x ->]. apply not_guard_message. cbn. auto.
Qed.


Lemma addFunctionsConsumer_env (a : jsstring) (config : ConsumerConfig)
    (w : World) :
  env (snd (addFunctionsConsumer a config w)) = env w.
Proof.
  unfold addFunctionsConsumer. destruct (_ || _); [reflexivity|].
  unfold tryCatch, bind. rewrite executeCommand_runChild.
  destruct (runChild_frame (addConsumerCommand a config) w) as (_ & He & _).
  destruct (status _) as [[|c]|]; [destruct (negb _ && negb _)| |]; exact He.
Qed.

Lemma registerAutomation_env (a : jsstring) (w : World) :
  env (snd (registerAutomation a w)) = env w.
Proof.
  unfold registerAutomation, tryCatch, bind. rewrite executeCommand_runChild.
  destruct (runChild_frame registerCommand w) as (_ & He & _).
  destruct (status _) as [[|c]|]; exact He.
Qed.

(** On a fully configured machine whose consumer transaction is
    rejected. *)
Lemma pipeline_errors_witness :
  ~ In (message
          (match fst (pipeline Validation.validateConfig
                        (loadGlobals (Cases.readyMachine false))
                        Scenario.both (Cases.readyMachine false)) with
           | Throw e => e
           | Return _ => newError []
           end))
       guardMessages.
Proof.
  apply (pipeline_errors Scenario.both (Cases.readyMachine false)
           (snd (pipeline Validation.validateConfig
                   (loadGlobals (Cases.readyMachine false))
                   Scenario.both (Cases.readyMachine false)))).
  vm_compute. reflexivity.
Defined.

(** X24.  A run that ends with exit code 0 leaves the deployed address,
    a non-empty string, in the process environment under
    [CONTRACT_ADDRESS]; with Chainlink Functions selected it leaves a
    secrets version under [FUNCTIONS_SECRETS_VERSION], without it that
    variable is untouched; every other variable is as it was. *)
Theorem deploy_success_environment
    (validateConfig : DeployOptions -> World -> option JsError)
    (g : Globals) (options : DeployOptions) (w w' : World) :
  deploy validateConfig g options w = (0, w') ->
  exists address,
    address <> [] /\ env w' !! envVarName = Some address /\
    (if functions options
     then exists version, env w' !! secretsVersionKey = Some version
     else env w' !! secretsVersionKey = env w !! secretsVersionKey) /\
    forall key, key <> envVarName -> key <> secretsVersionKey ->
      env w' !! key = env w !! key.
Proof.
  unfold deploy.
  destruct (pipeline validateConfig g options w) as [[[]|e] w2] eqn:Hp;
    [|discriminate].
  intros H. assert (Hw : w2 = w') by congruence. subst w2. clear H.
  unfold pipeline, bind in Hp.
  destruct (deployStep validateConfig g options w) as [[a|e] w1] eqn:Hd;
    [|discriminate].
  destruct (deployStep_ok _ _ _ _ _ _ Hd)
    as (sp & out & w0 & text0 & _ & Hx & Hext & _ & Hw1).
  pose proof (executeCommand_keeps (forgeCommand g sp) w) as [_ He0].
  rewrite Hx in He0. cbn [snd] in He0.
  assert (He1 : env w1 = <[envVarName := a]> (env w)).
  { rewrite Hw1. unfold updatedWorld. cbn [env]. rewrite He0. reflexivity. }
  assert (Hne : secretsVersionKey <> envVarName).
  { intros E. apply (f_equal (hd 0)) in E. vm_compute in E. discriminate E. }
  exists a. split.
  { pose proof (firstAddress_truthy addressPatterns out a
                  addressPatterns_fill_group Hext) as Ht.
    destruct a; [discriminate Ht | discriminate]. }
  destruct (functionsStep g options a w1) as [[[]|e] w3] eqn:Hf;
    [|discriminate].
  assert (He3 : env w' = env w3).
  { unfold automationStep in Hp. destruct (automation options).
    - pose proof (registerAutomation_env a w3) as Hr. rewrite Hp in Hr.
      exact Hr.
    - unfold ret in Hp. congruence. }
  rewrite He3. unfold functionsStep in Hf.
  destruct (functions options).
  - unfold bind in Hf.
    destruct (setupFunctions w1) as [[v|e] w2] eqn:Hs; [|discriminate].
    pose proof (addFunctionsConsumer_env a
                  (mkConsumerConfig (FUNCTIONS_ROUTER_ADDRESS g)
                     (FUNCTIONS_SUBSCRIPTION_ID g) (PRIVATE_KEY g) (RPC_URL g))
                  w2) as Ha.
    rewrite Hf in Ha. cbn [snd] in Ha. rewrite Ha.
    pose proof (setupFunctions_effects w1) as Hfr. rewrite Hs in Hfr.
    destruct Hfr as [_ Hfr].
    split; [|split].
    + rewrite (Hfr envVarName) by (apply not_eq_sym, Hne).
      rewrite He1. apply lookup_insert_eq.
    + exists v. apply (setupFunctions_version w1 w2 v Hs).
    + intros key H1 H2. rewrite (Hfr key H2), He1.
      apply lookup_insert_ne. congruence.
  - unfold ret in Hf. assert (Hw : w3 = w1) by congruence. subst w3.
    rewrite He1. split; [apply lookup_insert_eq|]. split.
    + apply lookup_insert_ne. apply not_eq_sym, Hne.
    + intros key H1 H2. apply lookup_insert_ne. congruence.
Qed.

(** On the sample machine. *)
Lemma deploy_success_environment_witness :
  exists address,
    address <> [] /\
    env (snd (deploy Scenario.noValidation
                (loadGlobals (Scenario.machine true)) Scenario.both
                (Scenario.machine true))) !! envVarName = Some address.
Proof.
  destruct (deploy_success_environment Scenario.noValidation
              (loadGlobals (Scenario.machine true)) Scenario.both
              (Scenario.machine true)
              (snd (deploy Scenario.noValidation
                      (loadGlobals (Scenario.machine true)) Scenario.both
                      (Scenario.machine true))))
    as (address & Hne & He & _).
  - vm_compute. reflexivity.
  - exists address. auto.
Defined.

(** X25.  The command line: a service is selected exactly when its
    long or its short flag is among the arguments, wherever it stands and
    whatever else is given. *)
Theorem parseArgs_flags (args : list jsstring) :
  (functions (parseArgs args) = true <->
   In (str "--functions") args \/ In (str "-f") args) /\
  (automation (parseArgs args) = true <->
   In (str "--automation") args \/ In (str "-a") args).
Proof.
  assert (H : forall flag,
             existsb (eqb flag) args = true <-> In flag args).
  { intros flag. rewrite existsb_exists. split.
    - intros (x & Hin & Hx). apply jsstring_eqb_eq in Hx. subst x. exact Hin.
    - intros Hin. exists flag. split; [exact Hin|].
      apply jsstring_eqb_eq. reflexivity. }
  unfold parseArgs. cbn [functions automation].
  rewrite !orb_true_iff, !H. tauto.
Qed.

(** X26.  When the registrars start their commands, the process
    environment -- which a command inherits -- holds the deployed address
    under [CONTRACT_ADDRESS]: behind the first step, and still behind the
    Functions registrar, which, if selected, has added the secrets
    version.  So the registration script, which reads the address from
    its environment and not from an argument, finds the new contract. *)
Theorem registrars_inherit_address
    (validateConfig : DeployOptions -> World -> option JsError)
    (g : Globals) (options : DeployOptions) (w w1 : World) (a : jsstring) :
  deployStep validateConfig g options w = (Return a, w1) ->
  env w1 !! envVarName = Some a /\
  forall w2,
    functionsStep g options a w1 = (Return tt, w2) ->
    env w2 !! envVarName = Some a /\
    (functions options = true ->
     exists version, env w2 !! secretsVersionKey = Some version) /\
    fst (runChild registerCommand w2)
    = fst (spawn w2 registerCommand (env w2) (files w2)).
Proof.
  intros Hd.
  destruct (deployStep_ok _ _ _ _ _ _ Hd)
    as (sp & out & w0 & text0 & _ & _ & _ & _ & Hw1).
  assert (H1 : env w1 !! envVarName = Some a).
  { rewrite Hw1. unfold updatedWorld. cbn [env]. apply lookup_insert_eq. }
  split; [exact H1|]. intros w2 Hf.
  assert (Hne : envVarName <> secretsVersionKey).
  { intros E. apply (f_equal (hd 0)) in E. vm_compute in E. discriminate E. }
  assert (Hchild : fst (runChild registerCommand w2)
                   = fst (spawn w2 registerCommand (env w2) (files w2))).
  { unfold runChild.
    destruct (spawn w2 registerCommand (env w2) (files w2)); reflexivity. }
  unfold functionsStep in Hf. destruct (functions options).
  - unfold bind in Hf.
    destruct (setupFunctions w1) as [[v|e] w1'] eqn:Hs; [|discriminate].
    pose proof (addFunctionsConsumer_env a
                  (mkConsumerConfig (FUNCTIONS_ROUTER_ADDRESS g)
                     (FUNCTIONS_SUBSCRIPTION_ID g) (PRIVATE_KEY g) (RPC_URL g))
                  w1') as Ha.
    rewrite Hf in Ha. cbn [snd] in Ha.
    pose proof (setupFunctions_effects w1) as Hfr. rewrite Hs in Hfr.
    destruct Hfr as [_ Hfr].
    split; [|split; [|exact Hchild]].
    + rewrite Ha, (Hfr envVarName Hne). exact H1.
    + intros _. exists v. rewrite Ha.
      apply (setupFunctions_version w1 w1' v Hs).
  - unfold ret in Hf. assert (Hw : w2 = w1) by congruence. subst w2.
    split; [exact H1|]. split; [discriminate | exact Hchild].
Qed.

(** On the sample machine. *)
Lemma registrars_inherit_address_witness :
  env (snd (deployStep Scenario.noValidation
              (loadGlobals (Scenario.machine true)) Scenario.both
              (Scenario.machine true))) !! envVarName = Some (str "0xabc").
Proof.
  apply (registrars_inherit_address Scenario.noValidation
           (loadGlobals (Scenario.machine true)) Scenario.both
           (Scenario.machine true)).
  vm_compute. reflexivity.
Defined.

End Deployment.
